(** * hamiket: the node tree editor of [src/app/page.tsx]

    A shallow embedding of the React component [NodeTreeEditor]: the node
    forest, the pure tree helpers ([updateTree], [replaceNodeInTree],
    [markCutNodes], [clearCutFlags], [removeFrom], [deleteFrom],
    [flattenTree]), the layout pass [recalculateLayout], and the event
    handlers, which become functions on an explicit [State] record holding
    the component's [useState] cells.

    Conventions.
    - Node ids are [string]s; labels are sequences of UTF-16 code units
      ([list N]), which is what [String.prototype.trim] inspects.
    - [col] and [row] only ever hold small non-negative integers (they
      start at 0 and grow by [+ 1] and [Math.max]); they are modelled as
      [nat].
    - The optional fields [parentId?] and [isCut?] are [option]s; [None]
      is JavaScript's [undefined].
    - [uuidv4] is an external generator.  The component state carries the
      number of calls made so far and the [k]-th call returns [uuidv4 k]
      for a function [uuidv4 : nat -> string] that is a parameter of the
      development. *)

From Stdlib Require Import List String Ascii Bool Arith NArith ZArith Lia.
From Stdlib Require Import Permutation.
Import ListNotations.
Open Scope string_scope.
Open Scope list_scope.
Open Scope nat_scope.

Set Implicit Arguments.

(* ------------------------------------------------------------------ *)
(** ** Data model *)

(** [interface NodeItem] *)
Local Unset Elimination Schemes.

Inductive NodeItem : Type := mkNode {
  id : string;
  label : list N;
  children : list NodeItem;
  parentId : option string;
  isCut : option bool;
  col : nat;
  row : nat
}.

Local Set Elimination Schemes.

(** Induction over a node with the hypothesis available for every child. *)
Section NodeItem_induction.
Variable P : NodeItem -> Prop.
Hypothesis step : forall i l ch p c co ro,
    Forall P ch -> P (mkNode i l ch p c co ro).

Fixpoint NodeItem_forall_ind (n : NodeItem) : P n :=
  match n with
  | mkNode i l ch p c co ro =>
      step i l p c co ro
        ((fix all (xs : list NodeItem) : Forall P xs :=
            match xs with
            | [] => Forall_nil P
            | x :: r => Forall_cons x (NodeItem_forall_ind x) (all r)
            end) ch)
  end.
End NodeItem_induction.

(** The clipboard cell: [{ mode: 'cut' | 'copy'; node: NodeItem } | null]. *)
Inductive Mode : Type := cut | copy.

Record Clipboard : Type := mkClipboard {
  mode : Mode;
  node : NodeItem
}.

Definition RootLabel : list N :=
  [1581; 1587; 1575; 1576; 8204; 1607; 1575; 1740; 32;
   1575; 1589; 1604; 1740]%N.

(** The initial value of the [nodes] cell. *)
Definition initialNodes : list NodeItem :=
  [mkNode "root" RootLabel [] None None 0 0].

(* ------------------------------------------------------------------ *)
(** ** Tree helpers *)

(** [markCutNodes] *)
Fixpoint markCutNodes (n : NodeItem) : NodeItem :=
  match n with
  | mkNode i l ch p _ co ro =>
      mkNode i l (map markCutNodes ch) p (Some true) co ro
  end.

(** [clearCutFlags] *)
Fixpoint clearCutFlags (n : NodeItem) : NodeItem :=
  match n with
  | mkNode i l ch p _ co ro =>
      mkNode i l (map clearCutFlags ch) p (Some false) co ro
  end.

(** [flattenTree]: [walk] pushes the node, then walks its children. *)
Fixpoint walk (n : NodeItem) : list NodeItem :=
  match n with
  | mkNode _ _ ch _ _ _ _ => n :: flat_map walk ch
  end.

Definition flattenTree (tree : list NodeItem) : list NodeItem :=
  flat_map walk tree.

(** [updateTree current id updater]: the callback given to [current.map].
    The [updater] mutates a shallow copy of the matched node; it is
    modelled by the function from the copy to its final value. *)
Fixpoint updateTree_node (i : string) (updater : NodeItem -> NodeItem)
    (n : NodeItem) : NodeItem :=
  match n with
  | mkNode ni l ch p c co ro =>
      if String.eqb ni i then updater n
      else match ch with
           | [] => n
           | _ :: _ => mkNode ni l (map (updateTree_node i updater) ch) p c co ro
           end
  end.

Definition updateTree (current : list NodeItem) (i : string)
    (updater : NodeItem -> NodeItem) : list NodeItem :=
  map (updateTree_node i updater) current.

(** [replaceNodeInTree nodes targetId updatedNode] *)
Fixpoint replaceNodeInTree_node (targetId : string) (updatedNode : NodeItem)
    (n : NodeItem) : NodeItem :=
  match n with
  | mkNode ni l ch p c co ro =>
      if String.eqb ni targetId then updatedNode
      else if 0 <? List.length ch
           then mkNode ni l (map (replaceNodeInTree_node targetId updatedNode) ch)
                       p c co ro
           else n
  end.

Definition replaceNodeInTree (nodes : list NodeItem) (targetId : string)
    (updatedNode : NodeItem) : list NodeItem :=
  map (replaceNodeInTree_node targetId updatedNode) nodes.

(** [removeFrom] and [deleteFrom] are the same function up to the id they
    filter on ([clipboard?.node.id], [contextNode?.id]); the id is [None]
    when the optional chain yields [undefined], in which case every node
    is kept ([n.id !== undefined]). *)
Definition keeps (target : option string) (n : NodeItem) : bool :=
  match target with
  | Some i => negb (String.eqb (id n) i)
  | None => true
  end.

Fixpoint prune_node (target : option string) (n : NodeItem) : NodeItem :=
  match n with
  | mkNode ni l ch p c co ro =>
      mkNode ni l
        ((fix prune_list (xs : list NodeItem) : list NodeItem :=
            match xs with
            | [] => []
            | x :: r =>
                if keeps target x
                then prune_node target x :: prune_list r
                else prune_list r
            end) ch)
        p c co ro
  end.

(** [list.filter(n => n.id !== target).map(n => ({...n, children: ...}))] *)
Definition pruneFrom (target : option string) (xs : list NodeItem)
  : list NodeItem :=
  map (prune_node target) (filter (keeps target) xs).

(* ------------------------------------------------------------------ *)
(** ** Layout *)

(** A [map] whose callback also threads a counter: the shape shared by
    the [for (const node of tree)] loop of [recalculateLayout], which
    threads [row] and pushes to [updated], and by
    [node.children.map(deepClone)], whose callback draws from [uuidv4]. *)
Definition mapAccum (A B S : Type) (body : A -> S -> B * S)
  : list A -> S -> list B * S :=
  fix loop (xs : list A) (s : S) : list B * S :=
    match xs with
    | [] => ([], s)
    | x :: rest =>
        let '(y, s') := body x s in
        let '(ys, final) := loop rest s' in
        (y :: ys, final)
    end.

(** One iteration of the loop of [recalculateLayout]: the children are
    laid out from the node's own row ([recalculateLayout(node.children,
    row, col + 1)]), and the loop goes on from
    [Math.max(row + 1, nextRow)]. *)
Fixpoint layoutNode (c : nat) (n : NodeItem) (r : nat) {struct n}
  : NodeItem * nat :=
  match n with
  | mkNode ni l ch p cu _ _ =>
      let '(childrenWithLayout, nextRow) :=
        mapAccum (layoutNode (c + 1)) ch r in
      (mkNode ni l childrenWithLayout p cu c r, Nat.max (r + 1) nextRow)
  end.

(** [recalculateLayout tree startRow col] *)
Definition recalculateLayout (tree : list NodeItem) (startRow c : nat)
  : list NodeItem * nat :=
  mapAccum (layoutNode c) tree startRow.

(* ------------------------------------------------------------------ *)
(** ** [String.prototype.trim] on UTF-16 code units *)

(** ECMAScript [WhiteSpace] and [LineTerminator] code points; all of them
    lie in the basic plane, so each is one code unit. *)
Definition isWhiteSpace (c : N) : bool :=
  ((c =? 9) || (c =? 10) || (c =? 11) || (c =? 12) || (c =? 13) ||
   (c =? 32) || (c =? 160) || (c =? 5760) ||
   ((8192 <=? c) && (c <=? 8202)) ||
   (c =? 8232) || (c =? 8233) || (c =? 8239) || (c =? 8287) ||
   (c =? 12288) || (c =? 65279))%N.

Fixpoint trimStart (s : list N) : list N :=
  match s with
  | [] => []
  | c :: rest => if isWhiteSpace c then trimStart rest else s
  end.

Definition trimEnd (s : list N) : list N := rev (trimStart (rev s)).

Definition trim (s : list N) : list N := trimEnd (trimStart s).

(** Truthiness of a string: the empty string is the only falsy one. *)
Definition truthy (s : list N) : bool :=
  match s with [] => false | _ :: _ => true end.

(* ------------------------------------------------------------------ *)
(** ** Connectors *)

Definition COLUMN_SPACING : nat := 250.
Definition ROW_SPACING : nat := 100.
Definition NODE_WIDTH : nat := 200.
Definition NODE_HEIGHT : nat := 60.

(** The callback of [flatNodes.map] in [renderConnectors], up to the
    array of points that it then joins into the [points] attribute of the
    [polyline]; [None] is the [null] it returns when the node has no
    [parentId] (undefined, or the empty string, which is falsy) or when
    [flatNodes.find] finds no node with that id.  All the numbers are
    non-negative integers. *)
Definition connectorPoints (flatNodes : list NodeItem) (child : NodeItem)
  : option (list (nat * nat)) :=
  match parentId child with
  | None => None
  | Some pid =>
      if String.eqb pid "" then None
      else
        match find (fun n => String.eqb (id n) pid) flatNodes with
        | None => None
        | Some parent =>
            let parentX := col parent * COLUMN_SPACING + NODE_WIDTH in
            let childX := col child * COLUMN_SPACING in
            let VERTICAL_OFFSET := 48 in
            let parentY :=
              row parent * ROW_SPACING + NODE_HEIGHT / 2 + VERTICAL_OFFSET in
            let childY :=
              row child * ROW_SPACING + NODE_HEIGHT / 2 + VERTICAL_OFFSET in
            let horizontalGap := 20 in
            Some [(parentX, parentY);
                  (parentX + horizontalGap, parentY);
                  (parentX + horizontalGap, childY);
                  (childX, childY)]
        end
  end.

(** [renderConnectors]: one entry per node of the traversal. *)
Definition renderConnectors (nodes : list NodeItem)
  : list (option (list (nat * nat))) :=
  let flatNodes := flattenTree nodes in
  map (connectorPoints flatNodes) flatNodes.

(* ------------------------------------------------------------------ *)
(** ** Component state *)

(** The [useState] cells of [NodeTreeEditor], and the number of calls made
    to [uuidv4] so far. *)
Record State : Type := mkState {
  nodes : list NodeItem;
  contextNode : option NodeItem;
  contextMenu : option (Z * Z);
  modalOpen : bool;
  newLabel : list N;
  clipboard : option Clipboard;
  uuidCalls : nat
}.

Definition initialState : State :=
  mkState initialNodes None None false [] None 0.

Definition setNodes (v : list NodeItem) (s : State) : State :=
  mkState v (contextNode s) (contextMenu s) (modalOpen s) (newLabel s)
          (clipboard s) (uuidCalls s).

Definition setContextNode (v : option NodeItem) (s : State) : State :=
  mkState (nodes s) v (contextMenu s) (modalOpen s) (newLabel s)
          (clipboard s) (uuidCalls s).

Definition setContextMenu (v : option (Z * Z)) (s : State) : State :=
  mkState (nodes s) (contextNode s) v (modalOpen s) (newLabel s)
          (clipboard s) (uuidCalls s).

Definition setModalOpen (v : bool) (s : State) : State :=
  mkState (nodes s) (contextNode s) (contextMenu s) v (newLabel s)
          (clipboard s) (uuidCalls s).

Definition setNewLabel (v : list N) (s : State) : State :=
  mkState (nodes s) (contextNode s) (contextMenu s) (modalOpen s) v
          (clipboard s) (uuidCalls s).

Definition setClipboard (v : option Clipboard) (s : State) : State :=
  mkState (nodes s) (contextNode s) (contextMenu s) (modalOpen s) (newLabel s)
          v (uuidCalls s).

Definition setUuidCalls (v : nat) (s : State) : State :=
  mkState (nodes s) (contextNode s) (contextMenu s) (modalOpen s) (newLabel s)
          (clipboard s) v.

(** The updater [(n) => { n.children = [...n.children, child] }]. *)
Definition appendChild (child : NodeItem) (n : NodeItem) : NodeItem :=
  mkNode (id n) (label n) (children n ++ [child]) (parentId n) (isCut n)
         (col n) (row n).

(* ------------------------------------------------------------------ *)
(** ** Event handlers *)

Section Handlers.

(** The [k]-th call of [uuidv4()] returns [uuidv4 k]. *)
Variable uuidv4 : nat -> string.

(** [deepClone], local to [handlePaste].  The object literal evaluates
    [id: uuidv4()] before [children: node.children.map(deepClone)], so a
    node draws its id before its descendants do. *)
Fixpoint deepClone (n : NodeItem) (k : nat) {struct n} : NodeItem * nat :=
  match n with
  | mkNode _ l ch p _ _ _ =>
      let '(clones, k') := mapAccum deepClone ch (S k) in
      (mkNode (uuidv4 k) l clones p (Some false) 0 0, k')
  end.

Definition handleCloseContextMenu (s : State) : State :=
  setContextMenu None s.

Definition handleAddChild (s : State) : State :=
  handleCloseContextMenu (setModalOpen true s).

(** [handleRightClick event node], with [event.clientX] and
    [event.clientY]; the cell holds [(top, left)]. *)
Definition handleRightClick (n : NodeItem) (clientX clientY : Z) (s : State)
  : State :=
  setContextMenu (Some (clientY, clientX)) (setContextNode (Some n) s).

Definition handleModalSubmit (s : State) : State :=
  match contextNode s with
  | None => s
  | Some cn =>
      if negb (truthy (trim (newLabel s))) then s
      else
        let newChild :=
          mkNode (uuidv4 (uuidCalls s)) (newLabel s) [] (Some (id cn)) None 0 0 in
        let updatedTree := updateTree (nodes s) (id cn) (appendChild newChild) in
        let recalculated := fst (recalculateLayout updatedTree 0 0) in
        setModalOpen false
          (setNewLabel []
             (setNodes recalculated (setUuidCalls (S (uuidCalls s)) s)))
  end.

Definition handleCut (s : State) : State :=
  match contextNode s with
  | None => s
  | Some cn =>
      if String.eqb (id cn) "root" then s
      else
        let cutNodeMarked := markCutNodes cn in
        setContextMenu None
          (setClipboard (Some (mkClipboard cut cutNodeMarked))
             (setNodes
                (replaceNodeInTree (nodes s) (id cutNodeMarked) cutNodeMarked)
                s))
  end.

Definition handleCopy (s : State) : State :=
  match contextNode s with
  | None => s
  | Some cn =>
      if String.eqb (id cn) "root" then s
      else handleCloseContextMenu (setClipboard (Some (mkClipboard copy cn)) s)
  end.

(** [deleteFrom], local to [handleDelete], filters on [contextNode?.id]. *)
Definition deleteFrom (s : State) (xs : list NodeItem) : list NodeItem :=
  pruneFrom (option_map id (contextNode s)) xs.

Definition handleDelete (s : State) : State :=
  let cleaned := deleteFrom s (nodes s) in
  let recalculated := fst (recalculateLayout cleaned 0 0) in
  handleCloseContextMenu (setNodes recalculated s).

(** [removeFrom] filters on [clipboard?.node.id]. *)
Definition removeFrom (s : State) (xs : list NodeItem) : list NodeItem :=
  pruneFrom (option_map (fun c => id (node c)) (clipboard s)) xs.

Definition handlePaste (s : State) : State :=
  match contextNode s, clipboard s with
  | Some cn, Some cb =>
      if String.eqb (id cn) (id (node cb)) then s
      else
        let updatedTree :=
          match mode cb with
          | cut => removeFrom s (nodes s)
          | copy => nodes s
          end in
        let '(nodeToPaste, calls) :=
          match mode cb with
          | copy => deepClone (node cb) (uuidCalls s)
          | cut => (clearCutFlags (node cb), uuidCalls s)
          end in
        let updatedTree :=
          updateTree updatedTree (id cn) (appendChild nodeToPaste) in
        let recalculated := fst (recalculateLayout updatedTree 0 0) in
        handleCloseContextMenu
          (setClipboard None
             (setNodes recalculated (setUuidCalls calls s)))
  | _, _ => s
  end.

(* ---------------------------------------------------------------- *)
(** ** The rendered interface

    What the user can do to the component: right-click one of the
    rendered boxes ([renderNodes] draws [flattenTree(nodes)], each box
    with its own [onContextMenu]), pick an item of the context [Menu]
    while it is open, and use the [Modal] while it is open.  A
    [MenuItem] rendered with [disabled] does not deliver clicks. *)

Inductive Event : Type :=
| RightClick (k : nat) (clientX clientY : Z)
| MenuClose
| MenuCut
| MenuCopy
| MenuPaste
| MenuDelete
| MenuAddChild
| LabelChange (v : list N)
| ModalSubmit
| ModalClose.

(** [open={!!contextMenu}] *)
Definition menuOpen (s : State) : bool :=
  match contextMenu s with Some _ => true | None => false end.

(** [disabled={!clipboard}] *)
Definition pasteDisabled (s : State) : bool :=
  match clipboard s with Some _ => false | None => true end.

(** [disabled={!contextNode || contextNode.id === 'root' ||
    (contextNode.children && contextNode.children.length > 0)}] *)
Definition deleteDisabled (s : State) : bool :=
  match contextNode s with
  | None => true
  | Some cn =>
      String.eqb (id cn) "root" || (0 <? List.length (children cn))
  end.

Definition dispatch (s : State) (e : Event) : State :=
  match e with
  | RightClick k x y =>
      match nth_error (flattenTree (nodes s)) k with
      | Some n => handleRightClick n x y s
      | None => s
      end
  | MenuClose => if menuOpen s then handleCloseContextMenu s else s
  | MenuCut => if menuOpen s then handleCut s else s
  | MenuCopy => if menuOpen s then handleCopy s else s
  | MenuPaste =>
      if menuOpen s && negb (pasteDisabled s) then handlePaste s else s
  | MenuDelete =>
      if menuOpen s && negb (deleteDisabled s) then handleDelete s else s
  | MenuAddChild => if menuOpen s then handleAddChild s else s
  | LabelChange v => if modalOpen s then setNewLabel v s else s
  | ModalSubmit => if modalOpen s then handleModalSubmit s else s
  | ModalClose => if modalOpen s then setModalOpen false s else s
  end.

Definition run (s : State) (es : list Event) : State :=
  fold_left dispatch es s.

(** The states the component can be brought into. *)
Inductive Reachable : State -> Prop :=
| Reachable_initial : Reachable initialState
| Reachable_dispatch : forall s e, Reachable s -> Reachable (dispatch s e).

End Handlers.

(* ------------------------------------------------------------------ *)
(** ** The second variant of the editor ([src/unnamed/part_000])

    The repository holds a second copy of the component.  Its tree
    helpers are those above; it differs in the layout pass, in
    [handleCut], in [handlePaste] and in the menu, which never disables
    the delete item. *)

Module Part000.

(** The children are laid out from [row + 1]:
    [recalculateLayout(node.children, row + 1, col + 1)]. *)
Fixpoint layoutNode (c : nat) (n : NodeItem) (r : nat) {struct n}
  : NodeItem * nat :=
  match n with
  | mkNode ni l ch p cu _ _ =>
      let '(childrenWithLayout, nextRow) :=
        mapAccum (layoutNode (c + 1)) ch (r + 1) in
      (mkNode ni l childrenWithLayout p cu c r, Nat.max (r + 1) nextRow)
  end.

Definition recalculateLayout (tree : list NodeItem) (startRow c : nat)
  : list NodeItem * nat :=
  mapAccum (layoutNode c) tree startRow.

(** The updater [(n) => (n.isCut = true)]. *)
Definition setIsCut (n : NodeItem) : NodeItem :=
  mkNode (id n) (label n) (children n) (parentId n) (Some true)
         (col n) (row n).

(** [handleCut]: only the node itself is flagged, and the clipboard
    receives the node as it was right-clicked. *)
Definition handleCut (s : State) : State :=
  match contextNode s with
  | None => s
  | Some cn =>
      if String.eqb (id cn) "root" then s
      else
        handleCloseContextMenu
          (setNodes (updateTree (nodes s) (id cn) setIsCut)
             (setClipboard (Some (mkClipboard cut cn)) s))
  end.

Section Handlers.
Variable uuidv4 : nat -> string.

(** [handlePaste]: the node is inserted first
    ([n.children.push(pastedNode)]) and, in cut mode, [removeFrom]
    then runs over the tree that already holds the pasted node.

    What is modelled is what the handler hands to [setNodes] and
    [setClipboard], and the calls it makes to [uuidv4].  In the source
    the [push] writes into the [children] array of the matched node,
    which the shallow copy shares with the old tree and with the
    right-clicked object; this sharing is outside the model, which keeps
    nodes as values: the cell [contextNode] is returned as it was, and
    nothing below states anything about it. *)
Definition handlePaste (s : State) : State :=
  match contextNode s, clipboard s with
  | Some cn, Some cb =>
      if String.eqb (id cn) (id (node cb)) then s
      else
        let '(pastedNode, calls) :=
          match mode cb with
          | copy => deepClone uuidv4 (node cb) (uuidCalls s)
          | cut => (node cb, uuidCalls s)
          end in
        let updated :=
          updateTree (nodes s) (id cn) (appendChild pastedNode) in
        let nextTree :=
          match mode cb with
          | cut => pruneFrom (Some (id (node cb))) updated
          | copy => updated
          end in
        let recalculated := fst (recalculateLayout nextTree 0 0) in
        handleCloseContextMenu
          (setNodes recalculated
             (setClipboard None (setUuidCalls calls s)))
  | _, _ => s
  end.
End Handlers.

(** [handleDelete] as in [page.tsx], with this variant's layout. *)
Definition handleDelete (s : State) : State :=
  let cleaned := deleteFrom s (nodes s) in
  let recalculated := fst (recalculateLayout cleaned 0 0) in
  handleCloseContextMenu (setNodes recalculated s).

End Part000.

(* ------------------------------------------------------------------ *)
(** ** Vocabulary of the properties *)

(** The ids of a forest, in pre-order. *)
Definition ids (f : list NodeItem) : list string := map id (flattenTree f).

(** Ids are unique across the forest. *)
Definition uniqueIds (f : list NodeItem) : Prop := NoDup (ids f).

(** What a node is, apart from where the layout puts it: its own fields
    and the ids of its children, in order. *)
Definition view (n : NodeItem)
  : string * list N * option string * option bool * list string :=
  (id n, label n, parentId n, isCut n, map id (children n)).

Definition views (f : list NodeItem) := map view (flattenTree f).

Definition viewId
    (v : string * list N * option string * option bool * list string) : string :=
  fst (fst (fst (fst v))).

(** A node with every [col] and [row] of its subtree reset. *)
Fixpoint eraseLayout (n : NodeItem) : NodeItem :=
  match n with
  | mkNode i l ch p c _ _ => mkNode i l (map eraseLayout ch) p c 0 0
  end.

(** A node with every [isCut] of its subtree dropped. *)
Fixpoint eraseCut (n : NodeItem) : NodeItem :=
  match n with
  | mkNode i l ch p _ co ro => mkNode i l (map eraseCut ch) p None co ro
  end.

(** Shape and labels of a subtree. *)
Local Unset Elimination Schemes.

Inductive LabelTree : Type :=
| LabelNode (l : list N) (subtrees : list LabelTree).

Local Set Elimination Schemes.

Fixpoint shape (n : NodeItem) : LabelTree :=
  match n with
  | mkNode _ l ch _ _ _ _ => LabelNode l (map shape ch)
  end.

(** Number of leaves of a forest. *)
Fixpoint leavesOf (n : NodeItem) : nat :=
  match n with
  | mkNode _ _ ch _ _ _ _ =>
      match ch with
      | [] => 1
      | _ :: _ => list_sum (map leavesOf ch)
      end
  end.

Definition leaves (f : list NodeItem) : nat := list_sum (map leavesOf f).

(** Every node of the subtree of [a] lies on a row above every node of
    the subtree of [b], for [a] before [b] among the siblings [xs]. *)
Definition siblingsDisjoint (xs : list NodeItem) : Prop :=
  forall l1 a l2 b l3 x y,
    xs = l1 ++ a :: l2 ++ b :: l3 ->
    In x (walk a) -> In y (walk b) -> row x < row y.

(** The node found by following child indices from the top of the forest. *)
Fixpoint nodeAt (path : list nat) (f : list NodeItem) : option NodeItem :=
  match path with
  | [] => None
  | [k] => nth_error f k
  | k :: rest =>
      match nth_error f k with
      | Some n => nodeAt rest (children n)
      | None => None
      end
  end.

(** [parentId] agrees with the structure: each child names the node that
    holds it. *)
Definition parentIdConsistent (f : list NodeItem) : Prop :=
  forall p c, In p (flattenTree f) -> In c (children p) ->
              parentId c = Some (id p).

(** A label that is empty or made of white space only. *)
Definition blank (s : list N) : Prop := Forall (fun c => isWhiteSpace c = true) s.

(** Induction over forests: the property holds of a forest when it holds
    of the children of its first tree and of the rest. *)
Section forest_induction.
Variable P : list NodeItem -> Prop.
Hypothesis Hnil : P [].
Hypothesis Hcons : forall n rest, P (children n) -> P rest -> P (n :: rest).

Fixpoint children_forest_ind (n : NodeItem) : P (children n) :=
  match n with
  | mkNode _ _ ch _ _ _ _ =>
      (fix go (xs : list NodeItem) : P xs :=
         match xs with
         | [] => Hnil
         | x :: r => Hcons x (children_forest_ind x) (go r)
         end) ch
  end.

Definition forest_ind (f : list NodeItem) : P f :=
  (fix go (xs : list NodeItem) : P xs :=
     match xs with
     | [] => Hnil
     | x :: r => Hcons x (children_forest_ind x) (go r)
     end) f.
End forest_induction.

Definition isLeaf (n : NodeItem) : bool :=
  match children n with [] => true | _ :: _ => false end.

(** [Laid d c r r' f]: the forest [f] sits in column [c] and uses the rows
    from [r] up to, not including, [r']: each tree takes the next row for
    its root, lays its children out in column [c + 1] from [d] rows below
    the root, and leaves to the next tree the first row that neither its
    root nor its children use. *)
Inductive Laid (d : nat) : nat -> nat -> nat -> list NodeItem -> Prop :=
| Laid_nil : forall c r, Laid d c r r []
| Laid_cons : forall c r rc r' n rest,
    col n = c -> row n = r ->
    Laid d (c + 1) (r + d) rc (children n) ->
    Laid d c (Nat.max (r + 1) rc) r' rest ->
    Laid d c r r' (n :: rest).

(** Boolean test that the strings of a list are pairwise distinct. *)
Fixpoint distinctb (l : list string) : bool :=
  match l with
  | [] => true
  | x :: r => negb (existsb (String.eqb x) r) && distinctb r
  end.

(** The forest is one tree whose root is the node ['root'], in the first
    column and on the first row. *)
Definition rootOnTop (f : list NodeItem) : Prop :=
  exists r, f = [r] /\ id r = "root" /\ col r = 0 /\ row r = 0.

(** An id is ['root'] or one of the first [k] outputs of the generator. *)
Definition generated (uuidv4 : nat -> string) (k : nat) (i : string) : Prop :=
  i = "root" \/ exists j, j < k /\ i = uuidv4 j.

(** Every id that the state holds (in the forest, in the right-clicked
    node, in the clipboard) is ['root'] or was drawn from the generator
    by one of the calls made so far. *)
Definition idsGenerated (uuidv4 : nat -> string) (s : State) : Prop :=
  (forall i, In i (ids (nodes s)) -> generated uuidv4 (uuidCalls s) i) /\
  (forall cn, contextNode s = Some cn ->
              forall i, In i (ids [cn]) -> generated uuidv4 (uuidCalls s) i) /\
  (forall cb, clipboard s = Some cb ->
              forall i, In i (ids [node cb]) -> generated uuidv4 (uuidCalls s) i).

(** [S] is an earlier picture of a node of the forest: its ids are
    distinct and all of them are ids of the subtree of the node of the
    forest that has the id of [S]. *)
Definition subSnapshot (S : NodeItem) (F : list NodeItem) : Prop :=
  uniqueIds [S] /\
  exists M, In M (flattenTree F) /\ id M = id S /\
            forall i, In i (ids [S]) -> In i (ids [M]).

(** [S] was cut from the forest: its ids are distinct and those that the
    forest still holds lie in the subtree of the node that has the id of
    [S]. *)
Definition cutSnapshot (S : NodeItem) (F : list NodeItem) : Prop :=
  uniqueIds [S] /\
  forall i, In i (ids [S]) -> In i (ids F) ->
            exists M, In M (flattenTree F) /\ id M = id S /\ In i (ids [M]).

(** What the component keeps about ids: the forest has unique ids, the
    node behind an open menu is a picture of a node of the forest, and a
    node on the clipboard in cut mode was cut from the forest. *)
Definition uniqueState (s : State) : Prop :=
  uniqueIds (nodes s) /\
  (menuOpen s = true ->
   forall cn, contextNode s = Some cn -> subSnapshot cn (nodes s)) /\
  (forall cb, clipboard s = Some cb -> mode cb = cut ->
              cutSnapshot (node cb) (nodes s)).

(* ------------------------------------------------------------------ *)
(** ** Scenarios

    Concrete runs of the component, used to exercise the statements
    below.  The generator hands out the letters [a], [b], [c], ... *)

Definition letterUuid (k : nat) : string := String (ascii_of_nat (97 + k)) "".

Definition labelA : list N := [65%N].
Definition labelB : list N := [66%N].
Definition labelC : list N := [67%N].

(** Right-click the [k]-th box, choose "add child", type [l], submit. *)
Definition addChildAt (k : nat) (l : list N) : list Event :=
  [RightClick k 0 0; MenuAddChild; LabelChange l; ModalSubmit].

(** [root -> [a]] *)
Definition rootWithA : State :=
  run letterUuid initialState (addChildAt 0 labelA).

(** [root -> [a; b]] *)
Definition rootWithAB : State :=
  run letterUuid rootWithA (addChildAt 0 labelB).

(** [root -> [a -> [c]; b]] *)
Definition rootWithACB : State :=
  run letterUuid rootWithAB (addChildAt 1 labelC).

(** The [k]-th box of a state, as [renderNodes] draws them. *)
Definition box (s : State) (k : nat) : NodeItem :=
  nth k (flattenTree (nodes s))
      (mkNode "" [] [] None None 0 0).

(** Rows grow strictly from every node to each of its descendants. *)
Definition descendantsStrictlyBelow (f : list NodeItem) : Prop :=
  forall n m, In n (flattenTree f) -> In m (flattenTree (children n)) ->
              row n < row m.

(** The context menu opened on the root of [root -> [a -> [c]; b]]. *)
Definition menuOnRoot : State :=
  run letterUuid rootWithACB [RightClick 0 0 0].

(** The context menu opened on [a], which has the child [c]. *)
Definition menuOnA : State :=
  run letterUuid rootWithACB [RightClick 1 0 0].

(** [a] is cut and the menu is opened on [a] again. *)
Definition cutAMenuOnA : State :=
  run letterUuid menuOnA [MenuCut; RightClick 1 0 0].

(** The modal opened on [a], with a label typed in. *)
Definition modalOnA (l : list N) : State :=
  run letterUuid menuOnA [MenuAddChild; LabelChange l].

(** The modal is open on [c] while [c] is deleted through the menu: the
    target of the modal is no longer in the forest. *)
Definition modalOnDeletedC : State :=
  run letterUuid rootWithACB
      [RightClick 2 0 0; MenuAddChild; RightClick 2 0 0; MenuDelete;
       LabelChange labelB].

(** The other variant: [a] is cut and the menu is opened on [b]. *)
Definition part000CutAMenuOnB : State :=
  handleRightClick (box menuOnA 3) 0 0 (Part000.handleCut menuOnA).

(** A generator that never repeats and never returns ['root']: the [k]-th
    id is [n] followed by [k] strokes. *)
Fixpoint tally (k : nat) : string :=
  match k with
  | 0 => ""
  | S k' => String "i"%char (tally k')
  end.

Definition tallyUuid (k : nat) : string := String "n"%char (tally k).

(** Two children under the root, the first copied under the second. *)
Definition tallyRun : State :=
  run tallyUuid initialState
      (addChildAt 0 labelA ++ addChildAt 0 labelB ++
       [RightClick 1 0 0; MenuCopy; RightClick 2 0 0; MenuPaste]).

(* ------------------------------------------------------------------ *)
(** * Basic facts about the helpers *)

Unset Implicit Arguments.

Arguments flattenTree : simpl never.
Arguments ids : simpl never.
Arguments views : simpl never.

Lemma distinctb_NoDup (l : list string) : distinctb l = true -> NoDup l.
Proof.
  induction l as [|x r IH]; simpl; intros H; [constructor|].
  apply andb_true_iff in H. destruct H as [H1 H2].
  constructor; [|now apply IH].
  intros Hin. apply negb_true_iff in H1.
  assert (E : existsb (String.eqb x) r = true).
  { apply existsb_exists. exists x. split; [exact Hin|apply String.eqb_refl]. }
  congruence.
Qed.

(** Closed goals about concrete lists of ids. *)
Ltac distinct_strings :=
  apply distinctb_NoDup; vm_compute; reflexivity.

(** Both sides are the same concatenation, bracketed differently. *)
Ltac same_app :=
  simpl; repeat (rewrite <- app_assoc; simpl); reflexivity.

Lemma node_eta (n : NodeItem) :
  n = mkNode (id n) (label n) (children n) (parentId n) (isCut n) (col n) (row n).
Proof. destruct n; reflexivity. Qed.

Lemma walk_eq (n : NodeItem) : walk n = n :: flattenTree (children n).
Proof. destruct n; reflexivity. Qed.

Lemma flattenTree_cons (n : NodeItem) (f : list NodeItem) :
  flattenTree (n :: f) = n :: flattenTree (children n) ++ flattenTree f.
Proof. unfold flattenTree at 1; simpl. now rewrite walk_eq. Qed.

Lemma flattenTree_app (f g : list NodeItem) :
  flattenTree (f ++ g) = flattenTree f ++ flattenTree g.
Proof. apply flat_map_app. Qed.

Lemma flattenTree_single (n : NodeItem) : flattenTree [n] = walk n.
Proof. unfold flattenTree; simpl. apply app_nil_r. Qed.

Lemma In_walk_self (n : NodeItem) : In n (walk n).
Proof. rewrite walk_eq; now left. Qed.

Lemma In_flattenTree_top (n : NodeItem) (f : list NodeItem) :
  In n f -> In n (flattenTree f).
Proof.
  intros H. apply in_flat_map. exists n. split; [assumption|apply In_walk_self].
Qed.

(** Descendants of a node of the forest are nodes of the forest. *)
Lemma In_flattenTree_children (f : list NodeItem) :
  forall n m, In n (flattenTree f) -> In m (flattenTree (children n)) ->
              In m (flattenTree f).
Proof.
  induction f as [|a rest IHc IHr] using forest_ind; intros n m Hn Hm.
  - contradiction.
  - rewrite flattenTree_cons in *. simpl in Hn. destruct Hn as [<-|Hn].
    + right. apply in_or_app. now left.
    + right. apply in_or_app. apply in_app_or in Hn. destruct Hn as [Hn|Hn].
      * left. eapply IHc; eassumption.
      * right. eapply IHr; eassumption.
Qed.

Lemma In_flattenTree_child (f : list NodeItem) (n m : NodeItem) :
  In n (flattenTree f) -> In m (children n) -> In m (flattenTree f).
Proof.
  intros Hn Hm. eapply In_flattenTree_children; [exact Hn|].
  now apply In_flattenTree_top.
Qed.

Lemma ids_cons (n : NodeItem) (f : list NodeItem) :
  ids (n :: f) = id n :: ids (children n) ++ ids f.
Proof. unfold ids. rewrite flattenTree_cons. simpl. now rewrite map_app. Qed.

Lemma ids_app (f g : list NodeItem) : ids (f ++ g) = ids f ++ ids g.
Proof. unfold ids. now rewrite flattenTree_app, map_app. Qed.

Lemma views_cons (n : NodeItem) (f : list NodeItem) :
  views (n :: f) = view n :: views (children n) ++ views f.
Proof. unfold views. rewrite flattenTree_cons. simpl. now rewrite map_app. Qed.

Lemma views_app (f g : list NodeItem) : views (f ++ g) = views f ++ views g.
Proof. unfold views. now rewrite flattenTree_app, map_app. Qed.

Lemma In_ids (f : list NodeItem) (n : NodeItem) :
  In n (flattenTree f) -> In (id n) (ids f).
Proof. intros H. unfold ids. now apply in_map. Qed.

(** *** The recursive helpers, one level unfolded *)

Lemma markCutNodes_eq (n : NodeItem) :
  markCutNodes n =
  mkNode (id n) (label n) (map markCutNodes (children n)) (parentId n)
         (Some true) (col n) (row n).
Proof. destruct n; reflexivity. Qed.

Lemma clearCutFlags_eq (n : NodeItem) :
  clearCutFlags n =
  mkNode (id n) (label n) (map clearCutFlags (children n)) (parentId n)
         (Some false) (col n) (row n).
Proof. destruct n; reflexivity. Qed.

Lemma eraseLayout_eq (n : NodeItem) :
  eraseLayout n =
  mkNode (id n) (label n) (map eraseLayout (children n)) (parentId n)
         (isCut n) 0 0.
Proof. destruct n; reflexivity. Qed.

Lemma eraseCut_eq (n : NodeItem) :
  eraseCut n =
  mkNode (id n) (label n) (map eraseCut (children n)) (parentId n)
         None (col n) (row n).
Proof. destruct n; reflexivity. Qed.

(** The test [node.children.length] only saves a traversal of an empty
    list: the callback of [updateTree] rebuilds every node that does not
    match. *)
Lemma updateTree_node_eq (i : string) (u : NodeItem -> NodeItem) (n : NodeItem) :
  updateTree_node i u n =
  if String.eqb (id n) i then u n
  else mkNode (id n) (label n) (updateTree (children n) i u) (parentId n)
              (isCut n) (col n) (row n).
Proof.
  destruct n as [ni l ch p c co ro]; simpl.
  destruct (String.eqb ni i); [reflexivity|].
  destruct ch; reflexivity.
Qed.

Lemma updateTree_cons (n : NodeItem) (f : list NodeItem) i u :
  updateTree (n :: f) i u = updateTree_node i u n :: updateTree f i u.
Proof. reflexivity. Qed.

Lemma replaceNodeInTree_node_eq (i : string) (x n : NodeItem) :
  replaceNodeInTree_node i x n =
  if String.eqb (id n) i then x
  else mkNode (id n) (label n) (replaceNodeInTree (children n) i x) (parentId n)
              (isCut n) (col n) (row n).
Proof.
  destruct n as [ni l ch p c co ro]; simpl.
  destruct (String.eqb ni i); [reflexivity|].
  destruct ch; reflexivity.
Qed.

(** [replaceNodeInTree] is [updateTree] with a constant updater. *)
Lemma replaceNodeInTree_updateTree (f : list NodeItem) (i : string) (x : NodeItem) :
  replaceNodeInTree f i x = updateTree f i (fun _ => x).
Proof.
  induction f as [|n rest IHc IHr] using forest_ind; [reflexivity|].
  unfold replaceNodeInTree, updateTree in *. simpl. f_equal; [|exact IHr].
  rewrite replaceNodeInTree_node_eq, updateTree_node_eq.
  unfold replaceNodeInTree, updateTree. now rewrite IHc.
Qed.

Lemma prune_node_eq (t : option string) (n : NodeItem) :
  prune_node t n =
  mkNode (id n) (label n) (pruneFrom t (children n)) (parentId n)
         (isCut n) (col n) (row n).
Proof.
  destruct n as [ni l ch p c co ro]; simpl. f_equal.
  unfold pruneFrom. induction ch as [|x r IH]; [reflexivity|].
  simpl. destruct (keeps t x); simpl; now rewrite IH.
Qed.

Lemma pruneFrom_cons (t : option string) (n : NodeItem) (f : list NodeItem) :
  pruneFrom t (n :: f) =
  if keeps t n then prune_node t n :: pruneFrom t f else pruneFrom t f.
Proof. unfold pruneFrom; simpl. now destruct (keeps t n). Qed.

Lemma mapAccum_cons (A B S : Type) (body : A -> S -> B * S) x xs s :
  mapAccum body (x :: xs) s =
  (fst (body x s) :: fst (mapAccum body xs (snd (body x s))),
   snd (mapAccum body xs (snd (body x s)))).
Proof.
  simpl. destruct (body x s) as [y s']. simpl.
  now destruct (mapAccum body xs s').
Qed.

Lemma layoutNode_eq (c : nat) (n : NodeItem) (r : nat) :
  layoutNode c n r =
  (mkNode (id n) (label n) (fst (recalculateLayout (children n) r (c + 1)))
          (parentId n) (isCut n) c r,
   Nat.max (r + 1) (snd (recalculateLayout (children n) r (c + 1)))).
Proof.
  destruct n as [ni l ch p cu co ro]; simpl. unfold recalculateLayout.
  now destruct (mapAccum (layoutNode (c + 1)) ch r).
Qed.

Lemma recalculateLayout_cons (n : NodeItem) (f : list NodeItem) (r c : nat) :
  recalculateLayout (n :: f) r c =
  (fst (layoutNode c n r)
     :: fst (recalculateLayout f (snd (layoutNode c n r)) c),
   snd (recalculateLayout f (snd (layoutNode c n r)) c)).
Proof. apply mapAccum_cons. Qed.

Lemma deepClone_eq (uuidv4 : nat -> string) (n : NodeItem) (k : nat) :
  deepClone uuidv4 n k =
  (mkNode (uuidv4 k) (label n)
          (fst (mapAccum (deepClone uuidv4) (children n) (S k)))
          (parentId n) (Some false) 0 0,
   snd (mapAccum (deepClone uuidv4) (children n) (S k))).
Proof.
  destruct n as [ni l ch p cu co ro]; simpl.
  now destruct (mapAccum (deepClone uuidv4) ch (S k)).
Qed.

(* ------------------------------------------------------------------ *)
(** * The layout pass *)

(** The pass only writes [col] and [row]. *)
Lemma eraseLayout_recalculateLayout (f : list NodeItem) :
  forall r c, map eraseLayout (fst (recalculateLayout f r c)) = map eraseLayout f.
Proof.
  induction f as [|n rest IHc IHr] using forest_ind; intros r c.
  - reflexivity.
  - rewrite recalculateLayout_cons. simpl. f_equal; [|apply IHr].
    rewrite layoutNode_eq. simpl.
    rewrite (eraseLayout_eq n), IHc. reflexivity.
Qed.

Lemma eraseLayout_Part000_recalculateLayout (f : list NodeItem) :
  forall r c,
    map eraseLayout (fst (Part000.recalculateLayout f r c)) = map eraseLayout f.
Proof.
  induction f as [|n rest IHc IHr] using forest_ind; intros r c.
  - reflexivity.
  - unfold Part000.recalculateLayout in *. rewrite mapAccum_cons. simpl.
    f_equal; [|apply IHr].
    destruct n as [ni l ch p cu co ro]. simpl in *.
    specialize (IHc (r + 1) (c + 1)).
    destruct (mapAccum (Part000.layoutNode (c + 1)) ch (r + 1)) as [cs nx].
    simpl in *. now rewrite IHc.
Qed.

Lemma views_eraseLayout (f : list NodeItem) :
  views (map eraseLayout f) = views f.
Proof.
  induction f as [|n rest IHc IHr] using forest_ind; [reflexivity|].
  simpl map. rewrite !views_cons, IHr. f_equal.
  - rewrite eraseLayout_eq. unfold view; simpl.
    rewrite map_map. f_equal. apply map_ext. intros a.
    now rewrite eraseLayout_eq.
  - f_equal. rewrite eraseLayout_eq. simpl. exact IHc.
Qed.

Lemma views_eq_of_eraseLayout (f g : list NodeItem) :
  map eraseLayout f = map eraseLayout g -> views f = views g.
Proof.
  intros H. rewrite <- (views_eraseLayout f), <- (views_eraseLayout g).
  now rewrite H.
Qed.

Lemma views_recalculateLayout (f : list NodeItem) (r c : nat) :
  views (fst (recalculateLayout f r c)) = views f.
Proof. apply views_eq_of_eraseLayout, eraseLayout_recalculateLayout. Qed.

Lemma ids_of_views (f : list NodeItem) : ids f = map viewId (views f).
Proof. unfold ids, views. rewrite map_map. reflexivity. Qed.

Lemma ids_recalculateLayout (f : list NodeItem) (r c : nat) :
  ids (fst (recalculateLayout f r c)) = ids f.
Proof. now rewrite !ids_of_views, views_recalculateLayout. Qed.

(** The output of either pass is laid out in the sense of [Laid]. *)
Lemma recalculateLayout_Laid (f : list NodeItem) :
  forall r c,
    Laid 0 c r (snd (recalculateLayout f r c)) (fst (recalculateLayout f r c)).
Proof.
  induction f as [|n rest IHc IHr] using forest_ind; intros r c.
  - constructor.
  - rewrite recalculateLayout_cons. cbn [fst snd].
    rewrite layoutNode_eq. cbn [fst snd].
    eapply Laid_cons; cbn [col row children]; try reflexivity.
    + rewrite Nat.add_0_r. apply IHc.
    + apply IHr.
Qed.

Lemma Part000_layoutNode_eq (c : nat) (n : NodeItem) (r : nat) :
  Part000.layoutNode c n r =
  (mkNode (id n) (label n)
          (fst (Part000.recalculateLayout (children n) (r + 1) (c + 1)))
          (parentId n) (isCut n) c r,
   Nat.max (r + 1) (snd (Part000.recalculateLayout (children n) (r + 1) (c + 1)))).
Proof.
  destruct n as [ni l ch p cu co ro]; simpl. unfold Part000.recalculateLayout.
  now destruct (mapAccum (Part000.layoutNode (c + 1)) ch (r + 1)).
Qed.

Lemma Part000_recalculateLayout_Laid (f : list NodeItem) :
  forall r c,
    Laid 1 c r (snd (Part000.recalculateLayout f r c))
         (fst (Part000.recalculateLayout f r c)).
Proof.
  induction f as [|n rest IHc IHr] using forest_ind; intros r c.
  - constructor.
  - unfold Part000.recalculateLayout. rewrite mapAccum_cons. cbn [fst snd].
    rewrite Part000_layoutNode_eq. cbn [fst snd].
    eapply Laid_cons; cbn [col row children]; try reflexivity.
    + apply IHc.
    + apply IHr.
Qed.

(** *** Consequences of being laid out *)

Lemma Laid_bounds d c r r' f :
  Laid d c r r' f ->
  r <= r' /\ Forall (fun m => r <= row m /\ row m < r') (flattenTree f).
Proof.
  induction 1 as [c r|c r rc r' n rest Hc Hr Hch [IH1 IH2] Hrest [IH3 IH4]].
  - split; [lia|constructor].
  - split; [lia|].
    rewrite flattenTree_cons. constructor; [lia|].
    apply Forall_app. split.
    + eapply Forall_impl; [|exact IH2]. simpl. intros a [Ha Hb]. lia.
    + eapply Forall_impl; [|exact IH4]. simpl. intros a [Ha Hb]. lia.
Qed.

Lemma Laid_app_inv d c r r' l1 l2 :
  Laid d c r r' (l1 ++ l2) ->
  exists rm, Laid d c r rm l1 /\ Laid d c rm r' l2.
Proof.
  revert r. induction l1 as [|a l1 IH]; intros r H.
  - exists r. split; [constructor|exact H].
  - simpl in H. inversion H as [|c0 r0 rc r0' n rest Hc Hr Hch Hrest]; subst.
    destruct (IH _ Hrest) as [rm [H1 H2]].
    exists rm. split; [|exact H2].
    eapply Laid_cons; eauto.
Qed.

(** Every node of a laid-out forest has its children laid out from [d]
    rows below it. *)
Lemma Laid_children d c r r' f :
  Laid d c r r' f ->
  forall n, In n (flattenTree f) ->
            exists c1 r1, Laid d c1 (row n + d) r1 (children n).
Proof.
  induction 1 as [c r|c r rc r' n rest Hc Hr Hch IH1 Hrest IH2]; intros m Hm.
  - contradiction.
  - rewrite flattenTree_cons in Hm. simpl in Hm.
    destruct Hm as [<-|Hm].
    + exists (col n + 1), rc. subst. exact Hch.
    + apply in_app_or in Hm. destruct Hm as [Hm|Hm]; eauto.
Qed.

Lemma Laid_descendants d c r r' f :
  Laid d c r r' f ->
  forall n m, In n (flattenTree f) -> In m (flattenTree (children n)) ->
              row n + d <= row m.
Proof.
  intros HL n m Hn Hm.
  destruct (Laid_children _ _ _ _ _ HL n Hn) as [c1 [r1 Hch]].
  apply Laid_bounds in Hch. destruct Hch as [_ Hall].
  rewrite Forall_forall in Hall. apply Hall in Hm. lia.
Qed.

Lemma Laid_walk_bounds d c r r' n rest :
  Laid d c r r' (n :: rest) ->
  exists rn, r < rn /\ Laid d c rn r' rest /\
             Forall (fun m => r <= row m /\ row m < rn) (walk n).
Proof.
  intros H. inversion H as [|c0 r0 rc r0' n0 rest0 Hc Hr Hch Hrest]; subst.
  exists (Nat.max (row n + 1) rc). split; [lia|]. split; [exact Hrest|].
  rewrite walk_eq. constructor; [lia|].
  apply Laid_bounds in Hch. destruct Hch as [_ Hall].
  eapply Forall_impl; [|exact Hall]. simpl. intros a [Ha Hb]. lia.
Qed.

Lemma Laid_siblingsDisjoint d c r r' f :
  Laid d c r r' f -> siblingsDisjoint f.
Proof.
  intros HL l1 a l2 b l3 x y Heq Hx Hy. subst f.
  apply Laid_app_inv in HL. destruct HL as [r1 [_ HL]].
  apply Laid_walk_bounds in HL. destruct HL as [ra [_ [HL Ha]]].
  apply Laid_app_inv in HL. destruct HL as [r2 [HL2 HL]].
  apply Laid_bounds in HL2. destruct HL2 as [Hle _].
  apply Laid_walk_bounds in HL. destruct HL as [rb [_ [_ Hb]]].
  rewrite Forall_forall in Ha, Hb.
  apply Ha in Hx. apply Hb in Hy. lia.
Qed.

Lemma Laid_siblingsDisjoint_children d c r r' f :
  Laid d c r r' f ->
  forall n, In n (flattenTree f) -> siblingsDisjoint (children n).
Proof.
  intros HL n Hn. destruct (Laid_children _ _ _ _ _ HL n Hn) as [c1 [r1 Hch]].
  eapply Laid_siblingsDisjoint; eassumption.
Qed.

(** Columns: a child sits one column after its parent. *)
Lemma Laid_top_col d c r r' f :
  Laid d c r r' f -> Forall (fun n => col n = c) f.
Proof. induction 1; constructor; assumption. Qed.

Lemma Laid_child_col d c r r' f :
  Laid d c r r' f ->
  forall n m, In n (flattenTree f) -> In m (children n) -> col m = col n + 1.
Proof.
  induction 1 as [c r|c r rc r' n rest Hc Hr Hch IH1 Hrest IH2]; intros a m Ha Hm.
  - contradiction.
  - rewrite flattenTree_cons in Ha. simpl in Ha.
    destruct Ha as [<-|Ha].
    + apply Laid_top_col in Hch. rewrite Forall_forall in Hch.
      rewrite (Hch _ Hm). lia.
    + apply in_app_or in Ha. destruct Ha as [Ha|Ha]; eauto.
Qed.

(** *** Row counting: leaves in [page.tsx], nodes in the other variant *)

Lemma leaves_cons (n : NodeItem) (f : list NodeItem) :
  leaves (n :: f) =
  (if isLeaf n then 1 else leaves (children n)) + leaves f.
Proof. destruct n as [ni l [|x ch] p cu co ro]; reflexivity. Qed.

Lemma leaves_pos (f : list NodeItem) : f <> [] -> 1 <= leaves f.
Proof.
  induction f as [|n rest IHc IHr] using forest_ind; intros H.
  - congruence.
  - rewrite leaves_cons. unfold isLeaf.
    destruct (children n) as [|x ch]; [lia|].
    assert (1 <= leaves (x :: ch)) by (apply IHc; discriminate). lia.
Qed.

Lemma leaves_eraseLayout (f : list NodeItem) :
  leaves (map eraseLayout f) = leaves f.
Proof.
  induction f as [|n rest IHc IHr] using forest_ind; [reflexivity|].
  simpl map. rewrite !leaves_cons, IHr. f_equal.
  rewrite eraseLayout_eq. unfold isLeaf. cbn [children].
  destruct (children n) as [|x ch]; [reflexivity|].
  simpl map in *. now rewrite IHc.
Qed.

Lemma Laid0_next c r r' f : Laid 0 c r r' f -> r' = r + leaves f.
Proof.
  induction 1 as [c r|c r rc r' n rest Hc Hr Hch IH1 Hrest IH2].
  - unfold leaves; simpl; lia.
  - rewrite leaves_cons. unfold isLeaf.
    destruct (children n) as [|x ch] eqn:E.
    + unfold leaves in IH1; simpl in IH1. lia.
    + assert (1 <= leaves (x :: ch)) by (apply leaves_pos; discriminate). lia.
Qed.

Lemma Laid0_leaf_rows c r r' f :
  Laid 0 c r r' f ->
  map row (filter isLeaf (flattenTree f)) = seq r (leaves f).
Proof.
  induction 1 as [c r|c r rc r' n rest Hc Hr Hch IH1 Hrest IH2].
  - reflexivity.
  - rewrite flattenTree_cons, leaves_cons. simpl filter.
    pose proof (Laid0_next _ _ _ _ Hch) as Hrc.
    destruct (children n) as [|x ch] eqn:E.
    + assert (HL : isLeaf n = true) by (unfold isLeaf; now rewrite E).
      rewrite HL. unfold leaves in Hrc; simpl in Hrc.
      replace (Nat.max (r + 1) rc) with (S r) in IH2 by lia.
      simpl. now rewrite IH2, Hr.
    + assert (HL : isLeaf n = false) by (unfold isLeaf; now rewrite E).
      rewrite HL.
      assert (1 <= leaves (x :: ch)) by (apply leaves_pos; discriminate).
      replace (Nat.max (r + 1) rc) with (r + leaves (x :: ch)) in IH2 by lia.
      rewrite filter_app, map_app, IH1, IH2, Nat.add_0_r.
      now rewrite <- seq_app.
Qed.

Lemma Laid0_first_child c r r' f :
  Laid 0 c r r' f ->
  forall n x rest, In n (flattenTree f) -> children n = x :: rest ->
    row x = row n /\ Forall (fun m => row n < row m) (flattenTree rest).
Proof.
  intros HL n x rest Hn E.
  destruct (Laid_children _ _ _ _ _ HL n Hn) as [c1 [r1 Hch]].
  rewrite E, Nat.add_0_r in Hch.
  inversion Hch as [|c0 r0 rc r0' n0 rest0 Hc Hr Hx Hrest]; subst.
  split; [assumption|].
  apply Laid_bounds in Hrest. destruct Hrest as [_ Hall].
  eapply Forall_impl; [|exact Hall]. simpl. intros a [Ha Hb]. lia.
Qed.

Lemma Laid1_preorder c r r' f :
  Laid 1 c r r' f ->
  map row (flattenTree f) = seq r (List.length (flattenTree f)) /\
  r' = r + List.length (flattenTree f).
Proof.
  induction 1 as [c r|c r rc r' n rest Hc Hr Hch [IH1 IH1'] Hrest [IH2 IH2']].
  - split; [reflexivity|simpl; lia].
  - rewrite flattenTree_cons. simpl List.length. rewrite length_app.
    replace (Nat.max (r + 1) rc)
      with (S r + List.length (flattenTree (children n))) in * by lia.
    split; [|lia].
    simpl. rewrite map_app, IH1, IH2, Hr. f_equal.
    rewrite seq_app. f_equal. f_equal. lia.
Qed.

(* ------------------------------------------------------------------ *)
(** * Forests with unique ids *)

Lemma NoDup_app_inv (A : Type) (l1 l2 : list A) :
  NoDup (l1 ++ l2) ->
  NoDup l1 /\ NoDup l2 /\ (forall a, In a l1 -> ~ In a l2).
Proof.
  induction l1 as [|x l1 IH]; simpl; intros H.
  - repeat split; [constructor|assumption|intros a []].
  - inversion H as [|y l Hx Hnd]; subst.
    destruct (IH Hnd) as [H1 [H2 H3]]. repeat split.
    + constructor; [|assumption]. intros Hin. apply Hx, in_or_app. now left.
    + assumption.
    + intros b [<-|Hb] Hin.
      * apply Hx, in_or_app. now right.
      * eapply H3; eassumption.
Qed.

Lemma uniqueIds_cons_inv (n : NodeItem) (f : list NodeItem) :
  uniqueIds (n :: f) ->
  ~ In (id n) (ids (children n)) /\ ~ In (id n) (ids f) /\
  uniqueIds (children n) /\ uniqueIds f /\
  (forall i, In i (ids (children n)) -> ~ In i (ids f)).
Proof.
  unfold uniqueIds. rewrite ids_cons. intros H.
  inversion H as [|x l Hx Hnd]; subst.
  destruct (NoDup_app_inv _ _ _ Hnd) as [H1 [H2 H3]].
  repeat split; try assumption.
  - intros Hin. apply Hx, in_or_app. now left.
  - intros Hin. apply Hx, in_or_app. now right.
Qed.

Lemma ids_single (n : NodeItem) : ids [n] = id n :: ids (children n).
Proof. rewrite ids_cons. unfold ids at 2; simpl. now rewrite app_nil_r. Qed.


Lemma uniqueIds_children (n : NodeItem) :
  uniqueIds [n] -> ~ In (id n) (ids (children n)) /\ uniqueIds (children n).
Proof. intros H. apply uniqueIds_cons_inv in H. tauto. Qed.

(** In a list without repeated ids, a node is determined by its id. *)
Lemma NoDup_map_In_eq (A B : Type) (g : A -> B) (l : list A) (a b : A) :
  NoDup (map g l) -> In a l -> In b l -> g a = g b -> a = b.
Proof.
  induction l as [|x l IH]; simpl; intros Hnd Ha Hb E; [contradiction|].
  inversion Hnd as [|y l' Hx Hnd']; subst.
  destruct Ha as [<-|Ha], Hb as [<-|Hb].
  - reflexivity.
  - exfalso. apply Hx. rewrite E. now apply in_map.
  - exfalso. apply Hx. rewrite <- E. now apply in_map.
  - now apply IH.
Qed.

Lemma uniqueIds_eq (f : list NodeItem) (a b : NodeItem) :
  uniqueIds f -> In a (flattenTree f) -> In b (flattenTree f) ->
  id a = id b -> a = b.
Proof. apply NoDup_map_In_eq. Qed.

(** The subtree of a node of the forest is a segment of the traversal. *)
Lemma flattenTree_segment (f : list NodeItem) :
  forall n, In n (flattenTree f) ->
            exists pre post, flattenTree f = pre ++ walk n ++ post.
Proof.
  induction f as [|a rest IHc IHr] using forest_ind; intros n Hn.
  - contradiction.
  - rewrite flattenTree_cons in Hn. simpl in Hn.
    destruct Hn as [<-|Hn].
    + exists [], (flattenTree rest).
      rewrite flattenTree_cons, walk_eq. reflexivity.
    + apply in_app_or in Hn. destruct Hn as [Hn|Hn].
      * destruct (IHc n Hn) as [pre [post E]].
        exists (a :: pre), (post ++ flattenTree rest).
        rewrite flattenTree_cons, E. same_app.
      * destruct (IHr n Hn) as [pre [post E]].
        exists (a :: flattenTree (children a) ++ pre), post.
        rewrite flattenTree_cons, E. same_app.
Qed.

Lemma uniqueIds_subtree (f : list NodeItem) (n : NodeItem) :
  uniqueIds f -> In n (flattenTree f) -> uniqueIds [n].
Proof.
  intros Hu Hn. destruct (flattenTree_segment f n Hn) as [pre [post E]].
  unfold uniqueIds, ids in *. rewrite E, !map_app in Hu.
  apply NoDup_app_remove_l, NoDup_app_remove_r in Hu.
  now rewrite flattenTree_single.
Qed.

(** *** [updateTree] *)

Lemma updateTree_absent (f : list NodeItem) (i : string) u :
  ~ In i (ids f) -> updateTree f i u = f.
Proof.
  induction f as [|n rest IHc IHr] using forest_ind; intros H.
  - reflexivity.
  - rewrite ids_cons in H. rewrite updateTree_cons, updateTree_node_eq.
    destruct (String.eqb_spec (id n) i) as [E|E].
    + exfalso. apply H. now left.
    + rewrite IHc, IHr.
      * now rewrite <- node_eta.
      * intros Hin. apply H. right. apply in_or_app. now right.
      * intros Hin. apply H. right. apply in_or_app. now left.
Qed.

Lemma id_updateTree_node (i : string) u (n : NodeItem) :
  (forall m, id (u m) = id m) -> id (updateTree_node i u n) = id n.
Proof.
  intros Hu. rewrite updateTree_node_eq.
  destruct (String.eqb (id n) i); [apply Hu|reflexivity].
Qed.

Lemma map_id_updateTree (f : list NodeItem) (i : string) u :
  (forall m, id (u m) = id m) -> map id (updateTree f i u) = map id f.
Proof.
  intros Hu. unfold updateTree. rewrite map_map.
  apply map_ext. intros n. now apply id_updateTree_node.
Qed.

(** Appending a child under the node with id [i], seen on the traversal:
    the node gains the child at the end of its children, the subtree of
    the child is inserted after the node's former descendants, and
    nothing else moves. *)
Lemma updateTree_appendChild_views (c : NodeItem) (f : list NodeItem) :
  forall i, uniqueIds f -> In i (ids f) ->
    exists T pre post,
      In T (flattenTree f) /\ id T = i /\
      views f = pre ++ view T :: views (children T) ++ post /\
      views (updateTree f i (appendChild c))
      = pre ++ view (appendChild c T) :: views (children T) ++ views [c] ++ post /\
      In (appendChild c T) (flattenTree (updateTree f i (appendChild c))).
Proof.
  induction f as [|n rest IHc IHr] using forest_ind; intros i Hu Hi.
  - contradiction.
  - destruct (uniqueIds_cons_inv _ _ Hu) as [Hn1 [Hn2 [Huc [Hur Hdisj]]]].
    rewrite ids_cons in Hi.
    rewrite updateTree_cons, updateTree_node_eq.
    destruct (String.eqb_spec (id n) i) as [E|E].
    + (* the first tree is the target *)
      subst i. exists n, [], (views rest).
      rewrite (@updateTree_absent rest _ _ Hn2).
      repeat split.
      * rewrite flattenTree_cons. now left.
      * now rewrite views_cons.
      * rewrite views_cons. cbn [children appendChild app].
        rewrite views_app. same_app.
      * rewrite flattenTree_cons. now left.
    + destruct Hi as [Hi|Hi]; [congruence|].
      apply in_app_or in Hi. destruct Hi as [Hi|Hi].
      * (* the target is below the first tree *)
        destruct (IHc i Huc Hi) as [T [pre [post [HT [HiT [Hv [Hv' HT']]]]]]].
        rewrite (@updateTree_absent rest i _ (Hdisj i Hi)).
        exists T, (view n :: pre), (post ++ views rest).
        repeat split.
        -- rewrite flattenTree_cons. right. apply in_or_app. now left.
        -- assumption.
        -- rewrite views_cons, Hv. same_app.
        -- rewrite views_cons. cbn [children]. rewrite Hv'.
           unfold view at 1. cbn [id label parentId isCut children].
           rewrite map_id_updateTree by reflexivity.
           same_app.
        -- rewrite flattenTree_cons. right. apply in_or_app. now left.
      * (* the target is in a later tree *)
        assert (Hc : ~ In i (ids (children n))).
        { intros Hin. exact (Hdisj i Hin Hi). }
        rewrite (@updateTree_absent (children n) i _ Hc), <- node_eta.
        destruct (IHr i Hur Hi) as [T [pre [post [HT [HiT [Hv [Hv' HT']]]]]]].
        exists T, (view n :: views (children n) ++ pre), post.
        repeat split.
        -- rewrite flattenTree_cons. right. apply in_or_app. now right.
        -- assumption.
        -- rewrite views_cons, Hv. same_app.
        -- rewrite views_cons, Hv'. same_app.
        -- rewrite flattenTree_cons. right. apply in_or_app. now right.
Qed.

(** A subtree that does not hold the target survives the update. *)
Lemma updateTree_appendChild_keeps (c : NodeItem) (f : list NodeItem) :
  forall i n, In n (flattenTree f) -> ~ In i (ids [n]) ->
              In n (flattenTree (updateTree f i (appendChild c))).
Proof.
  induction f as [|a rest IHc IHr] using forest_ind; intros i n Hn Hi.
  - contradiction.
  - rewrite updateTree_cons, flattenTree_cons, updateTree_node_eq.
    rewrite flattenTree_cons in Hn. simpl in Hn.
    destruct Hn as [<-|Hn].
    + rewrite ids_single in Hi.
      destruct (String.eqb_spec (id a) i) as [E|E].
      * exfalso. apply Hi. now left.
      * rewrite updateTree_absent.
        -- rewrite <- node_eta. now left.
        -- intros Hin. apply Hi. now right.
    + right. apply in_or_app. apply in_app_or in Hn.
      destruct Hn as [Hn|Hn]; [left|right; now apply IHr].
      destruct (String.eqb_spec (id a) i) as [E|E].
      * cbn [appendChild children]. rewrite flattenTree_app.
        apply in_or_app. now left.
      * cbn [children]. now apply IHc.
Qed.

(** *** [removeFrom] and [deleteFrom] *)

Lemma keeps_Some (i : string) (n : NodeItem) :
  keeps (Some i) n = negb (String.eqb (id n) i).
Proof. reflexivity. Qed.

Lemma pruneFrom_absent (f : list NodeItem) (i : string) :
  ~ In i (ids f) -> pruneFrom (Some i) f = f.
Proof.
  induction f as [|n rest IHc IHr] using forest_ind; intros H.
  - reflexivity.
  - rewrite ids_cons in H. rewrite pruneFrom_cons, keeps_Some.
    destruct (String.eqb_spec (id n) i) as [E|E].
    + exfalso. apply H. now left.
    + simpl. rewrite prune_node_eq, IHc, IHr.
      * now rewrite <- node_eta.
      * intros Hin. apply H. right. apply in_or_app. now right.
      * intros Hin. apply H. right. apply in_or_app. now left.
Qed.

(** No node with the pruned id is left, at any depth. *)
Lemma pruneFrom_no_id (f : list NodeItem) (i : string) :
  ~ In i (ids (pruneFrom (Some i) f)).
Proof.
  induction f as [|n rest IHc IHr] using forest_ind.
  - intros [].
  - rewrite pruneFrom_cons, keeps_Some.
    destruct (String.eqb_spec (id n) i) as [E|E]; simpl; [assumption|].
    rewrite ids_cons, prune_node_eq. cbn [id children].
    intros [Hin|Hin]; [congruence|].
    apply in_app_or in Hin. tauto.
Qed.

Lemma pruneFrom_ids_incl (t : option string) (f : list NodeItem) :
  forall i, In i (ids (pruneFrom t f)) -> In i (ids f).
Proof.
  induction f as [|n rest IHc IHr] using forest_ind; intros i Hi.
  - contradiction.
  - rewrite pruneFrom_cons in Hi. rewrite ids_cons.
    destruct (keeps t n).
    + rewrite ids_cons, prune_node_eq in Hi. cbn [id children] in Hi.
      destruct Hi as [Hi|Hi]; [now left|right].
      apply in_or_app. apply in_app_or in Hi. destruct Hi; auto.
    + right. apply in_or_app. right. auto.
Qed.

(** With unique ids, pruning the id of a node of the forest removes the
    segment of that node's subtree from the traversal and nothing else. *)
Lemma pruneFrom_ids (f : list NodeItem) :
  forall n, uniqueIds f -> In n (flattenTree f) ->
    exists pre post,
      ids f = pre ++ ids [n] ++ post /\
      ids (pruneFrom (Some (id n)) f) = pre ++ post.
Proof.
  induction f as [|a rest IHc IHr] using forest_ind; intros n Hu Hn.
  - contradiction.
  - destruct (uniqueIds_cons_inv _ _ Hu) as [Ha1 [Ha2 [Huc [Hur Hdisj]]]].
    rewrite flattenTree_cons in Hn. simpl in Hn.
    rewrite pruneFrom_cons, keeps_Some.
    destruct Hn as [<-|Hn].
    + rewrite String.eqb_refl. simpl.
      exists [], (ids rest). rewrite pruneFrom_absent by assumption.
      split; [|reflexivity]. now rewrite ids_cons, ids_single.
    + apply in_app_or in Hn. destruct Hn as [Hn|Hn].
      * pose proof (In_ids _ _ Hn) as Hin.
        destruct (String.eqb_spec (id a) (id n)) as [E|E].
        { exfalso. apply Ha1. now rewrite E. }
        simpl. destruct (IHc n Huc Hn) as [pre [post [E1 E2]]].
        rewrite (pruneFrom_absent rest (id n) (Hdisj _ Hin)).
        rewrite (ids_cons a), (ids_cons (prune_node _ a)), prune_node_eq.
        cbn [id children]. rewrite E1, E2.
        exists (id a :: pre), (post ++ ids rest). split; same_app.
      * pose proof (In_ids _ _ Hn) as Hin.
        destruct (String.eqb_spec (id a) (id n)) as [E|E].
        { exfalso. apply Ha2. now rewrite E. }
        simpl. destruct (IHr n Hur Hn) as [pre [post [E1 E2]]].
        assert (Hc : ~ In (id n) (ids (children a))).
        { intros Hc. exact (Hdisj _ Hc Hin). }
        rewrite prune_node_eq, (pruneFrom_absent _ _ Hc), <- node_eta.
        rewrite !(ids_cons a), E1, E2.
        exists (id a :: ids (children a) ++ pre), post. split; same_app.
Qed.

Lemma NoDup_remove_segment (A : Type) (pre mid post : list A) :
  NoDup (pre ++ mid ++ post) ->
  NoDup (pre ++ post) /\ (forall a, In a mid -> ~ In a (pre ++ post)).
Proof.
  intros H.
  assert (Hp : NoDup (mid ++ pre ++ post)).
  { eapply Permutation_NoDup; [|exact H].
    rewrite !app_assoc. apply Permutation_app_tail.
    apply Permutation_app_comm. }
  destruct (NoDup_app_inv _ _ _ Hp) as [_ [H2 H3]]. auto.
Qed.

(** *** [markCutNodes], [clearCutFlags] and the erasures *)

Lemma ids_map_same (g : NodeItem -> NodeItem) (f : list NodeItem) :
  (forall n, id (g n) = id n /\ children (g n) = map g (children n)) ->
  ids (map g f) = ids f.
Proof.
  intros Hg. induction f as [|n rest IHc IHr] using forest_ind; [reflexivity|].
  simpl map. rewrite !ids_cons. destruct (Hg n) as [-> ->].
  now rewrite IHc, IHr.
Qed.

Lemma ids_markCutNodes (f : list NodeItem) : ids (map markCutNodes f) = ids f.
Proof. apply ids_map_same. intros n. now rewrite markCutNodes_eq. Qed.

Lemma ids_clearCutFlags (f : list NodeItem) : ids (map clearCutFlags f) = ids f.
Proof. apply ids_map_same. intros n. now rewrite clearCutFlags_eq. Qed.

Lemma ids_eraseCut (f : list NodeItem) : ids (map eraseCut f) = ids f.
Proof. apply ids_map_same. intros n. now rewrite eraseCut_eq. Qed.

Lemma ids_eraseLayout (f : list NodeItem) : ids (map eraseLayout f) = ids f.
Proof. apply ids_map_same. intros n. now rewrite eraseLayout_eq. Qed.

Lemma id_markCutNodes (n : NodeItem) : id (markCutNodes n) = id n.
Proof. now rewrite markCutNodes_eq. Qed.

Lemma id_clearCutFlags (n : NodeItem) : id (clearCutFlags n) = id n.
Proof. now rewrite clearCutFlags_eq. Qed.

Lemma eraseCut_markCutNodes (f : list NodeItem) :
  map eraseCut (map markCutNodes f) = map eraseCut f.
Proof.
  induction f as [|n rest IHc IHr] using forest_ind; [reflexivity|].
  simpl. rewrite IHr. f_equal.
  rewrite (eraseCut_eq (markCutNodes n)), (eraseCut_eq n), markCutNodes_eq.
  cbn [id label children parentId col row]. now rewrite IHc.
Qed.

Lemma clearCutFlags_markCutNodes (f : list NodeItem) :
  map clearCutFlags (map markCutNodes f) = map clearCutFlags f.
Proof.
  induction f as [|n rest IHc IHr] using forest_ind; [reflexivity|].
  simpl. rewrite IHr. f_equal.
  rewrite (clearCutFlags_eq (markCutNodes n)), (clearCutFlags_eq n), markCutNodes_eq.
  cbn [id label children parentId col row]. now rewrite IHc.
Qed.

Lemma isCut_markCutNodes (f : list NodeItem) :
  map isCut (flattenTree (map markCutNodes f))
  = map (fun _ => Some true) (flattenTree f).
Proof.
  induction f as [|n rest IHc IHr] using forest_ind; [reflexivity|].
  simpl map at 2. rewrite !flattenTree_cons. simpl. rewrite !map_app.
  rewrite <- IHc, <- IHr, markCutNodes_eq. reflexivity.
Qed.

Lemma isCut_clearCutFlags (f : list NodeItem) :
  Forall (fun m => isCut m = Some false) (flattenTree (map clearCutFlags f)).
Proof.
  induction f as [|n rest IHc IHr] using forest_ind; [constructor|].
  simpl map. rewrite flattenTree_cons. constructor.
  - now rewrite clearCutFlags_eq.
  - apply Forall_app. split; [|assumption].
    now rewrite clearCutFlags_eq.
Qed.

Lemma shape_clearCutFlags (f : list NodeItem) :
  map shape (map clearCutFlags f) = map shape f.
Proof.
  induction f as [|n rest IHc IHr] using forest_ind; [reflexivity|].
  simpl. rewrite IHr. f_equal.
  destruct n as [ni l ch p cu co ro]. simpl in *. now rewrite IHc.
Qed.

Lemma flattenTree_cons_walk (n : NodeItem) (f : list NodeItem) :
  flattenTree (n :: f) = walk n ++ flattenTree f.
Proof. now rewrite flattenTree_cons, walk_eq. Qed.

(** *** Staging a cut: [replaceNodeInTree] with the marked node *)

Lemma updateTree_markCutNodes (f : list NodeItem) :
  forall N, uniqueIds f -> In N (flattenTree f) ->
    let f1 := updateTree f (id N) (fun _ => markCutNodes N) in
    map eraseCut f1 = map eraseCut f /\
    (exists pre post,
        flattenTree f = pre ++ walk N ++ post /\
        map isCut (flattenTree f1)
        = map isCut pre ++ map (fun _ => Some true) (walk N) ++ map isCut post) /\
    In (markCutNodes N) (flattenTree f1).
Proof.
  induction f as [|a rest IHc IHr] using forest_ind; intros N Hu HN; cbv zeta.
  - contradiction.
  - destruct (uniqueIds_cons_inv _ _ Hu) as [Ha1 [Ha2 [Huc [Hur Hdisj]]]].
    rewrite flattenTree_cons in HN. simpl in HN.
    rewrite updateTree_cons, updateTree_node_eq.
    destruct HN as [<-|HN].
    + rewrite String.eqb_refl, (updateTree_absent rest (id a) _ Ha2).
      split; [|split].
      * simpl. f_equal. pose proof (eraseCut_markCutNodes [a]) as E.
        simpl in E. now injection E.
      * exists [], (flattenTree rest). split.
        -- now rewrite flattenTree_cons_walk.
        -- rewrite flattenTree_cons_walk, map_app. simpl. f_equal.
           rewrite <- !flattenTree_single. apply (isCut_markCutNodes [a]).
      * rewrite flattenTree_cons. now left.
    + apply in_app_or in HN. destruct HN as [HN|HN].
      * pose proof (In_ids _ _ HN) as Hin.
        destruct (String.eqb_spec (id a) (id N)) as [E|E].
        { exfalso. apply Ha1. now rewrite E. }
        rewrite (updateTree_absent rest (id N) _ (Hdisj _ Hin)).
        destruct (IHc N Huc HN) as [E1 [[pre [post [E2 E3]]] HIn]].
        split; [|split].
        -- simpl. f_equal. rewrite (eraseCut_eq a). now rewrite E1.
        -- exists (a :: pre), (post ++ flattenTree rest). split.
           ++ rewrite flattenTree_cons, E2. same_app.
           ++ rewrite flattenTree_cons. cbn [children map isCut].
              rewrite !map_app, E3, ?map_app. same_app.
        -- rewrite flattenTree_cons. right. apply in_or_app. now left.
      * pose proof (In_ids _ _ HN) as Hin.
        destruct (String.eqb_spec (id a) (id N)) as [E|E].
        { exfalso. apply Ha2. now rewrite E. }
        assert (Hc : ~ In (id N) (ids (children a))).
        { intros Hc. exact (Hdisj _ Hc Hin). }
        rewrite (updateTree_absent _ _ _ Hc), <- node_eta.
        destruct (IHr N Hur HN) as [E1 [[pre [post [E2 E3]]] HIn]].
        split; [|split].
        -- simpl. now rewrite E1.
        -- exists (a :: flattenTree (children a) ++ pre), post. split.
           ++ rewrite flattenTree_cons, E2. same_app.
           ++ rewrite flattenTree_cons. cbn [map].
              rewrite !map_app, E3, ?map_app. same_app.
        -- rewrite flattenTree_cons. right. apply in_or_app. now right.
Qed.

(** *** [trim] *)

Lemma trimStart_nil_iff (s : list N) : trimStart s = [] <-> blank s.
Proof.
  unfold blank. induction s as [|c s IH]; simpl.
  - split; [constructor|reflexivity].
  - destruct (isWhiteSpace c) eqn:E.
    + rewrite IH. split; intros H.
      * now constructor.
      * now inversion H.
    + split; intros H; [discriminate|]. inversion H; congruence.
Qed.

Lemma trimStart_head (s : list N) :
  match trimStart s with
  | [] => True
  | c :: _ => isWhiteSpace c = false
  end.
Proof.
  induction s as [|c s IH]; simpl; [exact I|].
  destruct (isWhiteSpace c) eqn:E; [exact IH|exact E].
Qed.

(** [!newLabel.trim()] holds exactly of the blank labels. *)
Lemma trim_blank (s : list N) : truthy (trim s) = false <-> blank s.
Proof.
  unfold trim, trimEnd. split.
  - intros H.
    assert (E : trimStart (rev (trimStart s)) = []).
    { destruct (trimStart (rev (trimStart s))) as [|c t] eqn:E'; [reflexivity|].
      simpl in H. destruct (rev t ++ [c]) eqn:E''; [|discriminate].
      now apply app_eq_nil in E'' as [_ ?]. }
    apply trimStart_nil_iff in E. unfold blank in E.
    apply Forall_rev in E. rewrite rev_involutive in E.
    apply trimStart_nil_iff.
    pose proof (trimStart_head s) as Hh.
    destruct (trimStart s) as [|c t]; [reflexivity|].
    inversion E; congruence.
  - intros H. apply trimStart_nil_iff in H. rewrite H. reflexivity.
Qed.

(** *** [deepClone] *)

Lemma deepClone_forest (uuidv4 : nat -> string) (f : list NodeItem) :
  forall k,
    let clones := fst (mapAccum (deepClone uuidv4) f k) in
    map shape clones = map shape f /\
    ids clones = map uuidv4 (seq k (List.length (flattenTree f))) /\
    snd (mapAccum (deepClone uuidv4) f k) = k + List.length (flattenTree f) /\
    Forall (fun m => isCut m = Some false) (flattenTree clones).
Proof.
  induction f as [|n rest IHc IHr] using forest_ind; intros k; cbv zeta.
  - repeat split; simpl; [lia|constructor].
  - rewrite mapAccum_cons, deepClone_eq. cbn [fst snd].
    destruct (IHc (S k)) as [C1 [C2 [C3 C4]]].
    destruct (IHr (snd (mapAccum (deepClone uuidv4) (children n) (S k))))
      as [R1 [R2 [R3 R4]]].
    rewrite flattenTree_cons. simpl List.length. rewrite length_app.
    repeat split.
    + simpl. rewrite R1. f_equal.
      destruct n as [ni l ch p cu co ro]. simpl in *. now rewrite C1.
    + rewrite ids_cons. cbn [id children]. rewrite C2, R2, C3.
      simpl. f_equal. rewrite seq_app, map_app. reflexivity.
    + rewrite R3, C3. lia.
    + rewrite flattenTree_cons. cbn [children]. constructor; [reflexivity|].
      apply Forall_app. split; assumption.
Qed.

Lemma deepClone_spec (uuidv4 : nat -> string) (n : NodeItem) (k : nat) :
  let clone := fst (deepClone uuidv4 n k) in
  shape clone = shape n /\
  ids [clone] = map uuidv4 (seq k (List.length (walk n))) /\
  snd (deepClone uuidv4 n k) = k + List.length (walk n) /\
  Forall (fun m => isCut m = Some false) (walk clone).
Proof.
  cbv zeta. destruct (deepClone_forest uuidv4 [n] k) as [H1 [H2 [H3 H4]]].
  rewrite mapAccum_cons in H1, H2, H3, H4. cbn [fst snd mapAccum] in *.
  rewrite !flattenTree_single in *.
  repeat split; try assumption.
  simpl in H1. now injection H1.
Qed.

(** *** Ids after appending a child *)

Lemma view_appendChild (c T : NodeItem) :
  view (appendChild c T)
  = (id T, label T, parentId T, isCut T, map id (children T) ++ [id c]).
Proof. unfold view, appendChild. simpl. now rewrite map_app. Qed.

(** The same as [updateTree_appendChild_views] for the node that the
    caller holds. *)
Lemma updateTree_appendChild_at (c T : NodeItem) (f : list NodeItem) :
  uniqueIds f -> In T (flattenTree f) ->
  exists pre post,
    views f = pre ++ view T :: views (children T) ++ post /\
    views (updateTree f (id T) (appendChild c))
    = pre ++ view (appendChild c T) :: views (children T) ++ views [c] ++ post /\
    In (appendChild c T) (flattenTree (updateTree f (id T) (appendChild c))).
Proof.
  intros Hu HT.
  destruct (updateTree_appendChild_views c f (id T) Hu (In_ids _ _ HT))
    as [T' [pre [post [HT' [Hid [Hv [Hv' HIn]]]]]]].
  assert (T' = T) by (eapply uniqueIds_eq; eassumption). subst T'.
  exists pre, post. auto.
Qed.

Lemma updateTree_appendChild_ids (c : NodeItem) (f : list NodeItem) (i : string) :
  uniqueIds f -> In i (ids f) ->
  exists pre mid post,
    ids f = pre ++ i :: mid ++ post /\
    ids (updateTree f i (appendChild c)) = pre ++ i :: mid ++ ids [c] ++ post.
Proof.
  intros Hu Hi.
  destruct (updateTree_appendChild_views c f i Hu Hi)
    as [T [pre [post [HT [Hid [Hv [Hv' HIn]]]]]]].
  exists (map viewId pre), (ids (children T)), (map viewId post).
  rewrite (ids_of_views f), (ids_of_views (updateTree f i (appendChild c))).
  rewrite Hv, Hv', !map_app. cbn [map]. rewrite !map_app.
  rewrite <- !ids_of_views. unfold viewId, view. cbn [fst appendChild id].
  rewrite Hid. split; reflexivity.
Qed.

Lemma updateTree_appendChild_perm (c : NodeItem) (f : list NodeItem) (i : string) :
  uniqueIds f -> In i (ids f) ->
  Permutation (ids (updateTree f i (appendChild c))) (ids f ++ ids [c]).
Proof.
  intros Hu Hi.
  destruct (updateTree_appendChild_ids c f i Hu Hi) as [pre [mid [post [E1 E2]]]].
  rewrite E1, E2.
  replace (pre ++ i :: mid ++ ids [c] ++ post)
    with ((pre ++ i :: mid) ++ ids [c] ++ post) by same_app.
  replace ((pre ++ i :: mid ++ post) ++ ids [c])
    with ((pre ++ i :: mid) ++ post ++ ids [c]) by same_app.
  apply Permutation_app_head, Permutation_app_comm.
Qed.

Lemma updateTree_appendChild_unique (c : NodeItem) (f : list NodeItem) (i : string) :
  uniqueIds f -> In i (ids f) -> uniqueIds [c] ->
  (forall j, In j (ids f) -> ~ In j (ids [c])) ->
  uniqueIds (updateTree f i (appendChild c)).
Proof.
  intros Hu Hi Hc Hdisj. unfold uniqueIds.
  eapply Permutation_NoDup.
  - apply Permutation_sym. now apply updateTree_appendChild_perm.
  - now apply NoDup_app.
Qed.

(** *** Nodes up to layout *)

Lemma eraseLayout_children (a b : NodeItem) :
  eraseLayout a = eraseLayout b ->
  id a = id b /\ label a = label b /\ parentId a = parentId b /\
  isCut a = isCut b /\
  map eraseLayout (children a) = map eraseLayout (children b).
Proof.
  rewrite (eraseLayout_eq a), (eraseLayout_eq b). intros E.
  injection E. auto.
Qed.

(** Two forests that agree up to layout hold the same nodes up to layout. *)
Lemma eraseLayout_In (f : list NodeItem) :
  forall f', map eraseLayout f' = map eraseLayout f ->
    forall n, In n (flattenTree f) ->
      exists n', In n' (flattenTree f') /\ eraseLayout n' = eraseLayout n.
Proof.
  induction f as [|a rest IHc IHr] using forest_ind; intros f' E n Hn.
  - contradiction.
  - destruct f' as [|a' rest']; [discriminate|].
    simpl in E. injection E as Ea Er.
    rewrite flattenTree_cons in Hn. simpl in Hn.
    destruct Hn as [<-|Hn].
    + exists a'. split; [|exact Ea]. rewrite flattenTree_cons. now left.
    + apply in_app_or in Hn. destruct Hn as [Hn|Hn].
      * destruct (eraseLayout_children _ _ Ea) as [_ [_ [_ [_ Ec]]]].
        destruct (IHc _ Ec n Hn) as [n' [H1 H2]].
        exists n'. split; [|exact H2].
        rewrite flattenTree_cons. right. apply in_or_app. now left.
      * destruct (IHr _ Er n Hn) as [n' [H1 H2]].
        exists n'. split; [|exact H2].
        rewrite flattenTree_cons. right. apply in_or_app. now right.
Qed.

Lemma recalculateLayout_In (f : list NodeItem) (r c : nat) (n : NodeItem) :
  In n (flattenTree f) ->
  exists n', In n' (flattenTree (fst (recalculateLayout f r c))) /\
             eraseLayout n' = eraseLayout n.
Proof. apply eraseLayout_In, eraseLayout_recalculateLayout. Qed.

Lemma map_eq_snoc (A B : Type) (g : A -> B) (l : list A) (l1 : list B) (b : B) :
  map g l = l1 ++ [b] ->
  exists cs c, l = cs ++ [c] /\ map g cs = l1 /\ g c = b.
Proof.
  intros E. apply map_eq_app in E. destruct E as [cs [tl [E1 [E2 E3]]]].
  destruct tl as [|c [|c' tl]]; try discriminate.
  exists cs, c. simpl in E3. injection E3 as E3. auto.
Qed.

(** A node that is, up to layout, [T] with [c] appended has a last child
    that is [c] up to layout. *)
Lemma eraseLayout_appendChild (T2 c T : NodeItem) :
  eraseLayout T2 = eraseLayout (appendChild c T) ->
  id T2 = id T /\
  exists cs pasted,
    children T2 = cs ++ [pasted] /\
    map eraseLayout cs = map eraseLayout (children T) /\
    eraseLayout pasted = eraseLayout c.
Proof.
  intros E. apply eraseLayout_children in E.
  destruct E as [Hid [_ [_ [_ Hc]]]]. split; [exact Hid|].
  cbn [appendChild children] in Hc. rewrite map_app in Hc. simpl in Hc.
  apply map_eq_snoc in Hc. destruct Hc as [cs [p [E1 [E2 E3]]]].
  exists cs, p. auto.
Qed.

Lemma views_eq_single (a b : NodeItem) :
  eraseLayout a = eraseLayout b -> views [a] = views [b].
Proof.
  intros E. apply views_eq_of_eraseLayout. simpl. now rewrite E.
Qed.

Lemma ids_eq_single (a b : NodeItem) :
  eraseLayout a = eraseLayout b -> ids [a] = ids [b].
Proof. intros E. rewrite !ids_of_views. now rewrite (views_eq_single a b E). Qed.

Lemma isCut_of_views (f : list NodeItem) :
  map isCut (flattenTree f) = map (fun v => snd (fst v)) (views f).
Proof. unfold views. rewrite map_map. reflexivity. Qed.

Lemma isCut_eq_single (a b : NodeItem) :
  eraseLayout a = eraseLayout b -> map isCut (walk a) = map isCut (walk b).
Proof.
  intros E. rewrite <- !flattenTree_single, !isCut_of_views.
  now rewrite (views_eq_single a b E).
Qed.

Lemma shape_eraseLayout (f : list NodeItem) :
  map shape (map eraseLayout f) = map shape f.
Proof.
  induction f as [|n rest IHc IHr] using forest_ind; [reflexivity|].
  simpl. rewrite IHr. f_equal.
  destruct n as [ni l ch p cu co ro]. simpl in *. now rewrite IHc.
Qed.

Lemma shape_eq_single (a b : NodeItem) :
  eraseLayout a = eraseLayout b -> shape a = shape b.
Proof.
  intros E. pose proof (shape_eraseLayout [a]) as Ha.
  pose proof (shape_eraseLayout [b]) as Hb. simpl in Ha, Hb.
  rewrite E in Ha. rewrite Hb in Ha. now injection Ha.
Qed.

Lemma Forall_isCut_transfer (a b : NodeItem) (v : option bool) :
  eraseLayout a = eraseLayout b ->
  Forall (fun m => isCut m = v) (walk b) ->
  Forall (fun m => isCut m = v) (walk a).
Proof.
  intros E Hb. apply isCut_eq_single in E.
  apply Forall_forall. intros m Hm.
  assert (Hin : In (isCut m) (map isCut (walk b))).
  { rewrite <- E. now apply in_map. }
  apply in_map_iff in Hin. destruct Hin as [m' [E' Hm']].
  rewrite Forall_forall in Hb. rewrite <- E'. now apply Hb.
Qed.

(** *** The two modes of [handlePaste], past the guard *)

Lemma handlePaste_copy (uuidv4 : nat -> string) (s : State) (T N : NodeItem) :
  contextNode s = Some T ->
  clipboard s = Some (mkClipboard copy N) ->
  id T <> id N ->
  handlePaste uuidv4 s =
  handleCloseContextMenu
    (setClipboard None
       (setNodes
          (fst (recalculateLayout
                  (updateTree (nodes s) (id T)
                     (appendChild (fst (deepClone uuidv4 N (uuidCalls s)))))
                  0 0))
          (setUuidCalls (snd (deepClone uuidv4 N (uuidCalls s))) s))).
Proof.
  intros HT Hcb Hid. unfold handlePaste. rewrite HT, Hcb.
  cbn [node mode].
  destruct (String.eqb_spec (id T) (id N)) as [E|E]; [contradiction|].
  now destruct (deepClone uuidv4 N (uuidCalls s)).
Qed.

Lemma handlePaste_cut (uuidv4 : nat -> string) (s : State) (T N : NodeItem) :
  contextNode s = Some T ->
  clipboard s = Some (mkClipboard cut N) ->
  id T <> id N ->
  handlePaste uuidv4 s =
  handleCloseContextMenu
    (setClipboard None
       (setNodes
          (fst (recalculateLayout
                  (updateTree (pruneFrom (Some (id N)) (nodes s)) (id T)
                     (appendChild (clearCutFlags N)))
                  0 0))
          (setUuidCalls (uuidCalls s) s))).
Proof.
  intros HT Hcb Hid. unfold handlePaste, removeFrom. rewrite HT, Hcb.
  cbn [node mode option_map].
  destruct (String.eqb_spec (id T) (id N)) as [E|E]; [contradiction|].
  reflexivity.
Qed.

(* ------------------------------------------------------------------ *)
(** * Cut, copy and paste on forests with unique ids *)

Lemma handleCopy_eq (s : State) (N : NodeItem) :
  contextNode s = Some N -> id N <> "root" ->
  handleCopy s = handleCloseContextMenu (setClipboard (Some (mkClipboard copy N)) s).
Proof.
  intros HT Hr. unfold handleCopy. rewrite HT.
  destruct (String.eqb_spec (id N) "root"); [contradiction|reflexivity].
Qed.

Lemma handleCut_eq (s : State) (N : NodeItem) :
  contextNode s = Some N -> id N <> "root" ->
  handleCut s =
  setContextMenu None
    (setClipboard (Some (mkClipboard cut (markCutNodes N)))
       (setNodes (updateTree (nodes s) (id N) (fun _ => markCutNodes N)) s)).
Proof.
  intros HT Hr. unfold handleCut. rewrite HT.
  destruct (String.eqb_spec (id N) "root"); [contradiction|].
  now rewrite id_markCutNodes, replaceNodeInTree_updateTree.
Qed.

Lemma clearCutFlags_markCutNodes_node (N : NodeItem) :
  clearCutFlags (markCutNodes N) = clearCutFlags N.
Proof.
  pose proof (clearCutFlags_markCutNodes [N]) as E. simpl in E.
  now injection E.
Qed.

Lemma ids_markCutNodes_node (N : NodeItem) : ids [markCutNodes N] = ids [N].
Proof. apply (ids_markCutNodes [N]). Qed.

Lemma ids_clearCutFlags_node (N : NodeItem) : ids [clearCutFlags N] = ids [N].
Proof. apply (ids_clearCutFlags [N]). Qed.

(** Staging a cut keeps the ids of the forest. *)
Lemma ids_after_mark (f : list NodeItem) (N : NodeItem) :
  uniqueIds f -> In N (flattenTree f) ->
  ids (updateTree f (id N) (fun _ => markCutNodes N)) = ids f.
Proof.
  intros Hu HN.
  destruct (updateTree_markCutNodes f N Hu HN) as [E _]. cbv zeta in E.
  rewrite <- (ids_eraseCut (updateTree _ _ _)), E. apply ids_eraseCut.
Qed.

(** The children of a node of the forest carry ids of the forest. *)
Lemma child_id_in_forest (f : list NodeItem) (M : NodeItem) (i : string) :
  In M (flattenTree f) -> In i (map id (children M)) -> In i (ids f).
Proof.
  intros HM Hi. apply in_map_iff in Hi. destruct Hi as [c [<- Hc]].
  apply In_ids. eapply In_flattenTree_child; eassumption.
Qed.

Lemma child_id_below (c : NodeItem) (M : NodeItem) (i : string) :
  In M (walk c) -> In i (map id (children M)) -> In i (ids (children c)).
Proof.
  intros HM Hi. rewrite walk_eq in HM. destruct HM as [<-|HM].
  - apply in_map_iff in Hi. destruct Hi as [x [<- Hx]].
    apply In_ids. now apply In_flattenTree_top.
  - eapply child_id_in_forest; eassumption.
Qed.

Lemma view_children_ids (M : NodeItem) :
  map id (children M) = snd (view M).
Proof. reflexivity. Qed.

(** Moving a subtree: prune the id of [N], then append [c], a node with
    the ids of [N], under the surviving node with id [i]. *)
Lemma prune_then_append (f : list NodeItem) (N c : NodeItem) (i : string) :
  uniqueIds f -> In N (flattenTree f) ->
  ids [c] = ids [N] -> In i (ids f) -> ~ In i (ids [N]) ->
  let g := updateTree (pruneFrom (Some (id N)) f) i (appendChild c) in
  uniqueIds g /\
  Permutation (ids g) (ids f) /\
  (exists T', In T' (flattenTree (pruneFrom (Some (id N)) f)) /\ id T' = i /\
              In (appendChild c T') (flattenTree g)) /\
  (forall M, In M (flattenTree g) -> In (id N) (map id (children M)) -> id M = i).
Proof.
  intros Hu HN Hc Hi HiN g.
  destruct (pruneFrom_ids f N Hu HN) as [pre [post [E1 E2]]].
  set (p := pruneFrom (Some (id N)) f) in *.
  assert (Hseg : NoDup (pre ++ ids [N] ++ post)) by (rewrite <- E1; exact Hu).
  destruct (NoDup_remove_segment _ _ _ _ Hseg) as [Hup Hdisj].
  assert (Hu' : uniqueIds p) by (unfold uniqueIds; now rewrite E2).
  assert (Hip : In i (ids p)).
  { rewrite E2. rewrite E1 in Hi. apply in_app_or in Hi.
    apply in_or_app. destruct Hi as [Hi|Hi]; [now left|].
    apply in_app_or in Hi. destruct Hi as [Hi|Hi]; [contradiction|now right]. }
  assert (HuN : uniqueIds [c]).
  { unfold uniqueIds. rewrite Hc. exact (uniqueIds_subtree f N Hu HN). }
  assert (Hperm : Permutation (ids g) (ids f)).
  { unfold g. eapply Permutation_trans.
    - apply updateTree_appendChild_perm; assumption.
    - rewrite E1, E2, Hc.
      replace (pre ++ ids [N] ++ post) with (pre ++ (ids [N] ++ post)) by reflexivity.
      rewrite <- app_assoc. apply Permutation_app_head, Permutation_app_comm. }
  split; [|split; [exact Hperm|split]].
  - unfold uniqueIds. eapply Permutation_NoDup.
    + apply Permutation_sym. exact Hperm.
    + exact Hu.
  - destruct (updateTree_appendChild_views c p i Hu' Hip)
      as [T' [_ [_ [HT' [Hid [_ [_ HIn]]]]]]].
    exists T'. auto.
  - intros M HM Hch.
    destruct (updateTree_appendChild_views c p i Hu' Hip)
      as [T' [vpre [vpost [HT' [Hid [Hv [Hv' _]]]]]]].
    fold g in Hv'.
    assert (HvM : In (view M) (views g)) by (unfold views; now apply in_map).
    assert (Hnot : ~ In (id N) (ids p)) by apply pruneFrom_no_id.
    assert (Hold : forall v, In v (views p) -> ~ In (id N) (snd v)).
    { intros v Hv0 Hin. unfold views in Hv0. apply in_map_iff in Hv0.
      destruct Hv0 as [M0 [<- HM0]]. apply Hnot.
      eapply child_id_in_forest; eassumption. }
    rewrite view_children_ids in Hch.
    rewrite Hv' in HvM. apply in_app_or in HvM.
    destruct HvM as [HvM|HvM].
    { exfalso. apply (Hold (view M)); [|exact Hch].
      rewrite Hv. apply in_or_app. now left. }
    destruct HvM as [HvM|HvM].
    { apply (f_equal viewId) in HvM. unfold viewId, view in HvM.
      simpl in HvM. congruence. }
    apply in_app_or in HvM. destruct HvM as [HvM|HvM].
    { exfalso. apply (Hold (view M)); [|exact Hch].
      rewrite Hv. apply in_or_app. right. right. apply in_or_app. now left. }
    apply in_app_or in HvM. destruct HvM as [HvM|HvM].
    { exfalso. unfold views in HvM. apply in_map_iff in HvM.
      destruct HvM as [M0 [EM0 HM0]]. rewrite flattenTree_single in HM0.
      rewrite <- EM0 in Hch. rewrite <- view_children_ids in Hch.
      pose proof (child_id_below c M0 (id N) HM0 Hch) as Hbelow.
      destruct (uniqueIds_children c HuN) as [Hself _].
      apply Hself. rewrite ids_single in Hc. rewrite (ids_single N) in Hc.
      injection Hc as Hidc _. now rewrite Hidc. }
    { exfalso. apply (Hold (view M)); [|exact Hch].
      rewrite Hv. apply in_or_app. right. right. apply in_or_app. now right. }
Qed.

(** Pasting under a node that the pruning removed inserts nothing. *)
Lemma prune_then_append_lost (f : list NodeItem) (N c : NodeItem) (i : string) :
  uniqueIds f -> In N (flattenTree f) -> In i (ids [N]) ->
  updateTree (pruneFrom (Some (id N)) f) i (appendChild c)
  = pruneFrom (Some (id N)) f /\
  exists pre post,
    ids f = pre ++ ids [N] ++ post /\
    ids (pruneFrom (Some (id N)) f) = pre ++ post /\
    (forall j, In j (ids [N]) -> ~ In j (pre ++ post)).
Proof.
  intros Hu HN Hi.
  destruct (pruneFrom_ids f N Hu HN) as [pre [post [E1 E2]]].
  assert (Hseg : NoDup (pre ++ ids [N] ++ post)) by (rewrite <- E1; exact Hu).
  destruct (NoDup_remove_segment _ _ _ _ Hseg) as [_ Hdisj].
  split.
  - apply updateTree_absent. rewrite E2. now apply Hdisj.
  - exists pre, post. auto.
Qed.

Lemma parentId_of_views (f : list NodeItem) :
  map parentId (flattenTree f) = map (fun v => snd (fst (fst v))) (views f).
Proof. unfold views. rewrite map_map. reflexivity. Qed.

Lemma parentId_eq_single (a b : NodeItem) :
  eraseLayout a = eraseLayout b ->
  map parentId (walk a) = map parentId (walk b).
Proof.
  intros E. rewrite <- !flattenTree_single, !parentId_of_views.
  now rewrite (views_eq_single a b E).
Qed.

(** [deepClone] copies [parentId] as it copies the label. *)
Lemma deepClone_parentId (uuidv4 : nat -> string) (f : list NodeItem) :
  forall k,
    map parentId (flattenTree (fst (mapAccum (deepClone uuidv4) f k)))
    = map parentId (flattenTree f).
Proof.
  induction f as [|n rest IHc IHr] using forest_ind; intros k.
  - reflexivity.
  - rewrite mapAccum_cons, deepClone_eq. cbn [fst snd].
    rewrite !flattenTree_cons. cbn [children map parentId].
    now rewrite !map_app, IHc, IHr.
Qed.

Lemma deepClone_parentId_node (uuidv4 : nat -> string) (n : NodeItem) (k : nat) :
  map parentId (walk (fst (deepClone uuidv4 n k))) = map parentId (walk n).
Proof.
  pose proof (deepClone_parentId uuidv4 [n] k) as H.
  rewrite mapAccum_cons in H. cbn [fst snd mapAccum] in H.
  now rewrite !flattenTree_single in H.
Qed.

(** The forest after copy and paste. *)
Lemma copy_paste_nodes (uuidv4 : nat -> string) (s : State) (N T : NodeItem)
    (x y : Z) :
  contextNode s = Some N -> id N <> "root" -> id T <> id N ->
  let s2 := handlePaste uuidv4 (handleRightClick T x y (handleCopy s)) in
  nodes s2
  = fst (recalculateLayout
           (updateTree (nodes s) (id T)
              (appendChild (fst (deepClone uuidv4 N (uuidCalls s))))) 0 0) /\
  clipboard s2 = None /\
  uuidCalls s2 = snd (deepClone uuidv4 N (uuidCalls s)).
Proof.
  intros HN Hroot Hid s2. subst s2. rewrite (handleCopy_eq s N HN Hroot).
  set (s1 := handleRightClick T x y
               (handleCloseContextMenu
                  (setClipboard (Some (mkClipboard copy N)) s))).
  assert (H1 : contextNode s1 = Some T) by reflexivity.
  assert (H2 : clipboard s1 = Some (mkClipboard copy N)) by reflexivity.
  rewrite (handlePaste_copy uuidv4 s1 T N H1 H2 Hid).
  repeat split.
Qed.

(** The forest after cut and paste. *)
Lemma cut_paste_nodes (uuidv4 : nat -> string) (s : State) (N T : NodeItem)
    (x y : Z) :
  contextNode s = Some N -> id N <> "root" -> id T <> id N ->
  let s2 := handlePaste uuidv4 (handleRightClick T x y (handleCut s)) in
  nodes s2
  = fst (recalculateLayout
           (updateTree
              (pruneFrom (Some (id N))
                 (updateTree (nodes s) (id N) (fun _ => markCutNodes N)))
              (id T) (appendChild (clearCutFlags N))) 0 0) /\
  clipboard s2 = None /\
  uuidCalls s2 = uuidCalls s.
Proof.
  intros HN Hroot Hid s2. subst s2. rewrite (handleCut_eq s N HN Hroot).
  set (s1 := handleRightClick T x y _).
  assert (H1 : contextNode s1 = Some T) by reflexivity.
  assert (H2 : clipboard s1 = Some (mkClipboard cut (markCutNodes N)))
    by reflexivity.
  assert (Hid' : id T <> id (markCutNodes N)) by now rewrite id_markCutNodes.
  rewrite (handlePaste_cut uuidv4 s1 T (markCutNodes N) H1 H2 Hid').
  rewrite id_markCutNodes, clearCutFlags_markCutNodes_node.
  repeat split.
Qed.

(** A node of a laid-out forest has the view of a node of the input. *)
Lemma recalculateLayout_view (f : list NodeItem) (r c : nat) (M : NodeItem) :
  In M (flattenTree (fst (recalculateLayout f r c))) ->
  exists M0, In M0 (flattenTree f) /\ view M0 = view M.
Proof.
  intros HM.
  assert (H : In (view M) (views (fst (recalculateLayout f r c))))
    by (unfold views; now apply in_map).
  rewrite views_recalculateLayout in H. unfold views in H.
  apply in_map_iff in H. destruct H as [M0 [E H0]]. eauto.
Qed.

(** What cut and paste does to the forest, for a target outside the
    subtree that was cut. *)
Lemma cut_paste_result (uuidv4 : nat -> string) (s : State) (N T : NodeItem)
    (x y : Z) :
  uniqueIds (nodes s) -> contextNode s = Some N ->
  In N (flattenTree (nodes s)) -> id N <> "root" ->
  In T (flattenTree (nodes (handleCut s))) -> ~ In (id T) (ids [N]) ->
  let s2 := handlePaste uuidv4 (handleRightClick T x y (handleCut s)) in
  uniqueIds (nodes s2) /\
  Permutation (ids (nodes s2)) (ids (nodes s)) /\
  (exists T2 cs pasted,
      In T2 (flattenTree (nodes s2)) /\ id T2 = id T /\
      children T2 = cs ++ [pasted] /\
      eraseLayout pasted = eraseLayout (clearCutFlags N)) /\
  (forall M, In M (flattenTree (nodes s2)) ->
             In (id N) (map id (children M)) -> id M = id T).
Proof.
  intros Hu HN HIn Hroot HT HnotT s2.
  assert (Hid : id T <> id N).
  { intros E. apply HnotT. rewrite ids_single, E. now left. }
  destruct (cut_paste_nodes uuidv4 s N T x y HN Hroot Hid) as [En _].
  fold s2 in En.
  set (f1 := updateTree (nodes s) (id N) (fun _ => markCutNodes N)) in *.
  assert (Ef1 : nodes (handleCut s) = f1).
  { now rewrite (handleCut_eq s N HN Hroot). }
  rewrite Ef1 in HT.
  assert (Hids1 : ids f1 = ids (nodes s)) by now apply ids_after_mark.
  assert (Hu1 : uniqueIds f1) by (unfold uniqueIds; now rewrite Hids1).
  destruct (updateTree_markCutNodes (nodes s) N Hu HIn) as [_ [_ HN1]].
  cbv zeta in HN1. fold f1 in HN1.
  assert (Hc : ids [clearCutFlags N] = ids [markCutNodes N]).
  { now rewrite ids_clearCutFlags_node, ids_markCutNodes_node. }
  assert (HnotT1 : ~ In (id T) (ids [markCutNodes N])).
  { now rewrite ids_markCutNodes_node. }
  destruct (prune_then_append f1 (markCutNodes N) (clearCutFlags N) (id T)
              Hu1 HN1 Hc (In_ids _ _ HT) HnotT1)
    as [Hug [Hperm [[T' [HT' [HidT' HInT']]] Honly]]].
  rewrite id_markCutNodes in *.
  split; [|split; [|split]].
  - unfold uniqueIds. now rewrite En, ids_recalculateLayout.
  - rewrite En, ids_recalculateLayout, <- Hids1. exact Hperm.
  - destruct (recalculateLayout_In _ 0 0 _ HInT') as [T2 [HT2 ET2]].
    destruct (eraseLayout_appendChild T2 _ T' ET2)
      as [HidT2 [cs [pasted [Hch [_ Hp]]]]].
    exists T2, cs, pasted. rewrite En.
    repeat split; try assumption. congruence.
  - intros M HM Hch. rewrite En in HM.
    destruct (recalculateLayout_view _ 0 0 M HM) as [M0 [HM0 Ev]].
    assert (id M0 = id M) by (apply (f_equal viewId) in Ev; exact Ev).
    assert (map id (children M0) = map id (children M))
      by (apply (f_equal snd) in Ev; exact Ev).
    rewrite <- H. apply Honly; [exact HM0|]. now rewrite H0.
Qed.

(** The node pasted by copy and paste, up to layout. *)
Lemma copy_paste_pasted (uuidv4 : nat -> string) (s : State) (N T : NodeItem)
    (x y : Z) :
  uniqueIds (nodes s) -> contextNode s = Some N -> id N <> "root" ->
  In T (flattenTree (nodes s)) -> id T <> id N ->
  let s2 := handlePaste uuidv4 (handleRightClick T x y (handleCopy s)) in
  exists T2 cs pasted,
    In T2 (flattenTree (nodes s2)) /\ id T2 = id T /\
    children T2 = cs ++ [pasted] /\
    eraseLayout pasted = eraseLayout (fst (deepClone uuidv4 N (uuidCalls s))).
Proof.
  intros Hu HN Hroot HT Hid s2.
  destruct (copy_paste_nodes uuidv4 s N T x y HN Hroot Hid) as [En _].
  fold s2 in En.
  destruct (updateTree_appendChild_at
              (fst (deepClone uuidv4 N (uuidCalls s))) T (nodes s) Hu HT)
    as [_ [_ [_ [_ HIn]]]].
  destruct (recalculateLayout_In _ 0 0 _ HIn) as [T2 [HT2 ET2]].
  destruct (eraseLayout_appendChild T2 _ T ET2)
    as [HidT2 [cs [pasted [Hch [_ Hp]]]]].
  exists T2, cs, pasted. rewrite En. auto.
Qed.

(** The layout is a function of the forest up to layout. *)
Lemma recalculateLayout_eraseLayout (f : list NodeItem) :
  forall g r c, map eraseLayout f = map eraseLayout g ->
                recalculateLayout f r c = recalculateLayout g r c.
Proof.
  induction f as [|n rest IHc IHr] using forest_ind; intros g r c E.
  - destruct g; [reflexivity|discriminate].
  - destruct g as [|m g]; [discriminate|].
    simpl in E. injection E as En Er.
    destruct (eraseLayout_children _ _ En) as [H1 [H2 [H3 [H4 H5]]]].
    rewrite !recalculateLayout_cons, !layoutNode_eq.
    rewrite (IHc _ r (c + 1) H5), H1, H2, H3, H4. cbn [fst snd].
    now rewrite (IHr g _ c Er).
Qed.

Lemma pruneFrom_None (f : list NodeItem) : pruneFrom None f = f.
Proof.
  induction f as [|n rest IHc IHr] using forest_ind; [reflexivity|].
  rewrite pruneFrom_cons. cbn [keeps].
  now rewrite prune_node_eq, IHc, IHr, <- node_eta.
Qed.

Lemma markCutNodes_clearCutFlags (f : list NodeItem) :
  map markCutNodes (map clearCutFlags f) = map markCutNodes f.
Proof.
  induction f as [|n rest IHc IHr] using forest_ind; [reflexivity|].
  simpl. rewrite IHr. f_equal.
  rewrite (markCutNodes_eq (clearCutFlags n)), (markCutNodes_eq n), clearCutFlags_eq.
  cbn [id label children parentId col row]. now rewrite IHc.
Qed.

Lemma eraseCut_clearCutFlags (f : list NodeItem) :
  map eraseCut (map clearCutFlags f) = map eraseCut f.
Proof.
  induction f as [|n rest IHc IHr] using forest_ind; [reflexivity|].
  simpl. rewrite IHr. f_equal.
  rewrite (eraseCut_eq (clearCutFlags n)), (eraseCut_eq n), clearCutFlags_eq.
  cbn [id label children parentId col row]. now rewrite IHc.
Qed.

Lemma layout_zero_deepClone (uuidv4 : nat -> string) (f : list NodeItem) :
  forall k,
    Forall (fun m => col m = 0 /\ row m = 0)
           (flattenTree (fst (mapAccum (deepClone uuidv4) f k))).
Proof.
  induction f as [|n rest IHc IHr] using forest_ind; intros k.
  - constructor.
  - rewrite mapAccum_cons, deepClone_eq. cbn [fst snd].
    rewrite flattenTree_cons. cbn [children]. constructor; [now split|].
    apply Forall_app. split; [apply IHc|apply IHr].
Qed.

(** *** [updateTree] with an updater that keeps the id *)


Lemma ids_Part000_recalculateLayout (f : list NodeItem) (r c : nat) :
  ids (fst (Part000.recalculateLayout f r c)) = ids f.
Proof.
  rewrite !ids_of_views. f_equal.
  apply views_eq_of_eraseLayout, eraseLayout_Part000_recalculateLayout.
Qed.

Lemma pruneFrom_app (t : option string) (f g : list NodeItem) :
  pruneFrom t (f ++ g) = pruneFrom t f ++ pruneFrom t g.
Proof. unfold pruneFrom. now rewrite filter_app, map_app. Qed.

(** Pruning the id of a node that was just appended undoes the append. *)
Lemma pruneFrom_after_append (c : NodeItem) (i : string) (f : list NodeItem) :
  pruneFrom (Some (id c)) (updateTree f i (appendChild c))
  = pruneFrom (Some (id c)) f.
Proof.
  induction f as [|n rest IHc IHr] using forest_ind; [reflexivity|].
  rewrite updateTree_cons, !pruneFrom_cons, IHr.
  assert (Hk : keeps (Some (id c)) (updateTree_node i (appendChild c) n)
               = keeps (Some (id c)) n).
  { rewrite !keeps_Some. now rewrite id_updateTree_node. }
  rewrite Hk. destruct (keeps (Some (id c)) n); [|reflexivity].
  f_equal. rewrite updateTree_node_eq, !(prune_node_eq _ n).
  destruct (String.eqb (id n) i).
  - rewrite prune_node_eq. cbn [appendChild id label children parentId isCut col row].
    rewrite pruneFrom_app, (pruneFrom_cons _ c []), keeps_Some, String.eqb_refl.
    simpl. now rewrite app_nil_r.
  - rewrite prune_node_eq. cbn [id label children parentId isCut col row].
    now rewrite IHc.
Qed.

(* ------------------------------------------------------------------ *)
(** * What holds of every reachable state *)

Lemma Reachable_run (uuidv4 : nat -> string) (es : list Event) :
  forall s, Reachable uuidv4 s -> Reachable uuidv4 (run uuidv4 s es).
Proof.
  induction es as [|e es IH]; intros s H; [exact H|].
  simpl. apply IH. now constructor.
Qed.

(** *** The root stays on top *)

Lemma rootOnTop_weaken (f : list NodeItem) :
  rootOnTop f -> exists r, f = [r] /\ id r = "root".
Proof. intros [r [H1 [H2 _]]]. eauto. Qed.

Lemma rootOnTop_updateTree (f : list NodeItem) (i : string) (u : NodeItem -> NodeItem) :
  (forall n, id (u n) = id n) ->
  (exists r, f = [r] /\ id r = "root") ->
  exists r, updateTree f i u = [r] /\ id r = "root".
Proof.
  intros Hu [r [-> Hid]]. exists (updateTree_node i u r).
  split; [reflexivity|]. now rewrite id_updateTree_node.
Qed.

Lemma rootOnTop_replace (f : list NodeItem) (i : string) (x : NodeItem) :
  i <> "root" -> rootOnTop f -> rootOnTop (replaceNodeInTree f i x).
Proof.
  intros Hi [r [-> [Hid [Hc Hr]]]].
  exists (replaceNodeInTree_node i x r). split; [reflexivity|].
  rewrite replaceNodeInTree_node_eq.
  destruct (String.eqb_spec (id r) i); [congruence|]. auto.
Qed.

Lemma rootOnTop_prune (f : list NodeItem) (i : string) :
  i <> "root" -> rootOnTop f ->
  exists r, pruneFrom (Some i) f = [r] /\ id r = "root".
Proof.
  intros Hi [r [-> [Hid _]]]. exists (prune_node (Some i) r).
  rewrite pruneFrom_cons, keeps_Some.
  destruct (String.eqb_spec (id r) i); [congruence|].
  split; [reflexivity|]. now rewrite prune_node_eq.
Qed.

Lemma rootOnTop_layout (f : list NodeItem) :
  (exists r, f = [r] /\ id r = "root") ->
  rootOnTop (fst (recalculateLayout f 0 0)).
Proof.
  intros [r [-> Hid]]. exists (fst (layoutNode 0 r 0)).
  rewrite recalculateLayout_cons, layoutNode_eq. cbn [fst snd].
  repeat split. exact Hid.
Qed.


Lemma id_appendChild (c n : NodeItem) : id (appendChild c n) = id n.
Proof. reflexivity. Qed.

Lemma root_invariant (uuidv4 : nat -> string) (s : State) :
  Reachable uuidv4 s ->
  rootOnTop (nodes s) /\
  (forall cb, clipboard s = Some cb -> id (node cb) <> "root").
Proof.
  induction 1 as [|s e HR [Hroot Hcb]].
  - split; [|discriminate]. exists (mkNode "root" RootLabel [] None None 0 0).
    repeat split.
  - destruct e; simpl.
    + destruct (nth_error (flattenTree (nodes s)) k); split; assumption.
    + destruct (menuOpen s); split; assumption.
    + (* cut *)
      destruct (menuOpen s); [|split; assumption].
      unfold handleCut. destruct (contextNode s) as [cn|]; [|split; assumption].
      destruct (String.eqb_spec (id cn) "root") as [E|E]; [split; assumption|].
      cbn [nodes clipboard setContextMenu setClipboard setNodes]. split.
      * apply rootOnTop_replace; [now rewrite id_markCutNodes|assumption].
      * intros cb Hc. injection Hc as <-. cbn [node]. now rewrite id_markCutNodes.
    + (* copy *)
      destruct (menuOpen s); [|split; assumption].
      unfold handleCopy. destruct (contextNode s) as [cn|]; [|split; assumption].
      destruct (String.eqb_spec (id cn) "root") as [E|E]; [split; assumption|].
      cbn [nodes clipboard handleCloseContextMenu setContextMenu setClipboard].
      split; [assumption|]. intros cb Hc. now injection Hc as <-.
    + (* paste *)
      destruct (menuOpen s && negb (pasteDisabled s)); [|split; assumption].
      unfold handlePaste.
      destruct (contextNode s) as [cn|]; [|split; assumption].
      destruct (clipboard s) as [cb|] eqn:Ecb;
        [|split; [assumption|first [assumption|discriminate|congruence]]].
      assert (Hnr : id (node cb) <> "root") by now apply Hcb.
      destruct (String.eqb (id cn) (id (node cb))).
      { split; [assumption|]. intros cb0 Hc. apply Hcb. congruence. }
      destruct (mode cb).
      * cbn [nodes clipboard handleCloseContextMenu setContextMenu
               setClipboard setNodes setUuidCalls].
        split; [|discriminate].
        apply rootOnTop_layout.
        unfold removeFrom. rewrite Ecb. cbn [option_map].
        destruct (rootOnTop_prune (nodes s) (id (node cb)) Hnr Hroot)
          as [r [E Hid]].
        rewrite E.
        apply (rootOnTop_updateTree [r] (id cn) _ (id_appendChild _)).
        exists r. auto.
      * destruct (deepClone uuidv4 (node cb) (uuidCalls s)) as [clone calls].
        cbn [nodes clipboard handleCloseContextMenu setContextMenu
               setClipboard setNodes setUuidCalls].
        split; [|discriminate].
        apply rootOnTop_layout.
        apply (rootOnTop_updateTree _ (id cn) _ (id_appendChild _)).
        now apply rootOnTop_weaken.
    + (* delete *)
      destruct (menuOpen s); cbn [andb]; [|split; assumption].
      unfold deleteDisabled.
      destruct (contextNode s) as [cn|] eqn:Ecn; cbn [negb]; [|split; assumption].
      destruct (String.eqb_spec (id cn) "root") as [E|E];
        cbn [orb negb]; [split; assumption|].
      destruct (0 <? List.length (children cn)); cbn [negb]; [split; assumption|].
      unfold handleDelete, deleteFrom. rewrite Ecn.
      cbn [nodes clipboard handleCloseContextMenu setContextMenu setNodes option_map].
      split; [|assumption].
      apply rootOnTop_layout. now apply rootOnTop_prune.
    + destruct (menuOpen s); split; assumption.
    + destruct (modalOpen s); split; assumption.
    + (* submit *)
      destruct (modalOpen s); [|split; assumption].
      unfold handleModalSubmit.
      destruct (contextNode s) as [cn|]; [|split; assumption].
      destruct (negb (truthy (trim (newLabel s)))); [split; assumption|].
      cbn [nodes clipboard setModalOpen setNewLabel setNodes setUuidCalls].
      split; [|assumption].
      apply rootOnTop_layout.
      apply (rootOnTop_updateTree _ (id cn) _ (id_appendChild _)).
      now apply rootOnTop_weaken.
    + destruct (modalOpen s); split; assumption.
Qed.

(** *** Ids come from the generator *)

Lemma generated_mono (u : nat -> string) (k k' : nat) (i : string) :
  k <= k' -> generated u k i -> generated u k' i.
Proof.
  intros Hk [H|[j [Hj E]]]; [now left|]. right. exists j. split; [lia|exact E].
Qed.

Lemma ids_subtree_incl (f : list NodeItem) (n : NodeItem) :
  In n (flattenTree f) -> forall i, In i (ids [n]) -> In i (ids f).
Proof.
  intros Hn i Hi. destruct (flattenTree_segment f n Hn) as [pre [post E]].
  unfold ids in *. rewrite flattenTree_single in Hi. rewrite E, !map_app.
  apply in_or_app. right. apply in_or_app. now left.
Qed.

Lemma ids_appendChild (c n : NodeItem) :
  ids [appendChild c n] = ids [n] ++ ids [c].
Proof.
  rewrite (ids_single (appendChild c n)), (ids_single n).
  cbn [appendChild id children]. now rewrite ids_app.
Qed.

Lemma ids_updateTree_incl (u : NodeItem -> NodeItem) (i : string)
    (f : list NodeItem) :
  forall j, In j (ids (updateTree f i u)) ->
            In j (ids f) \/
            exists n, In n (flattenTree f) /\ id n = i /\ In j (ids [u n]).
Proof.
  induction f as [|n rest IHc IHr] using forest_ind; intros j Hj.
  - contradiction.
  - rewrite updateTree_cons, ids_cons in Hj. rewrite ids_cons.
    assert (Hrest : In j (ids (updateTree rest i u)) ->
                    In j (id n :: ids (children n) ++ ids rest) \/
                    exists m, In m (flattenTree (n :: rest)) /\ id m = i /\
                              In j (ids [u m])).
    { intros H. destruct (IHr j H) as [H'|[m [Hm [Hid Hin]]]].
      - left. right. apply in_or_app. now right.
      - right. exists m. rewrite flattenTree_cons. repeat split; try assumption.
        right. apply in_or_app. now right. }
    rewrite updateTree_node_eq in Hj.
    destruct (String.eqb_spec (id n) i) as [E|E].
    + destruct Hj as [Hj|Hj].
      * right. exists n. rewrite flattenTree_cons. repeat split.
        -- now left.
        -- exact E.
        -- rewrite ids_single. now left.
      * apply in_app_or in Hj. destruct Hj as [Hj|Hj]; [|now apply Hrest].
        right. exists n. rewrite flattenTree_cons. repeat split.
        -- now left.
        -- exact E.
        -- rewrite ids_single. now right.
    + cbn [id children] in Hj. destruct Hj as [Hj|Hj]; [left; now left|].
      apply in_app_or in Hj. destruct Hj as [Hj|Hj]; [|now apply Hrest].
      destruct (IHc j Hj) as [H'|[m [Hm [Hid Hin]]]].
      * left. right. apply in_or_app. now left.
      * right. exists m. rewrite flattenTree_cons. repeat split; try assumption.
        right. apply in_or_app. now left.
Qed.

(** The ids after appending [c] under [i] are ids of the forest or of [c]. *)
Lemma ids_append_incl (c : NodeItem) (i : string) (f : list NodeItem) (j : string) :
  In j (ids (updateTree f i (appendChild c))) -> In j (ids f) \/ In j (ids [c]).
Proof.
  intros Hj. destruct (ids_updateTree_incl _ _ _ _ Hj) as [H|[n [Hn [_ Hin]]]].
  - now left.
  - rewrite ids_appendChild in Hin. apply in_app_or in Hin.
    destruct Hin as [Hin|Hin]; [left|now right].
    eapply ids_subtree_incl; eassumption.
Qed.

Lemma ids_replace_incl (x : NodeItem) (i : string) (f : list NodeItem) (j : string) :
  In j (ids (replaceNodeInTree f i x)) -> In j (ids f) \/ In j (ids [x]).
Proof.
  rewrite replaceNodeInTree_updateTree. intros Hj.
  destruct (ids_updateTree_incl _ _ _ _ Hj) as [H|[n [_ [_ Hin]]]]; auto.
Qed.

Section Generated.
Variable uuidv4 : nat -> string.

Lemma idsGenerated_ext (s s' : State) :
  nodes s' = nodes s -> contextNode s' = contextNode s ->
  clipboard s' = clipboard s -> uuidCalls s' = uuidCalls s ->
  idsGenerated uuidv4 s -> idsGenerated uuidv4 s'.
Proof.
  unfold idsGenerated. intros -> -> -> ->. auto.
Qed.

Lemma idsGenerated_handleRightClick (s : State) (n : NodeItem) (x y : Z) :
  In n (flattenTree (nodes s)) ->
  idsGenerated uuidv4 s -> idsGenerated uuidv4 (handleRightClick n x y s).
Proof.
  intros Hn [H1 [H2 H3]]. split; [|split].
  - exact H1.
  - intros cn E i Hi. injection E as <-. apply H1.
    eapply ids_subtree_incl; eassumption.
  - exact H3.
Qed.

Lemma idsGenerated_handleCut (s : State) :
  idsGenerated uuidv4 s -> idsGenerated uuidv4 (handleCut s).
Proof.
  intros G. pose proof G as [H1 [H2 H3]]. unfold handleCut.
  destruct (contextNode s) as [cn|] eqn:Ecn; [|exact G].
  destruct (String.eqb (id cn) "root"); [exact G|].
  assert (Hm : forall i, In i (ids [markCutNodes cn]) ->
                         generated uuidv4 (uuidCalls s) i).
  { intros i Hi. rewrite ids_markCutNodes_node in Hi. now apply (H2 cn). }
  split; [|split]; cbn [nodes contextNode clipboard uuidCalls setContextMenu
                          setClipboard setNodes].
  - intros i Hi. apply ids_replace_incl in Hi. destruct Hi; auto.
  - rewrite Ecn. exact H2.
  - intros cb E. injection E as <-. exact Hm.
Qed.

Lemma idsGenerated_handleCopy (s : State) :
  idsGenerated uuidv4 s -> idsGenerated uuidv4 (handleCopy s).
Proof.
  intros G. pose proof G as [H1 [H2 H3]]. unfold handleCopy.
  destruct (contextNode s) as [cn|] eqn:Ecn; [|exact G].
  destruct (String.eqb (id cn) "root"); [exact G|].
  split; [|split]; cbn [nodes contextNode clipboard uuidCalls
                          handleCloseContextMenu setContextMenu setClipboard].
  - exact H1.
  - rewrite Ecn. exact H2.
  - intros cb E. injection E as <-. now apply (H2 cn).
Qed.

Lemma idsGenerated_handleDelete (s : State) :
  idsGenerated uuidv4 s -> idsGenerated uuidv4 (handleDelete s).
Proof.
  intros [H1 [H2 H3]]. unfold handleDelete.
  split; [|split]; cbn [nodes contextNode clipboard uuidCalls
                          handleCloseContextMenu setContextMenu setNodes].
  - intros i Hi. rewrite ids_recalculateLayout in Hi.
    apply pruneFrom_ids_incl in Hi. auto.
  - exact H2.
  - exact H3.
Qed.

Lemma idsGenerated_handleModalSubmit (s : State) :
  idsGenerated uuidv4 s -> idsGenerated uuidv4 (handleModalSubmit uuidv4 s).
Proof.
  intros G. pose proof G as [H1 [H2 H3]]. unfold handleModalSubmit.
  destruct (contextNode s) as [cn|] eqn:Ecn; [|exact G].
  destruct (negb (truthy (trim (newLabel s)))); [exact G|].
  assert (Hm : forall i, generated uuidv4 (uuidCalls s) i ->
                         generated uuidv4 (S (uuidCalls s)) i).
  { intros i. apply generated_mono. lia. }
  split; [|split]; cbn [nodes contextNode clipboard uuidCalls setModalOpen
                          setNewLabel setNodes setUuidCalls].
  - intros i Hi. rewrite ids_recalculateLayout in Hi.
    apply ids_append_incl in Hi. destruct Hi as [Hi|Hi]; [auto|].
    rewrite ids_single in Hi. simpl in Hi. destruct Hi as [<-|[]].
    right. exists (uuidCalls s). split; [lia|reflexivity].
  - rewrite Ecn. intros cn0 E i Hi. apply Hm. eapply H2; eassumption.
  - intros cb E i Hi. apply Hm. eapply H3; eassumption.
Qed.

Lemma idsGenerated_handlePaste (s : State) :
  idsGenerated uuidv4 s -> idsGenerated uuidv4 (handlePaste uuidv4 s).
Proof.
  intros G. pose proof G as [H1 [H2 H3]]. unfold handlePaste.
  destruct (contextNode s) as [cn|] eqn:Ecn; [|exact G].
  destruct (clipboard s) as [cb|] eqn:Ecb; [|exact G].
  destruct (String.eqb (id cn) (id (node cb))); [exact G|].
  destruct (mode cb).
  - (* cut *)
    split; [|split]; cbn [nodes contextNode clipboard uuidCalls
                            handleCloseContextMenu setContextMenu setClipboard
                            setNodes setUuidCalls].
    + intros i Hi. rewrite ids_recalculateLayout in Hi.
      apply ids_append_incl in Hi. destruct Hi as [Hi|Hi].
      * apply pruneFrom_ids_incl in Hi. auto.
      * rewrite ids_clearCutFlags_node in Hi. now apply (H3 cb).
    + rewrite Ecn. exact H2.
    + discriminate.
  - (* copy *)
    destruct (deepClone_spec uuidv4 (node cb) (uuidCalls s)) as [_ [Hids [Hc _]]].
    cbv zeta in Hids, Hc.
    destruct (deepClone uuidv4 (node cb) (uuidCalls s)) as [clone calls].
    cbn [fst snd] in Hids, Hc. subst calls.
    assert (Hm : forall i, generated uuidv4 (uuidCalls s) i ->
                           generated uuidv4
                             (uuidCalls s + List.length (walk (node cb))) i).
    { intros i. apply generated_mono. lia. }
    split; [|split]; cbn [nodes contextNode clipboard uuidCalls
                            handleCloseContextMenu setContextMenu setClipboard
                            setNodes setUuidCalls].
    + intros i Hi. rewrite ids_recalculateLayout in Hi.
      apply ids_append_incl in Hi. destruct Hi as [Hi|Hi]; [auto|].
      rewrite Hids in Hi. apply in_map_iff in Hi. destruct Hi as [j [<- Hj]].
      apply in_seq in Hj. right. exists j. split; [lia|reflexivity].
    + rewrite Ecn. intros cn0 E i Hi. apply Hm. eapply H2; eassumption.
    + discriminate.
Qed.

Lemma idsGenerated_Reachable (s : State) :
  Reachable uuidv4 s -> idsGenerated uuidv4 s.
Proof.
  induction 1 as [|s e HR G].
  - split; [|split]; try discriminate.
    intros i Hi. left. vm_compute in Hi. destruct Hi as [<-|[]]. reflexivity.
  - destruct e; simpl.
    + destruct (nth_error (flattenTree (nodes s)) k) as [n|] eqn:E; [|exact G].
      apply idsGenerated_handleRightClick; [|exact G].
      eapply nth_error_In; eassumption.
    + destruct (menuOpen s); [|exact G].
      eapply idsGenerated_ext; [| | | |exact G]; reflexivity.
    + destruct (menuOpen s); [|exact G]. now apply idsGenerated_handleCut.
    + destruct (menuOpen s); [|exact G]. now apply idsGenerated_handleCopy.
    + destruct (menuOpen s && negb (pasteDisabled s)); [|exact G].
      now apply idsGenerated_handlePaste.
    + destruct (menuOpen s && negb (deleteDisabled s)); [|exact G].
      now apply idsGenerated_handleDelete.
    + destruct (menuOpen s); [|exact G].
      eapply idsGenerated_ext; [| | | |exact G]; reflexivity.
    + destruct (modalOpen s); [|exact G].
      eapply idsGenerated_ext; [| | | |exact G]; reflexivity.
    + destruct (modalOpen s); [|exact G].
      now apply idsGenerated_handleModalSubmit.
    + destruct (modalOpen s); [|exact G].
      eapply idsGenerated_ext; [| | | |exact G]; reflexivity.
Qed.

End Generated.

(** *** Ids stay unique *)

Lemma ids_cons_single (n : NodeItem) (f : list NodeItem) :
  ids (n :: f) = ids [n] ++ ids f.
Proof. now rewrite ids_cons, ids_single. Qed.

Lemma pruneFrom_unique (t : option string) (f : list NodeItem) :
  uniqueIds f -> uniqueIds (pruneFrom t f).
Proof.
  induction f as [|a rest IHc IHr] using forest_ind; intros Hu.
  - constructor.
  - destruct (uniqueIds_cons_inv _ _ Hu) as [Ha1 [Ha2 [Huc [Hur Hdisj]]]].
    rewrite pruneFrom_cons. destruct (keeps t a); [|now apply IHr].
    unfold uniqueIds. rewrite ids_cons, prune_node_eq. cbn [id children].
    constructor.
    + intros Hin. apply in_app_or in Hin.
      destruct Hin as [H|H]; apply pruneFrom_ids_incl in H; contradiction.
    + apply NoDup_app; [now apply IHc|now apply IHr|].
      intros x Hx Hy. apply pruneFrom_ids_incl in Hx, Hy. exact (Hdisj x Hx Hy).
Qed.

(** An id that survives the pruning survives inside the node it was in. *)
Lemma pruneFrom_keeps (t : option string) (f : list NodeItem) :
  uniqueIds f ->
  forall M i, In M (flattenTree f) -> In i (ids [M]) ->
              In i (ids (pruneFrom t f)) ->
              exists M', In M' (flattenTree (pruneFrom t f)) /\
                         id M' = id M /\ In i (ids [M']).
Proof.
  induction f as [|a rest IHc IHr] using forest_ind; intros Hu M i HM Hi Hp.
  - contradiction.
  - destruct (uniqueIds_cons_inv _ _ Hu) as [Ha1 [Ha2 [Huc [Hur Hdisj]]]].
    rewrite flattenTree_cons in HM. rewrite pruneFrom_cons in *.
    assert (Hrest : In i (ids (pruneFrom t rest)) -> In i (ids rest))
      by apply pruneFrom_ids_incl.
    assert (Hch : In i (ids (pruneFrom t (children a))) -> In i (ids (children a)))
      by apply pruneFrom_ids_incl.
    destruct HM as [<-|HM]; [|apply in_app_or in HM; destruct HM as [HM|HM]].
    + (* the node is the first tree *)
      rewrite ids_single in Hi.
      assert (Hnr : ~ In i (ids rest)).
      { destruct Hi as [<-|Hi]; [exact Ha2|exact (Hdisj i Hi)]. }
      destruct (keeps t a).
      * exists (prune_node t a).
        rewrite flattenTree_cons. split; [now left|].
        rewrite prune_node_eq. split; [reflexivity|].
        rewrite ids_cons, prune_node_eq in Hp. cbn [id children] in Hp.
        rewrite ids_single. cbn [id children].
        destruct Hp as [Hp|Hp]; [now left|].
        apply in_app_or in Hp. destruct Hp as [Hp|Hp]; [now right|].
        exfalso. auto.
      * exfalso. auto.
    + (* the node is below the first tree *)
      assert (Hic : In i (ids (children a)))
        by (eapply ids_subtree_incl; eassumption).
      assert (Hnr : ~ In i (ids rest)) by exact (Hdisj i Hic).
      destruct (keeps t a); [|exfalso; auto].
      rewrite ids_cons, prune_node_eq in Hp. cbn [id children] in Hp.
      destruct Hp as [Hp|Hp]; [exfalso; apply Ha1; now rewrite Hp|].
      apply in_app_or in Hp. destruct Hp as [Hp|Hp]; [|exfalso; auto].
      destruct (IHc Huc M i HM Hi Hp) as [M' [H1 [H2 H3]]].
      exists M'. split; [|auto].
      rewrite flattenTree_cons, prune_node_eq. cbn [children].
      right. apply in_or_app. now left.
    + (* the node is in a later tree *)
      assert (Hir : In i (ids rest))
        by (eapply ids_subtree_incl; eassumption).
      assert (Hp' : In i (ids (pruneFrom t rest))).
      { destruct (keeps t a); [|exact Hp].
        rewrite ids_cons, prune_node_eq in Hp. cbn [id children] in Hp.
        destruct Hp as [Hp|Hp]; [exfalso; apply Ha2; now rewrite Hp|].
        apply in_app_or in Hp. destruct Hp as [Hp|Hp]; [|exact Hp].
        exfalso. exact (Hdisj i (Hch Hp) Hir). }
      destruct (IHr Hur M i HM Hi Hp') as [M' [H1 [H2 H3]]].
      exists M'. split; [|auto].
      destruct (keeps t a); [|exact H1].
      rewrite flattenTree_cons. right. apply in_or_app. now right.
Qed.

(** Replacing the node that has the id of [M]: its segment of the
    traversal is exchanged for that of the new node. *)
Lemma replace_ids (X : NodeItem) (f : list NodeItem) :
  forall M, uniqueIds f -> In M (flattenTree f) ->
    exists pre post,
      ids f = pre ++ ids [M] ++ post /\
      ids (updateTree f (id M) (fun _ => X)) = pre ++ ids [X] ++ post /\
      In X (flattenTree (updateTree f (id M) (fun _ => X))).
Proof.
  induction f as [|a rest IHc IHr] using forest_ind; intros M Hu HM.
  - contradiction.
  - destruct (uniqueIds_cons_inv _ _ Hu) as [Ha1 [Ha2 [Huc [Hur Hdisj]]]].
    rewrite flattenTree_cons in HM. simpl in HM.
    rewrite updateTree_cons, updateTree_node_eq.
    destruct HM as [<-|HM].
    + rewrite String.eqb_refl, (updateTree_absent rest (id a) _ Ha2).
      exists [], (ids rest).
      rewrite (ids_cons_single a rest), (ids_cons_single X rest).
      repeat split. rewrite flattenTree_cons. now left.
    + apply in_app_or in HM. destruct HM as [HM|HM].
      * pose proof (In_ids _ _ HM) as Hin.
        destruct (String.eqb_spec (id a) (id M)) as [E|E].
        { exfalso. apply Ha1. now rewrite E. }
        rewrite (updateTree_absent rest (id M) _ (Hdisj _ Hin)).
        destruct (IHc M Huc HM) as [pre [post [E1 [E2 HX]]]].
        exists (id a :: pre), (post ++ ids rest).
        rewrite (ids_cons a), (ids_cons (mkNode _ _ _ _ _ _ _)).
        cbn [id children]. rewrite E1, E2. repeat split; try same_app.
        rewrite flattenTree_cons. right. apply in_or_app. now left.
      * pose proof (In_ids _ _ HM) as Hin.
        destruct (String.eqb_spec (id a) (id M)) as [E|E].
        { exfalso. apply Ha2. now rewrite E. }
        assert (Hc : ~ In (id M) (ids (children a))).
        { intros Hc. exact (Hdisj _ Hc Hin). }
        rewrite (updateTree_absent _ _ _ Hc), <- node_eta.
        destruct (IHr M Hur HM) as [pre [post [E1 [E2 HX]]]].
        exists (id a :: ids (children a) ++ pre), post.
        rewrite !(ids_cons a), E1, E2. repeat split; try same_app.
        rewrite flattenTree_cons. right. apply in_or_app. now right.
Qed.

Lemma NoDup_replace_segment (A : Type) (pre X Y post : list A) :
  NoDup (pre ++ Y ++ post) -> NoDup X -> (forall a, In a X -> In a Y) ->
  NoDup (pre ++ X ++ post).
Proof.
  intros H HX Hincl.
  destruct (NoDup_remove_segment _ _ _ _ H) as [Hpp Hdisj].
  destruct (NoDup_app_inv _ _ _ Hpp) as [Hpre [Hpost Hd]].
  apply NoDup_app; [exact Hpre| |].
  - apply NoDup_app; [exact HX|exact Hpost|].
    intros a Ha Hb. apply (Hdisj a (Hincl a Ha)). apply in_or_app. now right.
  - intros a Ha Hb. apply in_app_or in Hb. destruct Hb as [Hb|Hb].
    + apply (Hdisj a (Hincl a Hb)). apply in_or_app. now left.
    + exact (Hd a Ha Hb).
Qed.

(** Appending only adds ids, and every subtree can only grow. *)
Lemma append_keeps_ids (c : NodeItem) (i : string) (f : list NodeItem) :
  forall j, In j (ids f) -> In j (ids (updateTree f i (appendChild c))).
Proof.
  induction f as [|a rest IHc IHr] using forest_ind; intros j Hj.
  - contradiction.
  - rewrite ids_cons in Hj. rewrite updateTree_cons, ids_cons.
    rewrite id_updateTree_node by reflexivity.
    destruct Hj as [Hj|Hj]; [now left|right].
    apply in_or_app. apply in_app_or in Hj.
    destruct Hj as [Hj|Hj]; [left|right; now apply IHr].
    rewrite updateTree_node_eq. destruct (String.eqb (id a) i).
    + cbn [appendChild children]. rewrite ids_app. apply in_or_app. now left.
    + cbn [children]. now apply IHc.
Qed.

Lemma append_grows (c : NodeItem) (i : string) (f : list NodeItem) :
  forall M, In M (flattenTree f) ->
    exists M', In M' (flattenTree (updateTree f i (appendChild c))) /\
               id M' = id M /\
               forall j, In j (ids [M]) -> In j (ids [M']).
Proof.
  induction f as [|a rest IHc IHr] using forest_ind; intros M HM.
  - contradiction.
  - rewrite flattenTree_cons in HM. rewrite updateTree_cons, flattenTree_cons.
    destruct HM as [<-|HM]; [|apply in_app_or in HM; destruct HM as [HM|HM]].
    + exists (updateTree_node i (appendChild c) a).
      split; [now left|]. split; [now apply id_updateTree_node|].
      intros j Hj. rewrite updateTree_node_eq.
      destruct (String.eqb (id a) i).
      * rewrite ids_appendChild. apply in_or_app. now left.
      * rewrite ids_single in *. cbn [id children].
        destruct Hj as [Hj|Hj]; [now left|right].
        now apply append_keeps_ids.
    + rewrite updateTree_node_eq. destruct (String.eqb (id a) i).
      * exists M. split; [|auto]. right. apply in_or_app. left.
        cbn [appendChild children]. rewrite flattenTree_app.
        apply in_or_app. now left.
      * destruct (IHc M HM) as [M' [H1 [H2 H3]]].
        exists M'. split; [|auto]. right. apply in_or_app. left. exact H1.
    + destruct (IHr M HM) as [M' [H1 [H2 H3]]].
      exists M'. split; [|auto]. right. apply in_or_app. now right.
Qed.

Lemma recalculateLayout_has (f : list NodeItem) (r c : nat) (M : NodeItem) :
  In M (flattenTree f) ->
  exists M', In M' (flattenTree (fst (recalculateLayout f r c))) /\
             id M' = id M /\ ids [M'] = ids [M].
Proof.
  intros HM. destruct (recalculateLayout_In f r c M HM) as [M' [H1 H2]].
  exists M'. split; [exact H1|]. split.
  - now destruct (eraseLayout_children _ _ H2).
  - now apply ids_eq_single.
Qed.

Lemma NoDup_map_injective (A B : Type) (g : A -> B) (l : list A) :
  (forall x y, g x = g y -> x = y) -> NoDup l -> NoDup (map g l).
Proof.
  intros Hg. induction 1 as [|x l Hx Hl IH]; simpl; constructor; [|exact IH].
  intros Hin. apply in_map_iff in Hin. destruct Hin as [y [E Hy]].
  apply Hg in E. now subst y.
Qed.

Lemma unique_append (c : NodeItem) (i : string) (f : list NodeItem) :
  uniqueIds f -> uniqueIds [c] ->
  (forall j, In j (ids f) -> ~ In j (ids [c])) ->
  uniqueIds (updateTree f i (appendChild c)).
Proof.
  intros Hu Hc Hd. destruct (in_dec string_dec i (ids f)) as [Hi|Hi].
  - now apply updateTree_appendChild_unique.
  - now rewrite updateTree_absent.
Qed.

Lemma subSnapshot_layout (S : NodeItem) (f : list NodeItem) (r c : nat) :
  subSnapshot S f -> subSnapshot S (fst (recalculateLayout f r c)).
Proof.
  intros [Hu [M [HM [Hid Hincl]]]]. split; [exact Hu|].
  destruct (recalculateLayout_has f r c M HM) as [M' [H1 [H2 H3]]].
  exists M'. split; [exact H1|]. split; [congruence|].
  intros i Hi. rewrite H3. now apply Hincl.
Qed.

Lemma cutSnapshot_layout (S : NodeItem) (f : list NodeItem) (r c : nat) :
  cutSnapshot S f -> cutSnapshot S (fst (recalculateLayout f r c)).
Proof.
  intros [Hu H]. split; [exact Hu|]. intros i Hi Hf.
  rewrite ids_recalculateLayout in Hf.
  destruct (H i Hi Hf) as [M [HM [Hid Hin]]].
  destruct (recalculateLayout_has f r c M HM) as [M' [H1 [H2 H3]]].
  exists M'. split; [exact H1|]. split; [congruence|]. now rewrite H3.
Qed.

Lemma subSnapshot_append (S c : NodeItem) (i : string) (f : list NodeItem) :
  subSnapshot S f -> subSnapshot S (updateTree f i (appendChild c)).
Proof.
  intros [Hu [M [HM [Hid Hincl]]]]. split; [exact Hu|].
  destruct (append_grows c i f M HM) as [M' [H1 [H2 H3]]].
  exists M'. split; [exact H1|]. split; [congruence|]. auto.
Qed.

Lemma cutSnapshot_append (S c : NodeItem) (i : string) (f : list NodeItem) :
  (forall j, In j (ids [c]) -> ~ In j (ids [S])) ->
  cutSnapshot S f -> cutSnapshot S (updateTree f i (appendChild c)).
Proof.
  intros Hfresh [Hu H]. split; [exact Hu|]. intros j Hj Hf.
  apply ids_append_incl in Hf. destruct Hf as [Hf|Hf].
  - destruct (H j Hj Hf) as [M [HM [Hid Hin]]].
    destruct (append_grows c i f M HM) as [M' [H1 [H2 H3]]].
    exists M'. split; [exact H1|]. split; [congruence|]. auto.
  - exfalso. exact (Hfresh j Hf Hj).
Qed.

Lemma cutSnapshot_prune (S : NodeItem) (t : option string) (f : list NodeItem) :
  uniqueIds f -> cutSnapshot S f -> cutSnapshot S (pruneFrom t f).
Proof.
  intros Huf [Hu H]. split; [exact Hu|]. intros j Hj Hf.
  destruct (H j Hj (pruneFrom_ids_incl t f j Hf)) as [M [HM [Hid Hin]]].
  destruct (pruneFrom_keeps t f Huf M j HM Hin Hf) as [M' [H1 [H2 H3]]].
  exists M'. split; [exact H1|]. split; [congruence|exact H3].
Qed.

(** The ids of a node that was cut are gone once its id is pruned. *)
Lemma cutSnapshot_pruned (S : NodeItem) (f : list NodeItem) :
  uniqueIds f -> cutSnapshot S f ->
  forall j, In j (ids (pruneFrom (Some (id S)) f)) -> ~ In j (ids [S]).
Proof.
  intros Huf [Hu H] j Hp Hj.
  destruct (H j Hj (pruneFrom_ids_incl _ f j Hp)) as [M [HM [Hid Hin]]].
  destruct (pruneFrom_ids f M Huf HM) as [pre [post [E1 E2]]].
  assert (Hseg : NoDup (pre ++ ids [M] ++ post)) by (rewrite <- E1; exact Huf).
  destruct (NoDup_remove_segment _ _ _ _ Hseg) as [_ Hdisj].
  apply (Hdisj j Hin). rewrite <- E2, Hid. exact Hp.
Qed.

Section Unique.
Variable uuidv4 : nat -> string.
Hypothesis uuidv4_injective : forall j k, uuidv4 j = uuidv4 k -> j = k.
Hypothesis uuidv4_not_root : forall k, uuidv4 k <> "root".

Lemma generated_fresh (k m : nat) (i : string) :
  generated uuidv4 k i -> k <= m -> i <> uuidv4 m.
Proof.
  intros [E|[j [Hj E]]] Hm Hi.
  - apply (uuidv4_not_root m). congruence.
  - rewrite E in Hi. apply uuidv4_injective in Hi. lia.
Qed.

Lemma uniqueState_handleRightClick (s : State) (n : NodeItem) (x y : Z) :
  In n (flattenTree (nodes s)) ->
  uniqueState s -> uniqueState (handleRightClick n x y s).
Proof.
  intros Hn [Ha [Hb Hc]]. split; [exact Ha|]. split; [|exact Hc].
  intros _ cn E. injection E as <-. split.
  - eapply uniqueIds_subtree; eassumption.
  - exists n. auto.
Qed.

Lemma uniqueState_menu_closed (s s' : State) :
  nodes s' = nodes s -> clipboard s' = clipboard s -> menuOpen s' = false ->
  uniqueState s -> uniqueState s'.
Proof.
  intros En Ec Em [Ha [Hb Hc]]. unfold uniqueState.
  rewrite En, Ec, Em. split; [exact Ha|]. split; [discriminate|exact Hc].
Qed.

Lemma uniqueState_same_menu (s s' : State) :
  nodes s' = nodes s -> clipboard s' = clipboard s ->
  contextNode s' = contextNode s -> contextMenu s' = contextMenu s ->
  uniqueState s -> uniqueState s'.
Proof.
  intros En Ec Ecn Em U. unfold uniqueState, menuOpen in *.
  now rewrite En, Ec, Ecn, Em.
Qed.

Lemma uniqueState_handleCut (s : State) :
  menuOpen s = true -> uniqueState s -> uniqueState (handleCut s).
Proof.
  intros Hopen U. pose proof U as [Ha [Hb Hc]]. unfold handleCut.
  destruct (contextNode s) as [cn|] eqn:Ecn; [|exact U].
  destruct (String.eqb (id cn) "root"); [exact U|].
  destruct (Hb Hopen cn eq_refl) as [Hucn [M [HM [Hid Hincl]]]].
  rewrite id_markCutNodes, replaceNodeInTree_updateTree, <- Hid.
  destruct (replace_ids (markCutNodes cn) (nodes s) M Ha HM)
    as [pre [post [E1 [E2 HX]]]].
  split; [|split]; cbn [nodes contextNode clipboard setContextMenu
                          setClipboard setNodes].
  - unfold uniqueIds. rewrite E2.
    apply NoDup_replace_segment with (Y := ids [M]).
    + rewrite <- E1. exact Ha.
    + rewrite ids_markCutNodes_node. exact Hucn.
    + intros a Ha'. rewrite ids_markCutNodes_node in Ha'. now apply Hincl.
  - intros H. discriminate H.
  - intros cb E _. injection E as <-. cbn [node]. split.
    + unfold uniqueIds. rewrite ids_markCutNodes_node. exact Hucn.
    + intros i Hi _. exists (markCutNodes cn).
      split; [exact HX|]. split; [reflexivity|exact Hi].
Qed.

Lemma uniqueState_handleCopy (s : State) :
  uniqueState s -> uniqueState (handleCopy s).
Proof.
  intros U. pose proof U as [Ha [Hb Hc]]. unfold handleCopy.
  destruct (contextNode s) as [cn|] eqn:Ecn; [|exact U].
  destruct (String.eqb (id cn) "root"); [exact U|].
  split; [exact Ha|]. split.
  - intros H. discriminate H.
  - intros cb E Hm. injection E as <-. discriminate Hm.
Qed.

Lemma uniqueState_handleDelete (s : State) :
  uniqueState s -> uniqueState (handleDelete s).
Proof.
  intros [Ha [Hb Hc]]. unfold handleDelete, deleteFrom.
  split; [|split]; cbn [nodes contextNode clipboard handleCloseContextMenu
                          setContextMenu setNodes].
  - unfold uniqueIds. rewrite ids_recalculateLayout. now apply pruneFrom_unique.
  - intros H. discriminate H.
  - intros cb E Hm. apply cutSnapshot_layout, cutSnapshot_prune; auto.
Qed.

Lemma uniqueState_handleModalSubmit (s : State) :
  idsGenerated uuidv4 s -> uniqueState s ->
  uniqueState (handleModalSubmit uuidv4 s).
Proof.
  intros [G1 [G2 G3]] U. pose proof U as [Ha [Hb Hc]]. unfold handleModalSubmit.
  destruct (contextNode s) as [cn|] eqn:Ecn; [|exact U].
  destruct (negb (truthy (trim (newLabel s)))); [exact U|].
  set (c := mkNode (uuidv4 (uuidCalls s)) (newLabel s) [] (Some (id cn)) None 0 0).
  assert (Hidc : ids [c] = [uuidv4 (uuidCalls s)]) by (now rewrite ids_single).
  split; [|split]; cbn [nodes contextNode clipboard setModalOpen setNewLabel
                          setNodes setUuidCalls].
  - unfold uniqueIds. rewrite ids_recalculateLayout. apply unique_append.
    + exact Ha.
    + unfold uniqueIds. rewrite Hidc. constructor; [intros []|constructor].
    + intros j Hj Hin. rewrite Hidc in Hin. destruct Hin as [<-|[]].
      exact (generated_fresh _ (uuidCalls s) _ (G1 _ Hj) (le_n _) eq_refl).
  - intros Hopen cn0 E. rewrite Ecn in E. injection E as <-.
    apply subSnapshot_layout, subSnapshot_append.
    apply Hb; [exact Hopen|reflexivity].
  - intros cb E Hm. apply cutSnapshot_layout, cutSnapshot_append; [|now apply Hc].
    intros j Hj Hin. rewrite Hidc in Hj. destruct Hj as [<-|[]].
    exact (generated_fresh _ (uuidCalls s) _ (G3 cb E _ Hin) (le_n _) eq_refl).
Qed.

Lemma uniqueState_handlePaste (s : State) :
  idsGenerated uuidv4 s -> uniqueState s ->
  uniqueState (handlePaste uuidv4 s).
Proof.
  intros [G1 [G2 G3]] U. pose proof U as [Ha [Hb Hc]]. unfold handlePaste.
  destruct (contextNode s) as [cn|] eqn:Ecn; [|exact U].
  destruct (clipboard s) as [cb|] eqn:Ecb; [|exact U].
  destruct (String.eqb (id cn) (id (node cb))); [exact U|].
  destruct (mode cb) eqn:Em.
  - (* cut *)
    destruct (Hc cb eq_refl Em) as [HuS HS].
    split; [|split]; cbn [nodes contextNode clipboard handleCloseContextMenu
                            setContextMenu setClipboard setNodes setUuidCalls].
    + unfold uniqueIds. rewrite ids_recalculateLayout. apply unique_append.
      * unfold removeFrom. now apply pruneFrom_unique.
      * unfold uniqueIds. now rewrite ids_clearCutFlags_node.
      * intros j Hj. rewrite ids_clearCutFlags_node.
        unfold removeFrom in Hj. rewrite Ecb in Hj. cbn [option_map] in Hj.
        apply (cutSnapshot_pruned (node cb) (nodes s) Ha); [|exact Hj].
        split; assumption.
    + intros H. discriminate H.
    + discriminate.
  - (* copy *)
    destruct (deepClone_spec uuidv4 (node cb) (uuidCalls s)) as [_ [Hids _]].
    cbv zeta in Hids.
    destruct (deepClone uuidv4 (node cb) (uuidCalls s)) as [clone calls].
    cbn [fst] in Hids.
    split; [|split]; cbn [nodes contextNode clipboard handleCloseContextMenu
                            setContextMenu setClipboard setNodes setUuidCalls].
    + unfold uniqueIds. rewrite ids_recalculateLayout. apply unique_append.
      * exact Ha.
      * unfold uniqueIds. rewrite Hids.
        apply NoDup_map_injective; [exact uuidv4_injective|apply seq_NoDup].
      * intros j Hj Hin. rewrite Hids in Hin. apply in_map_iff in Hin.
        destruct Hin as [m [E Hm]]. apply in_seq in Hm.
        apply (generated_fresh (uuidCalls s) m j (G1 _ Hj)); [lia|congruence].
    + intros H. discriminate H.
    + discriminate.
Qed.

Lemma uniqueState_Reachable (s : State) :
  Reachable uuidv4 s -> uniqueState s.
Proof.
  induction 1 as [|s e HR U].
  - split; [|split]; try discriminate.
    unfold uniqueIds. apply distinctb_NoDup. reflexivity.
  - pose proof (idsGenerated_Reachable uuidv4 s HR) as G.
    destruct e; simpl.
    + destruct (nth_error (flattenTree (nodes s)) k) as [n|] eqn:E; [|exact U].
      apply uniqueState_handleRightClick; [|exact U].
      eapply nth_error_In; eassumption.
    + destruct (menuOpen s); [|exact U].
      eapply uniqueState_menu_closed; [| | |exact U]; reflexivity.
    + destruct (menuOpen s) eqn:Hopen; [|exact U].
      now apply uniqueState_handleCut.
    + destruct (menuOpen s); [|exact U]. now apply uniqueState_handleCopy.
    + destruct (menuOpen s && negb (pasteDisabled s)); [|exact U].
      now apply uniqueState_handlePaste.
    + destruct (menuOpen s && negb (deleteDisabled s)); [|exact U].
      now apply uniqueState_handleDelete.
    + destruct (menuOpen s); [|exact U].
      eapply uniqueState_menu_closed; [| | |exact U]; reflexivity.
    + destruct (modalOpen s); [|exact U].
      eapply uniqueState_same_menu; [| | | |exact U]; reflexivity.
    + destruct (modalOpen s); [|exact U].
      now apply uniqueState_handleModalSubmit.
    + destruct (modalOpen s); [|exact U].
      eapply uniqueState_same_menu; [| | | |exact U]; reflexivity.
Qed.

End Unique.

(* ------------------------------------------------------------------ *)
(** * The claims *)

(** C2 (as amended for [page.tsx]).  After [recalculateLayout] every
    descendant's row is at least its ancestor's row; the first child of a
    node shares the node's row and the subtrees of its later children lie
    strictly below; sibling subtrees, at the top and under every node,
    occupy disjoint row ranges; the row counter advances by one per leaf:
    the leaves, in pre-order, take the rows [startRow], [startRow + 1],
    ... and the pass returns [startRow] plus the number of leaves. *)
Theorem recalculateLayout_rows :
  forall (f : list NodeItem) (startRow c : nat),
    let f' := fst (recalculateLayout f startRow c) in
    (forall n m, In n (flattenTree f') -> In m (flattenTree (children n)) ->
                 row n <= row m) /\
    (forall n x rest, In n (flattenTree f') -> children n = x :: rest ->
                      row x = row n /\
                      Forall (fun m => row n < row m) (flattenTree rest)) /\
    siblingsDisjoint f' /\
    (forall n, In n (flattenTree f') -> siblingsDisjoint (children n)) /\
    map row (filter isLeaf (flattenTree f')) = seq startRow (leaves f) /\
    snd (recalculateLayout f startRow c) = startRow + leaves f.
Proof.
  intros f r c f'.
  pose proof (recalculateLayout_Laid f r c) as HL. fold f' in HL.
  assert (Hlv : leaves f' = leaves f).
  { rewrite <- (leaves_eraseLayout f'), <- (leaves_eraseLayout f).
    unfold f'. now rewrite eraseLayout_recalculateLayout. }
  repeat split.
  - intros n m Hn Hm. pose proof (Laid_descendants _ _ _ _ _ HL n m Hn Hm). lia.
  - eapply Laid0_first_child; eassumption.
  - eapply Laid0_first_child; eassumption.
  - eapply Laid_siblingsDisjoint; eassumption.
  - eapply Laid_siblingsDisjoint_children; eassumption.
  - rewrite <- Hlv. eapply Laid0_leaf_rows; eassumption.
  - rewrite <- Hlv. eapply Laid0_next; eassumption.
Qed.

(** C2 fails as stated on [page.tsx]: the first child added under the
    root is laid out on row 0, the row of the root. *)
Lemma first_child_of_root_on_row_0 :
  nodes rootWithA = fst (recalculateLayout (nodes rootWithA) 0 0) /\
  row (box rootWithA 0) = 0 /\
  In (box rootWithA 1) (children (box rootWithA 0)) /\
  row (box rootWithA 1) = 0 /\
  ~ descendantsStrictlyBelow (nodes rootWithA).
Proof.
  repeat split; try reflexivity.
  - now left.
  - intros H.
    specialize (H (box rootWithA 0) (box rootWithA 1)).
    assert (row (box rootWithA 0) < row (box rootWithA 1)) as Hlt.
    { apply H; vm_compute; auto. }
    vm_compute in Hlt. lia.
Qed.

(** X9.  The variant [src/unnamed/part_000] lays the children out one row below
    their parent, and C2 holds of it as stated: rows grow strictly towards
    the descendants, sibling subtrees are disjoint, and the nodes take the
    rows [startRow], [startRow + 1], ... in pre-order. *)
Theorem Part000_recalculateLayout_rows :
  forall (f : list NodeItem) (startRow c : nat),
    let f' := fst (Part000.recalculateLayout f startRow c) in
    descendantsStrictlyBelow f' /\
    siblingsDisjoint f' /\
    (forall n, In n (flattenTree f') -> siblingsDisjoint (children n)) /\
    map row (flattenTree f') = seq startRow (List.length (flattenTree f)) /\
    snd (Part000.recalculateLayout f startRow c)
    = startRow + List.length (flattenTree f).
Proof.
  intros f r c f'.
  pose proof (Part000_recalculateLayout_Laid f r c) as HL. fold f' in HL.
  assert (Hlen : List.length (flattenTree f') = List.length (flattenTree f)).
  { assert (Hv : views f' = views f).
    { apply views_eq_of_eraseLayout. unfold f'.
      apply eraseLayout_Part000_recalculateLayout. }
    unfold views in Hv. apply (f_equal (@List.length _)) in Hv.
    now rewrite !length_map in Hv. }
  destruct (Laid1_preorder _ _ _ _ HL) as [Hrows Hnext].
  repeat split.
  - intros n m Hn Hm. pose proof (Laid_descendants _ _ _ _ _ HL n m Hn Hm). lia.
  - eapply Laid_siblingsDisjoint; eassumption.
  - eapply Laid_siblingsDisjoint_children; eassumption.
  - now rewrite <- Hlen.
  - now rewrite <- Hlen.
Qed.

(** C7.  Paste is guarded: when the clipboard is empty, or when the id of
    the target (the right-clicked node) equals the id of the clipboard's
    node, [handlePaste] returns the state it was given, so neither the
    forest nor the clipboard changes; the same holds of the menu item. *)
Theorem handlePaste_guard :
  forall (uuidv4 : nat -> string) (s : State),
    (clipboard s = None \/
     exists T cb, contextNode s = Some T /\ clipboard s = Some cb /\
                  id T = id (node cb)) ->
    handlePaste uuidv4 s = s /\ dispatch uuidv4 s MenuPaste = s.
Proof.
  intros u s H.
  assert (E : handlePaste u s = s).
  { unfold handlePaste. destruct H as [H|[T [cb [H1 [H2 H3]]]]].
    - rewrite H. now destruct (contextNode s).
    - rewrite H1, H2, H3, String.eqb_refl. reflexivity. }
  split; [exact E|].
  simpl. rewrite E. now destruct (menuOpen s && negb (pasteDisabled s)).
Qed.

Lemma handlePaste_guard_witness :
  handlePaste letterUuid cutAMenuOnA = cutAMenuOnA /\
  dispatch letterUuid cutAMenuOnA MenuPaste = cutAMenuOnA.
Proof.
  apply handlePaste_guard. right.
  exists (box cutAMenuOnA 1), (mkClipboard cut (box cutAMenuOnA 1)).
  split; [|split]; vm_compute; reflexivity.
Defined.

(** The guard of delete lives in the menu: [handleDelete] filters on
    whatever id the right-clicked node has.  It leaves the clipboard
    alone, leaves no node with that id, and in a forest with unique ids
    takes the target away together with its whole subtree. *)
Lemma handleDelete_filters_target (s : State) (T : NodeItem) :
  contextNode s = Some T ->
  clipboard (handleDelete s) = clipboard s /\
  ~ In (id T) (ids (nodes (handleDelete s))) /\
  (uniqueIds (nodes s) -> In T (flattenTree (nodes s)) ->
   exists pre post,
     ids (nodes s) = pre ++ ids [T] ++ post /\
     ids (nodes (handleDelete s)) = pre ++ post).
Proof.
  intros HT.
  assert (E : ids (nodes (handleDelete s))
              = ids (pruneFrom (Some (id T)) (nodes s))).
  { unfold handleDelete, deleteFrom. rewrite HT. simpl.
    apply ids_recalculateLayout. }
  split; [reflexivity|]. split.
  - rewrite E. apply pruneFrom_no_id.
  - intros Hu HIn. rewrite E. now apply pruneFrom_ids.
Qed.

(** C4.  With the root as target, cut, copy and delete are silent no-ops:
    [handleCut] and [handleCopy] return the state they were given, and so
    do the menu items for cut, copy and delete, the delete item because
    it is rendered disabled for the root.  The whole state is unchanged,
    the forest and the clipboard in particular. *)
Theorem root_guards :
  forall (uuidv4 : nat -> string) (s : State) (T : NodeItem),
    contextNode s = Some T -> id T = "root" ->
    handleCut s = s /\ handleCopy s = s /\
    dispatch uuidv4 s MenuCut = s /\
    dispatch uuidv4 s MenuCopy = s /\
    dispatch uuidv4 s MenuDelete = s.
Proof.
  intros u s T HT Hid.
  assert (Ecut : handleCut s = s).
  { unfold handleCut. now rewrite HT, Hid. }
  assert (Ecopy : handleCopy s = s).
  { unfold handleCopy. now rewrite HT, Hid. }
  split; [exact Ecut|]. split; [exact Ecopy|]. split; [|split].
  - simpl. rewrite Ecut. now destruct (menuOpen s).
  - simpl. rewrite Ecopy. now destruct (menuOpen s).
  - simpl. unfold deleteDisabled. rewrite HT, Hid. simpl.
    now rewrite Bool.andb_false_r.
Qed.

Lemma root_guards_witness :
  contextNode menuOnRoot = Some (box menuOnRoot 0) /\
  id (box menuOnRoot 0) = "root" /\
  handleCut menuOnRoot = menuOnRoot /\ handleCopy menuOnRoot = menuOnRoot /\
  dispatch letterUuid menuOnRoot MenuCut = menuOnRoot /\
  dispatch letterUuid menuOnRoot MenuCopy = menuOnRoot /\
  dispatch letterUuid menuOnRoot MenuDelete = menuOnRoot.
Proof.
  assert (HT : contextNode menuOnRoot = Some (box menuOnRoot 0))
    by (vm_compute; reflexivity).
  assert (Hid : id (box menuOnRoot 0) = "root") by (vm_compute; reflexivity).
  split; [exact HT|]. split; [exact Hid|].
  exact (@root_guards letterUuid menuOnRoot (box menuOnRoot 0) HT Hid).
Defined.

(** C5.  Delete is guarded on nodes that have children: the delete item
    of the menu is rendered disabled for them (and for the root), so
    invoking it returns the state unchanged; whenever delete changes the
    forest the target is a leaf other than the root; and for such a
    target, in a forest with unique ids that holds it, delete removes
    that one node and nothing else. *)
Theorem delete_guard :
  forall (uuidv4 : nat -> string) (s : State) (T : NodeItem),
    contextNode s = Some T ->
    (children T <> [] -> dispatch uuidv4 s MenuDelete = s) /\
    (nodes (dispatch uuidv4 s MenuDelete) <> nodes s ->
     id T <> "root" /\ children T = []) /\
    (menuOpen s = true -> id T <> "root" -> children T = [] ->
     uniqueIds (nodes s) -> In T (flattenTree (nodes s)) ->
     exists pre post,
       ids (nodes s) = pre ++ id T :: post /\
       ids (nodes (dispatch uuidv4 s MenuDelete)) = pre ++ post).
Proof.
  intros u s T HT. split; [|split].
  - intros Hch. simpl. unfold deleteDisabled. rewrite HT.
    destruct (children T); [congruence|]. simpl.
    now rewrite Bool.orb_true_r, Bool.andb_false_r.
  - intros Hne. simpl in Hne. unfold deleteDisabled in Hne. rewrite HT in Hne.
    split.
    + destruct (String.eqb_spec (id T) "root") as [E|E]; [|exact E].
      simpl in Hne. rewrite Bool.andb_false_r in Hne. congruence.
    + destruct (children T); [reflexivity|]. simpl in Hne.
      rewrite Bool.orb_true_r, Bool.andb_false_r in Hne. congruence.
  - intros Hopen Hroot Hleaf Hu HIn.
    assert (E : dispatch u s MenuDelete = handleDelete s).
    { simpl. unfold deleteDisabled. rewrite HT, Hopen, Hleaf.
      destruct (String.eqb_spec (id T) "root"); [contradiction|reflexivity]. }
    rewrite E.
    destruct (handleDelete_filters_target s T HT) as [_ [_ H]].
    destruct (H Hu HIn) as [pre [post [E1 E2]]].
    exists pre, post. rewrite ids_single, Hleaf in E1. split; assumption.
Qed.

Lemma delete_guard_witness :
  contextNode menuOnA = Some (box menuOnA 1) /\
  children (box menuOnA 1) <> [] /\
  dispatch letterUuid menuOnA MenuDelete = menuOnA.
Proof.
  assert (HT : contextNode menuOnA = Some (box menuOnA 1))
    by (vm_compute; reflexivity).
  assert (Hch : children (box menuOnA 1) <> []) by (vm_compute; discriminate).
  split; [exact HT|]. split; [exact Hch|].
  exact (proj1 (@delete_guard letterUuid menuOnA (box menuOnA 1) HT) Hch).
Defined.

(** C9.  Cutting a node [N] other than the root only stages the cut: the
    clipboard becomes [{mode: 'cut', node: N}] with [N] in its marked
    form; the forest keeps every id, label, [parentId], [col], [row] and
    all its structure (it is the same forest once the [isCut] flags are
    dropped); along the traversal the flags of the nodes outside [N]'s
    subtree are untouched and every node of the subtree, which stays
    where it was, carries [isCut = true]. *)
Theorem handleCut_staging :
  forall (s : State) (N : NodeItem),
    uniqueIds (nodes s) ->
    contextNode s = Some N ->
    In N (flattenTree (nodes s)) ->
    id N <> "root" ->
    let s' := handleCut s in
    clipboard s' = Some (mkClipboard cut (markCutNodes N)) /\
    eraseCut (markCutNodes N) = eraseCut N /\
    map eraseCut (nodes s') = map eraseCut (nodes s) /\
    (exists pre post,
        flattenTree (nodes s) = pre ++ walk N ++ post /\
        map isCut (flattenTree (nodes s'))
        = map isCut pre ++ map (fun _ => Some true) (walk N) ++ map isCut post) /\
    In (markCutNodes N) (flattenTree (nodes s')).
Proof.
  intros s N Hu HT HIn Hroot s'.
  assert (E : handleCut s =
              setContextMenu None
                (setClipboard (Some (mkClipboard cut (markCutNodes N)))
                   (setNodes
                      (updateTree (nodes s) (id N) (fun _ => markCutNodes N))
                      s))).
  { unfold handleCut. rewrite HT.
    destruct (String.eqb_spec (id N) "root") as [E|E]; [congruence|].
    now rewrite id_markCutNodes, replaceNodeInTree_updateTree. }
  subst s'. rewrite E. cbn [clipboard nodes setContextMenu setClipboard setNodes].
  destruct (updateTree_markCutNodes (nodes s) N Hu HIn) as [H1 [H2 H3]].
  repeat split; try assumption.
  pose proof (eraseCut_markCutNodes [N]) as E'. simpl in E'. now injection E'.
Qed.

Lemma handleCut_staging_witness :
  uniqueIds (nodes menuOnA) /\
  contextNode menuOnA = Some (box menuOnA 1) /\
  In (box menuOnA 1) (flattenTree (nodes menuOnA)) /\
  id (box menuOnA 1) <> "root" /\
  clipboard (handleCut menuOnA)
  = Some (mkClipboard cut (markCutNodes (box menuOnA 1))) /\
  map eraseCut (nodes (handleCut menuOnA)) = map eraseCut (nodes menuOnA) /\
  In (markCutNodes (box menuOnA 1)) (flattenTree (nodes (handleCut menuOnA))).
Proof.
  assert (Hu : uniqueIds (nodes menuOnA)) by (unfold uniqueIds; distinct_strings).
  assert (HT : contextNode menuOnA = Some (box menuOnA 1))
    by (vm_compute; reflexivity).
  assert (HIn : In (box menuOnA 1) (flattenTree (nodes menuOnA)))
    by (vm_compute; auto).
  assert (Hr : id (box menuOnA 1) <> "root") by (vm_compute; discriminate).
  pose proof (@handleCut_staging menuOnA (box menuOnA 1) Hu HT HIn Hr) as H.
  cbv zeta in H. destruct H as [H1 [_ [H3 [_ H5]]]].
  split; [exact Hu|]. split; [exact HT|]. split; [exact HIn|].
  split; [exact Hr|]. split; [exact H1|]. split; [exact H3|exact H5].
Defined.

(** C8.  Submitting the modal with a blank label (empty, or white space
    only) returns the state unchanged.  Otherwise, on a forest with
    unique ids that holds the target [T], one call to [uuidv4] is made
    and, along the traversal, the forest changes in exactly two places:
    [T] gains the new id at the end of its children, and one new node is
    inserted after the former descendants of [T]: a leaf with the new
    id, the typed label and [parentId] equal to the id of [T].  Every
    other node keeps its fields and its children; the ids stay unique
    when [uuidv4] returned an id that the forest does not hold. *)
Theorem handleModalSubmit_addChild :
  forall (uuidv4 : nat -> string) (s : State) (T : NodeItem),
    contextNode s = Some T ->
    (blank (newLabel s) -> handleModalSubmit uuidv4 s = s) /\
    (~ blank (newLabel s) ->
     uniqueIds (nodes s) -> In T (flattenTree (nodes s)) ->
     let s' := handleModalSubmit uuidv4 s in
     let newId := uuidv4 (uuidCalls s) in
     uuidCalls s' = S (uuidCalls s) /\
     (exists pre post,
         views (nodes s) = pre ++ view T :: views (children T) ++ post /\
         views (nodes s')
         = pre ++ (id T, label T, parentId T, isCut T,
                   map id (children T) ++ [newId])
               :: views (children T)
               ++ (newId, newLabel s, Some (id T), None, []) :: post) /\
     (~ In newId (ids (nodes s)) -> uniqueIds (nodes s'))).
Proof.
  intros u s T HT. split.
  - intros Hb. apply trim_blank in Hb.
    unfold handleModalSubmit. now rewrite HT, Hb.
  - intros Hb Hu HIn s' newId.
    assert (Ht : truthy (trim (newLabel s)) = true).
    { destruct (truthy (trim (newLabel s))) eqn:E; [reflexivity|].
      exfalso. apply Hb. now apply trim_blank. }
    set (newChild := mkNode newId (newLabel s) [] (Some (id T)) None 0 0).
    assert (E : s' =
                setModalOpen false
                  (setNewLabel []
                     (setNodes
                        (fst (recalculateLayout
                                (updateTree (nodes s) (id T) (appendChild newChild))
                                0 0))
                        (setUuidCalls (S (uuidCalls s)) s)))).
    { subst s'. unfold handleModalSubmit. now rewrite HT, Ht. }
    rewrite E. cbn [uuidCalls nodes setModalOpen setNewLabel setNodes setUuidCalls].
    split; [reflexivity|]. split.
    + destruct (updateTree_appendChild_at newChild T (nodes s) Hu HIn)
        as [pre [post [Hv [Hv' _]]]].
      exists pre, post. split; [exact Hv|].
      rewrite views_recalculateLayout, Hv', view_appendChild. reflexivity.
    + intros Hfresh. unfold uniqueIds. rewrite ids_recalculateLayout.
      apply updateTree_appendChild_unique.
      * exact Hu.
      * now apply In_ids.
      * unfold uniqueIds. rewrite ids_single. simpl.
        constructor; [intros []|constructor].
      * intros j Hj Hc. rewrite ids_single in Hc. simpl in Hc.
        destruct Hc as [<-|[]]. contradiction.
Qed.

Lemma handleModalSubmit_addChild_witness :
  contextNode (modalOnA labelB) = Some (box menuOnA 1) /\
  ~ blank (newLabel (modalOnA labelB)) /\
  uniqueIds (nodes (modalOnA labelB)) /\
  In (box menuOnA 1) (flattenTree (nodes (modalOnA labelB))) /\
  uuidCalls (handleModalSubmit letterUuid (modalOnA labelB))
  = S (uuidCalls (modalOnA labelB)) /\
  handleModalSubmit letterUuid (modalOnA [32%N; 9%N]) = modalOnA [32%N; 9%N].
Proof.
  assert (HT : contextNode (modalOnA labelB) = Some (box menuOnA 1))
    by (vm_compute; reflexivity).
  assert (HT' : contextNode (modalOnA [32%N; 9%N]) = Some (box menuOnA 1))
    by (vm_compute; reflexivity).
  destruct (@handleModalSubmit_addChild letterUuid _ _ HT) as [_ H].
  destruct (@handleModalSubmit_addChild letterUuid _ _ HT') as [H' _].
  assert (Hb : ~ blank (newLabel (modalOnA labelB))).
  { intros Hb. vm_compute in Hb. inversion Hb as [|c l Hc Hl]. discriminate Hc. }
  assert (Hb' : blank (newLabel (modalOnA [32%N; 9%N]))).
  { vm_compute. repeat constructor. }
  assert (Hu : uniqueIds (nodes (modalOnA labelB)))
    by (unfold uniqueIds; distinct_strings).
  assert (HIn : In (box menuOnA 1) (flattenTree (nodes (modalOnA labelB))))
    by (vm_compute; auto).
  specialize (H Hb Hu HIn). cbv zeta in H. destruct H as [Hcalls _].
  split; [exact HT|]. split; [exact Hb|]. split; [exact Hu|].
  split; [exact HIn|]. split; [exact Hcalls|exact (H' Hb')].
Defined.

(* ------------------------------------------------------------------ *)
(** * Further properties of the editor *)

(** ** Copy and paste *)

(** X1.  Copying [N] and pasting under a node [T] of the forest, with another
    id: the clipboard is cleared, [uuidv4] is called once per node of
    [N]'s subtree, and [T] gains, as its last child, a subtree with the
    shape and labels of [N], [isCut = false] throughout and the ids
    [uuidv4 k], [uuidv4 (k + 1)], ... in pre-order; the traversal of the
    forest changes in this one place only; every subtree of the old
    forest that does not hold [T] is still there, the same up to layout;
    the ids stay unique when the generated ones are new and distinct. *)
Theorem copy_then_paste :
  forall (uuidv4 : nat -> string) (s : State) (N T : NodeItem) (x y : Z),
    uniqueIds (nodes s) -> contextNode s = Some N -> id N <> "root" ->
    In T (flattenTree (nodes s)) -> id T <> id N ->
    let s2 := handlePaste uuidv4 (handleRightClick T x y (handleCopy s)) in
    let k := uuidCalls s in
    let size := List.length (walk N) in
    clipboard s2 = None /\
    uuidCalls s2 = k + size /\
    (exists T2 cs pasted,
        In T2 (flattenTree (nodes s2)) /\ id T2 = id T /\
        children T2 = cs ++ [pasted] /\
        map eraseLayout cs = map eraseLayout (children T) /\
        shape pasted = shape N /\
        ids [pasted] = map uuidv4 (seq k size) /\
        Forall (fun m => isCut m = Some false) (walk pasted) /\
        exists pre post,
          views (nodes s) = pre ++ view T :: views (children T) ++ post /\
          views (nodes s2)
          = pre ++ (id T, label T, parentId T, isCut T,
                    map id (children T) ++ [uuidv4 k])
                :: views (children T) ++ views [pasted] ++ post) /\
    (forall M, In M (flattenTree (nodes s)) -> ~ In (id T) (ids [M]) ->
               exists M', In M' (flattenTree (nodes s2)) /\
                          eraseLayout M' = eraseLayout M) /\
    (Forall (fun j => ~ In (uuidv4 j) (ids (nodes s))) (seq k size) ->
     NoDup (map uuidv4 (seq k size)) ->
     uniqueIds (nodes s2)).
Proof.
  intros u s N T x y Hu HN Hroot HT Hid s2 k size.
  set (clone := fst (deepClone u N k)).
  assert (E : s2 =
              handleCloseContextMenu
                (setClipboard None
                   (setNodes
                      (fst (recalculateLayout
                              (updateTree (nodes s) (id T) (appendChild clone))
                              0 0))
                      (setUuidCalls (snd (deepClone u N k))
                         (handleRightClick T x y (handleCopy s)))))).
  { subst s2. rewrite (handleCopy_eq s N HN Hroot).
    set (s1 := handleRightClick T x y
                 (handleCloseContextMenu
                    (setClipboard (Some (mkClipboard copy N)) s))).
    assert (H1 : contextNode s1 = Some T) by reflexivity.
    assert (H2 : clipboard s1 = Some (mkClipboard copy N)) by reflexivity.
    now rewrite (handlePaste_copy u s1 T N H1 H2 Hid). }
  assert (En : nodes s2
               = fst (recalculateLayout
                        (updateTree (nodes s) (id T) (appendChild clone)) 0 0))
    by (rewrite E; reflexivity).
  destruct (deepClone_spec u N k) as [Hshape [Hids [Hcalls Hflags]]].
  fold clone in Hshape, Hids, Hflags. cbv zeta in Hshape, Hids, Hcalls, Hflags.
  assert (Hidc : id clone = u k).
  { unfold clone. now rewrite deepClone_eq. }
  destruct (updateTree_appendChild_at clone T (nodes s) Hu HT)
    as [pre [post [Hv [Hv' HIn]]]].
  split; [rewrite E; reflexivity|].
  split; [rewrite E; exact Hcalls|].
  split; [|split].
  - destruct (recalculateLayout_In _ 0 0 _ HIn) as [T2 [HT2 ET2]].
    destruct (eraseLayout_appendChild T2 clone T ET2)
      as [HidT2 [cs [pasted [Hch [Hcs Hp]]]]].
    exists T2, cs, pasted. rewrite En.
    repeat split; try assumption.
    + now rewrite (shape_eq_single _ _ Hp).
    + now rewrite (ids_eq_single _ _ Hp).
    + now apply (Forall_isCut_transfer pasted clone).
    + exists pre, post. split; [exact Hv|].
      rewrite views_recalculateLayout, Hv', view_appendChild, Hidc.
      now rewrite (views_eq_single _ _ Hp).
  - intros M HM HnotT. rewrite En.
    apply recalculateLayout_In.
    now apply updateTree_appendChild_keeps.
  - intros Hfresh Hdistinct. unfold uniqueIds.
    rewrite En, ids_recalculateLayout.
    apply updateTree_appendChild_unique.
    + exact Hu.
    + now apply In_ids.
    + unfold uniqueIds. now rewrite Hids.
    + intros j Hj Hc. rewrite Hids in Hc. apply in_map_iff in Hc.
      destruct Hc as [m [<- Hm]].
      rewrite Forall_forall in Hfresh. exact (Hfresh m Hm Hj).
Qed.

Lemma copy_then_paste_witness :
  uniqueIds (nodes menuOnA) /\
  contextNode menuOnA = Some (box menuOnA 1) /\
  id (box menuOnA 1) <> "root" /\
  In (box menuOnA 3) (flattenTree (nodes menuOnA)) /\
  id (box menuOnA 3) <> id (box menuOnA 1) /\
  clipboard (handlePaste letterUuid
               (handleRightClick (box menuOnA 3) 0 0 (handleCopy menuOnA)))
  = None /\
  uuidCalls (handlePaste letterUuid
               (handleRightClick (box menuOnA 3) 0 0 (handleCopy menuOnA)))
  = uuidCalls menuOnA + List.length (walk (box menuOnA 1)).
Proof.
  assert (Hu : uniqueIds (nodes menuOnA)) by (unfold uniqueIds; distinct_strings).
  assert (HN : contextNode menuOnA = Some (box menuOnA 1))
    by (vm_compute; reflexivity).
  assert (Hr : id (box menuOnA 1) <> "root") by (vm_compute; discriminate).
  assert (HT : In (box menuOnA 3) (flattenTree (nodes menuOnA)))
    by (vm_compute; auto 6).
  assert (Hid : id (box menuOnA 3) <> id (box menuOnA 1))
    by (vm_compute; discriminate).
  pose proof (@copy_then_paste letterUuid menuOnA (box menuOnA 1)
                (box menuOnA 3) 0%Z 0%Z Hu HN Hr HT Hid) as H.
  cbv zeta in H. destruct H as [H1 [H2 _]].
  split; [exact Hu|]. split; [exact HN|]. split; [exact Hr|].
  split; [exact HT|]. split; [exact Hid|]. split; [exact H1|exact H2].
Defined.

(** ** Cut and paste *)

(** X2.  Cutting [N] and pasting under a node [T] that is neither [N] nor one
    of its descendants moves the subtree: the clipboard is cleared, no id
    is drawn from [uuidv4], [T] gains as its last child the subtree that
    was cut, with its ids and [isCut = false] throughout; the forest
    holds the same ids as before, each once, so nothing is lost or
    duplicated; and the node with [T]'s id is the only one that has [N]
    among its children. *)
Theorem cut_then_paste :
  forall (uuidv4 : nat -> string) (s : State) (N T : NodeItem) (x y : Z),
    uniqueIds (nodes s) -> contextNode s = Some N ->
    In N (flattenTree (nodes s)) -> id N <> "root" ->
    In T (flattenTree (nodes (handleCut s))) -> ~ In (id T) (ids [N]) ->
    let s2 := handlePaste uuidv4 (handleRightClick T x y (handleCut s)) in
    clipboard s2 = None /\
    uuidCalls s2 = uuidCalls s /\
    (exists T2 cs pasted,
        In T2 (flattenTree (nodes s2)) /\ id T2 = id T /\
        children T2 = cs ++ [pasted] /\
        eraseLayout pasted = eraseLayout (clearCutFlags N) /\
        ids [pasted] = ids [N] /\
        Forall (fun m => isCut m = Some false) (walk pasted)) /\
    uniqueIds (nodes s2) /\
    Permutation (ids (nodes s2)) (ids (nodes s)) /\
    (forall M, In M (flattenTree (nodes s2)) ->
               In (id N) (map id (children M)) -> id M = id T).
Proof.
  intros u s N T x y Hu HN HIn Hroot HT HnotT s2.
  assert (Hid : id T <> id N).
  { intros E. apply HnotT. rewrite ids_single, E. now left. }
  destruct (cut_paste_nodes u s N T x y HN Hroot Hid) as [_ [Hcb Hcalls]].
  destruct (cut_paste_result u s N T x y Hu HN HIn Hroot HT HnotT)
    as [Hu2 [Hperm [[T2 [cs [pasted [HT2 [HidT2 [Hch Hp]]]]]] Honly]]].
  fold s2 in Hcb, Hcalls, Hu2, Hperm, HT2, Honly.
  repeat split; try assumption.
  exists T2, cs, pasted. repeat split; try assumption.
  - now rewrite (ids_eq_single _ _ Hp), ids_clearCutFlags_node.
  - apply (Forall_isCut_transfer pasted (clearCutFlags N) _ Hp).
    rewrite <- flattenTree_single. apply (isCut_clearCutFlags [N]).
Qed.

Lemma cut_then_paste_witness :
  uniqueIds (nodes menuOnA) /\
  contextNode menuOnA = Some (box menuOnA 1) /\
  In (box menuOnA 1) (flattenTree (nodes menuOnA)) /\
  id (box menuOnA 1) <> "root" /\
  In (box (handleCut menuOnA) 3) (flattenTree (nodes (handleCut menuOnA))) /\
  ~ In (id (box (handleCut menuOnA) 3)) (ids [box menuOnA 1]) /\
  uniqueIds
    (nodes (handlePaste letterUuid
              (handleRightClick (box (handleCut menuOnA) 3) 0 0
                 (handleCut menuOnA)))).
Proof.
  assert (Hu : uniqueIds (nodes menuOnA)) by (unfold uniqueIds; distinct_strings).
  assert (HN : contextNode menuOnA = Some (box menuOnA 1))
    by (vm_compute; reflexivity).
  assert (HIn : In (box menuOnA 1) (flattenTree (nodes menuOnA)))
    by (vm_compute; auto).
  assert (Hr : id (box menuOnA 1) <> "root") by (vm_compute; discriminate).
  assert (HT : In (box (handleCut menuOnA) 3)
                  (flattenTree (nodes (handleCut menuOnA))))
    by (vm_compute; auto 6).
  assert (HnotT : ~ In (id (box (handleCut menuOnA) 3)) (ids [box menuOnA 1])).
  { vm_compute. intros [H|[H|[]]]; discriminate H. }
  pose proof (@cut_then_paste letterUuid menuOnA (box menuOnA 1)
                (box (handleCut menuOnA) 3) 0%Z 0%Z Hu HN HIn Hr HT HnotT) as H.
  cbv zeta in H. destruct H as [_ [_ [_ [H4 _]]]].
  split; [exact Hu|]. split; [exact HN|]. split; [exact HIn|].
  split; [exact Hr|]. split; [exact HT|]. split; [exact HnotT|exact H4].
Defined.

(** X3.  The guard of paste compares ids only, so a cut node can be pasted
    under one of its own descendants: the removal then takes the target
    away with the subtree and the insertion finds nothing to update.  The
    forest is the old one without the subtree of [N], laid out again; no
    id of that subtree is left; the clipboard is cleared all the same. *)
Theorem paste_into_own_descendant :
  forall (uuidv4 : nat -> string) (s : State) (N T : NodeItem) (x y : Z),
    uniqueIds (nodes s) -> contextNode s = Some N ->
    In N (flattenTree (nodes s)) -> id N <> "root" ->
    In (id T) (ids (children N)) ->
    let s1 := handleCut s in
    let s2 := handlePaste uuidv4 (handleRightClick T x y s1) in
    id T <> id N /\
    clipboard s2 = None /\
    nodes s2
    = fst (recalculateLayout (pruneFrom (Some (id N)) (nodes s1)) 0 0) /\
    (exists pre post,
        ids (nodes s) = pre ++ ids [N] ++ post /\
        ids (nodes s2) = pre ++ post) /\
    (forall j, In j (ids [N]) -> ~ In j (ids (nodes s2))).
Proof.
  intros u s N T x y Hu HN HIn Hroot HT s1 s2.
  pose proof (uniqueIds_subtree _ _ Hu HIn) as HuN.
  destruct (uniqueIds_children N HuN) as [Hself _].
  assert (Hid : id T <> id N).
  { intros E. apply Hself. now rewrite <- E. }
  destruct (cut_paste_nodes u s N T x y HN Hroot Hid) as [En [Hcb _]].
  fold s1 s2 in En, Hcb.
  set (f1 := updateTree (nodes s) (id N) (fun _ => markCutNodes N)) in *.
  assert (Ef1 : nodes s1 = f1).
  { unfold s1. now rewrite (handleCut_eq s N HN Hroot). }
  assert (Hids1 : ids f1 = ids (nodes s)) by now apply ids_after_mark.
  assert (Hu1 : uniqueIds f1) by (unfold uniqueIds; now rewrite Hids1).
  destruct (updateTree_markCutNodes (nodes s) N Hu HIn) as [_ [_ HN1]].
  cbv zeta in HN1. fold f1 in HN1.
  assert (HT1 : In (id T) (ids [markCutNodes N])).
  { rewrite ids_markCutNodes_node, ids_single. now right. }
  destruct (prune_then_append_lost f1 (markCutNodes N) (clearCutFlags N) (id T)
              Hu1 HN1 HT1) as [Elost [pre [post [E1 [E2 Hdisj]]]]].
  rewrite id_markCutNodes, ids_markCutNodes_node in *.
  rewrite Elost in En.
  assert (Eids : ids (nodes s2) = pre ++ post).
  { now rewrite En, ids_recalculateLayout. }
  split; [exact Hid|]. split; [exact Hcb|]. split; [now rewrite Ef1|].
  split.
  - exists pre, post. split; [now rewrite <- Hids1|exact Eids].
  - intros j Hj. rewrite Eids. now apply Hdisj.
Qed.

Lemma paste_into_own_descendant_witness :
  uniqueIds (nodes menuOnA) /\
  contextNode menuOnA = Some (box menuOnA 1) /\
  In (box menuOnA 1) (flattenTree (nodes menuOnA)) /\
  id (box menuOnA 1) <> "root" /\
  In (id (box (handleCut menuOnA) 2)) (ids (children (box menuOnA 1))) /\
  ids (nodes (handlePaste letterUuid
                (handleRightClick (box (handleCut menuOnA) 2) 0 0
                   (handleCut menuOnA))))
  = ["root"; "b"].
Proof.
  assert (Hu : uniqueIds (nodes menuOnA)) by (unfold uniqueIds; distinct_strings).
  assert (HN : contextNode menuOnA = Some (box menuOnA 1))
    by (vm_compute; reflexivity).
  assert (HIn : In (box menuOnA 1) (flattenTree (nodes menuOnA)))
    by (vm_compute; auto).
  assert (Hr : id (box menuOnA 1) <> "root") by (vm_compute; discriminate).
  assert (HT : In (id (box (handleCut menuOnA) 2))
                  (ids (children (box menuOnA 1))))
    by (vm_compute; auto).
  pose proof (@paste_into_own_descendant letterUuid menuOnA (box menuOnA 1)
                (box (handleCut menuOnA) 2) 0%Z 0%Z Hu HN HIn Hr HT) as H.
  cbv zeta in H. destruct H as [_ [_ [H3 _]]].
  split; [exact Hu|]. split; [exact HN|]. split; [exact HIn|].
  split; [exact Hr|]. split; [exact HT|].
  rewrite H3. vm_compute. reflexivity.
Defined.

(** ** [parentId] across a paste *)

(** X4.  Neither mode of paste writes [parentId].  After cut and paste the
    moved node still names its former parent, so the forest is not
    [parentId]-consistent unless [N] already named the target. *)
Theorem cut_paste_keeps_parentId :
  forall (uuidv4 : nat -> string) (s : State) (N T : NodeItem) (x y : Z),
    uniqueIds (nodes s) -> contextNode s = Some N ->
    In N (flattenTree (nodes s)) -> id N <> "root" ->
    In T (flattenTree (nodes (handleCut s))) -> ~ In (id T) (ids [N]) ->
    let s2 := handlePaste uuidv4 (handleRightClick T x y (handleCut s)) in
    (exists T2 pasted,
        In T2 (flattenTree (nodes s2)) /\ id T2 = id T /\
        In pasted (children T2) /\ id pasted = id N /\
        parentId pasted = parentId N) /\
    (parentId N <> Some (id T) -> ~ parentIdConsistent (nodes s2)).
Proof.
  intros u s N T x y Hu HN HIn Hroot HT HnotT s2.
  destruct (cut_paste_result u s N T x y Hu HN HIn Hroot HT HnotT)
    as [_ [_ [[T2 [cs [pasted [HT2 [HidT2 [Hch Hp]]]]]] _]]].
  fold s2 in HT2.
  destruct (eraseLayout_children _ _ Hp) as [Hidp [_ [Hpar _]]].
  rewrite clearCutFlags_eq in Hidp, Hpar. cbn [id parentId] in Hidp, Hpar.
  assert (Hin : In pasted (children T2)).
  { rewrite Hch. apply in_or_app. right. now left. }
  split.
  - exists T2, pasted. auto.
  - intros Hne Hcons. apply Hne.
    rewrite <- Hpar, <- HidT2. exact (Hcons T2 pasted HT2 Hin).
Qed.

Lemma cut_paste_keeps_parentId_witness :
  uniqueIds (nodes menuOnA) /\
  contextNode menuOnA = Some (box menuOnA 1) /\
  In (box menuOnA 1) (flattenTree (nodes menuOnA)) /\
  id (box menuOnA 1) <> "root" /\
  In (box (handleCut menuOnA) 3) (flattenTree (nodes (handleCut menuOnA))) /\
  ~ In (id (box (handleCut menuOnA) 3)) (ids [box menuOnA 1]) /\
  parentId (box menuOnA 1) <> Some (id (box (handleCut menuOnA) 3)) /\
  ~ parentIdConsistent
      (nodes (handlePaste letterUuid
                (handleRightClick (box (handleCut menuOnA) 3) 0 0
                   (handleCut menuOnA)))).
Proof.
  assert (Hu : uniqueIds (nodes menuOnA)) by (unfold uniqueIds; distinct_strings).
  assert (HN : contextNode menuOnA = Some (box menuOnA 1))
    by (vm_compute; reflexivity).
  assert (HIn : In (box menuOnA 1) (flattenTree (nodes menuOnA)))
    by (vm_compute; auto).
  assert (Hr : id (box menuOnA 1) <> "root") by (vm_compute; discriminate).
  assert (HT : In (box (handleCut menuOnA) 3)
                  (flattenTree (nodes (handleCut menuOnA))))
    by (vm_compute; auto 6).
  assert (HnotT : ~ In (id (box (handleCut menuOnA) 3)) (ids [box menuOnA 1])).
  { vm_compute. intros [H|[H|[]]]; discriminate H. }
  assert (Hne : parentId (box menuOnA 1)
                <> Some (id (box (handleCut menuOnA) 3)))
    by (vm_compute; discriminate).
  pose proof (@cut_paste_keeps_parentId letterUuid menuOnA (box menuOnA 1)
                (box (handleCut menuOnA) 3) 0%Z 0%Z Hu HN HIn Hr HT HnotT) as H.
  cbv zeta in H. destruct H as [_ H2].
  split; [exact Hu|]. split; [exact HN|]. split; [exact HIn|].
  split; [exact Hr|]. split; [exact HT|]. split; [exact HnotT|].
  split; [exact Hne|exact (H2 Hne)].
Defined.

(** X5.  After copy and paste the nodes of the pasted subtree carry, in
    pre-order, the [parentId]s of the nodes they were cloned from: the
    clone of [N] names [N]'s parent and the clones below it name the
    originals, so the forest is not [parentId]-consistent unless [N]
    already named the target. *)
Theorem copy_paste_keeps_parentId :
  forall (uuidv4 : nat -> string) (s : State) (N T : NodeItem) (x y : Z),
    uniqueIds (nodes s) -> contextNode s = Some N -> id N <> "root" ->
    In T (flattenTree (nodes s)) -> id T <> id N ->
    let s2 := handlePaste uuidv4 (handleRightClick T x y (handleCopy s)) in
    (exists T2 pasted,
        In T2 (flattenTree (nodes s2)) /\ id T2 = id T /\
        In pasted (children T2) /\ id pasted = uuidv4 (uuidCalls s) /\
        map parentId (walk pasted) = map parentId (walk N)) /\
    (parentId N <> Some (id T) -> ~ parentIdConsistent (nodes s2)).
Proof.
  intros u s N T x y Hu HN Hroot HT Hid s2.
  destruct (copy_paste_pasted u s N T x y Hu HN Hroot HT Hid)
    as [T2 [cs [pasted [HT2 [HidT2 [Hch Hp]]]]]].
  fold s2 in HT2.
  assert (Hin : In pasted (children T2)).
  { rewrite Hch. apply in_or_app. right. now left. }
  assert (Hpar : map parentId (walk pasted) = map parentId (walk N)).
  { rewrite (parentId_eq_single _ _ Hp). apply deepClone_parentId_node. }
  assert (Hidp : id pasted = u (uuidCalls s)).
  { destruct (eraseLayout_children _ _ Hp) as [E _].
    rewrite E. now rewrite deepClone_eq. }
  split.
  - exists T2, pasted. auto.
  - intros Hne Hcons. apply Hne.
    rewrite !walk_eq in Hpar. simpl in Hpar. injection Hpar as Hpar _.
    rewrite <- Hpar, <- HidT2. exact (Hcons T2 pasted HT2 Hin).
Qed.

Lemma copy_paste_keeps_parentId_witness :
  uniqueIds (nodes menuOnA) /\
  contextNode menuOnA = Some (box menuOnA 1) /\
  id (box menuOnA 1) <> "root" /\
  In (box menuOnA 3) (flattenTree (nodes menuOnA)) /\
  id (box menuOnA 3) <> id (box menuOnA 1) /\
  parentId (box menuOnA 1) <> Some (id (box menuOnA 3)) /\
  ~ parentIdConsistent
      (nodes (handlePaste letterUuid
                (handleRightClick (box menuOnA 3) 0 0 (handleCopy menuOnA)))).
Proof.
  assert (Hu : uniqueIds (nodes menuOnA)) by (unfold uniqueIds; distinct_strings).
  assert (HN : contextNode menuOnA = Some (box menuOnA 1))
    by (vm_compute; reflexivity).
  assert (Hr : id (box menuOnA 1) <> "root") by (vm_compute; discriminate).
  assert (HT : In (box menuOnA 3) (flattenTree (nodes menuOnA)))
    by (vm_compute; auto 6).
  assert (Hid : id (box menuOnA 3) <> id (box menuOnA 1))
    by (vm_compute; discriminate).
  assert (Hne : parentId (box menuOnA 1) <> Some (id (box menuOnA 3)))
    by (vm_compute; discriminate).
  pose proof (@copy_paste_keeps_parentId letterUuid menuOnA (box menuOnA 1)
                (box menuOnA 3) 0%Z 0%Z Hu HN Hr HT Hid) as H.
  cbv zeta in H. destruct H as [_ H2].
  split; [exact Hu|]. split; [exact HN|]. split; [exact Hr|].
  split; [exact HT|]. split; [exact Hid|]. split; [exact Hne|exact (H2 Hne)].
Defined.

(** ** The layout pass *)

(** X6.  [recalculateLayout] writes [col] and [row] and nothing else: ids,
    labels, [parentId], [isCut] and the structure are those of the input,
    and the traversal has the same length. *)
Theorem recalculateLayout_keeps_structure :
  forall (f : list NodeItem) (startRow c : nat),
    let f' := fst (recalculateLayout f startRow c) in
    map eraseLayout f' = map eraseLayout f /\
    views f' = views f /\
    List.length (flattenTree f') = List.length (flattenTree f).
Proof.
  intros f r c f'.
  assert (Hv : views f' = views f) by apply views_recalculateLayout.
  repeat split.
  - apply eraseLayout_recalculateLayout.
  - exact Hv.
  - unfold views in Hv. apply (f_equal (@List.length _)) in Hv.
    now rewrite !length_map in Hv.
Qed.

(** X7.  Columns: the trees of the forest get the column passed in, and every
    child sits one column after its parent.  Rows: every node lies from
    [startRow] on and before the row that the pass returns. *)
Theorem recalculateLayout_columns :
  forall (f : list NodeItem) (startRow c : nat),
    let f' := fst (recalculateLayout f startRow c) in
    Forall (fun n => col n = c) f' /\
    (forall n m, In n (flattenTree f') -> In m (children n) ->
                 col m = col n + 1) /\
    Forall (fun m => startRow <= row m /\
                     row m < snd (recalculateLayout f startRow c))
           (flattenTree f').
Proof.
  intros f r c f'.
  pose proof (recalculateLayout_Laid f r c) as HL. fold f' in HL.
  repeat split.
  - eapply Laid_top_col; eassumption.
  - eapply Laid_child_col; eassumption.
  - eapply Laid_bounds; eassumption.
Qed.

(** X8.  The layout depends on the forest only up to the [col] and [row] it
    holds; in particular, running the pass on its own output gives the
    same forest and the same next row. *)
Theorem recalculateLayout_idempotent :
  forall (f : list NodeItem) (startRow c : nat),
    recalculateLayout (fst (recalculateLayout f startRow c)) startRow c
    = recalculateLayout f startRow c /\
    (forall g, map eraseLayout f = map eraseLayout g ->
               recalculateLayout f startRow c = recalculateLayout g startRow c).
Proof.
  intros f r c. split.
  - apply recalculateLayout_eraseLayout, eraseLayout_recalculateLayout.
  - intros g E. now apply recalculateLayout_eraseLayout.
Qed.

(** Only the trees of the forest and the children of listed nodes are
    listed. *)
Lemma flattenTree_listed (f : list NodeItem) :
  forall m, In m (flattenTree f) ->
            In m f \/ exists p, In p (flattenTree f) /\ In m (children p).
Proof.
  induction f as [|a rest IHc IHr] using forest_ind; intros m Hm.
  - contradiction.
  - rewrite flattenTree_cons in *. destruct Hm as [<-|Hm]; [left; now left|].
    apply in_app_or in Hm. destruct Hm as [Hm|Hm].
    + right. destruct (IHc m Hm) as [H|[p [Hp Hc]]].
      * exists a. split; [now left|exact H].
      * exists p. split; [|exact Hc]. right. apply in_or_app. now left.
    + destruct (IHr m Hm) as [H|[p [Hp Hc]]].
      * left. now right.
      * right. exists p. split; [|exact Hc]. right. apply in_or_app. now right.
Qed.

(** ** The tree helpers *)

(** X10.  An id that the forest does not hold: [updateTree] and
    [replaceNodeInTree] return the forest as it is. *)
Theorem updateTree_unknown_id :
  forall (f : list NodeItem) (i : string) (updater : NodeItem -> NodeItem)
         (updatedNode : NodeItem),
    ~ In i (ids f) ->
    updateTree f i updater = f /\ replaceNodeInTree f i updatedNode = f.
Proof.
  intros f i u x H. split.
  - now apply updateTree_absent.
  - rewrite replaceNodeInTree_updateTree. now apply updateTree_absent.
Qed.

Lemma updateTree_unknown_id_witness :
  ~ In "z" (ids (nodes rootWithACB)) /\
  updateTree (nodes rootWithACB) "z" markCutNodes = nodes rootWithACB /\
  replaceNodeInTree (nodes rootWithACB) "z" (box rootWithACB 0)
  = nodes rootWithACB.
Proof.
  assert (H : ~ In "z" (ids (nodes rootWithACB))).
  { vm_compute. intros [H|[H|[H|[H|[]]]]]; discriminate H. }
  split; [exact H|].
  exact (updateTree_unknown_id (nodes rootWithACB) "z" markCutNodes
           (box rootWithACB 0) H).
Defined.

(** X11.  [removeFrom] and [deleteFrom] remove the id at every depth: no node
    with the id is left, no id is added, a second pass changes nothing,
    an id that the forest does not hold leaves it as it is, and so does a
    missing target ([undefined]). *)
Theorem pruneFrom_removes_id :
  forall (f : list NodeItem) (i : string),
    ~ In i (ids (pruneFrom (Some i) f)) /\
    (forall j, In j (ids (pruneFrom (Some i) f)) -> In j (ids f)) /\
    pruneFrom (Some i) (pruneFrom (Some i) f) = pruneFrom (Some i) f /\
    (~ In i (ids f) -> pruneFrom (Some i) f = f) /\
    pruneFrom None f = f.
Proof.
  intros f i. repeat split.
  - apply pruneFrom_no_id.
  - apply pruneFrom_ids_incl.
  - apply pruneFrom_absent, pruneFrom_no_id.
  - apply pruneFrom_absent.
  - apply pruneFrom_None.
Qed.

(** X12.  [markCutNodes] and [clearCutFlags] write [isCut] on the whole subtree
    and nothing else; the later of two passes wins. *)
Theorem cut_flags_subtree :
  forall (n : NodeItem),
    Forall (fun m => isCut m = Some true) (walk (markCutNodes n)) /\
    Forall (fun m => isCut m = Some false) (walk (clearCutFlags n)) /\
    eraseCut (markCutNodes n) = eraseCut n /\
    eraseCut (clearCutFlags n) = eraseCut n /\
    clearCutFlags (markCutNodes n) = clearCutFlags n /\
    markCutNodes (clearCutFlags n) = markCutNodes n.
Proof.
  intros n. repeat split.
  - apply Forall_forall. intros m Hm.
    pose proof (isCut_markCutNodes [n]) as E. simpl map in E.
    rewrite !flattenTree_single in E.
    assert (Hin : In (isCut m) (map isCut (walk (markCutNodes n))))
      by now apply in_map.
    rewrite E in Hin. apply in_map_iff in Hin. now destruct Hin as [x [<- _]].
  - rewrite <- flattenTree_single. apply (isCut_clearCutFlags [n]).
  - pose proof (eraseCut_markCutNodes [n]) as E. simpl in E. now injection E.
  - pose proof (eraseCut_clearCutFlags [n]) as E. simpl in E. now injection E.
  - apply clearCutFlags_markCutNodes_node.
  - pose proof (markCutNodes_clearCutFlags [n]) as E. simpl in E. now injection E.
Qed.

(** X13.  [flattenTree] is the pre-order traversal of the forest: the
    trees are listed in order, each node at once followed by the
    traversal of its children and then by the later trees.  So every
    tree of the forest and every child of a listed node is listed,
    nothing else is, and the subtree of a listed node is one segment of
    the list. *)
Theorem flattenTree_preorder :
  forall (f g : list NodeItem) (n : NodeItem),
    flattenTree (@nil NodeItem) = [] /\
    flattenTree (n :: f) = n :: flattenTree (children n) ++ flattenTree f /\
    flattenTree (f ++ g) = flattenTree f ++ flattenTree g /\
    (forall m, In m f -> In m (flattenTree f)) /\
    (forall p m, In p (flattenTree f) -> In m (children p) ->
                 In m (flattenTree f)) /\
    (forall m, In m (flattenTree f) ->
               In m f \/ exists p, In p (flattenTree f) /\ In m (children p)) /\
    (forall p, In p (flattenTree f) ->
               exists pre post,
                 flattenTree f = pre ++ p :: flattenTree (children p) ++ post).
Proof.
  intros f g n.
  split; [reflexivity|]. split; [apply flattenTree_cons|].
  split; [apply flattenTree_app|].
  split; [intros m Hm; now apply In_flattenTree_top|].
  split; [apply In_flattenTree_child|].
  split.
  - apply flattenTree_listed.
  - intros p Hp. destruct (flattenTree_segment f p Hp) as [pre [post E]].
    exists pre, post. rewrite E, walk_eq. reflexivity.
Qed.

(** X14.  [deepClone] copies shape and labels, draws one id per node from
    [uuidv4], in pre-order and without gaps, clears [isCut], resets
    [col] and [row], and copies every [parentId] as it is. *)
Theorem deepClone_copy :
  forall (uuidv4 : nat -> string) (n : NodeItem) (k : nat),
    let clone := fst (deepClone uuidv4 n k) in
    let size := List.length (walk n) in
    shape clone = shape n /\
    ids [clone] = map uuidv4 (seq k size) /\
    snd (deepClone uuidv4 n k) = k + size /\
    Forall (fun m => isCut m = Some false /\ col m = 0 /\ row m = 0)
           (walk clone) /\
    map parentId (walk clone) = map parentId (walk n).
Proof.
  intros u n k clone size.
  destruct (deepClone_spec u n k) as [H1 [H2 [H3 H4]]].
  fold clone in H1, H2, H4. repeat split; try assumption.
  - pose proof (layout_zero_deepClone u [n] k) as Hz.
    rewrite mapAccum_cons in Hz. cbn [fst snd mapAccum] in Hz.
    rewrite flattenTree_single in Hz. fold clone in Hz.
    rewrite Forall_forall in *. intros m Hm.
    destruct (Hz m Hm). auto.
  - apply deepClone_parentId_node.
Qed.

(** ** Handlers on a target that is missing *)

(** X15.  Submitting the modal for a target whose id the forest does not hold
    adds nothing: the forest is only laid out again; a call to [uuidv4]
    is spent all the same, the label is reset and the modal closes. *)
Theorem handleModalSubmit_missing_target :
  forall (uuidv4 : nat -> string) (s : State) (T : NodeItem),
    contextNode s = Some T -> ~ blank (newLabel s) ->
    ~ In (id T) (ids (nodes s)) ->
    let s' := handleModalSubmit uuidv4 s in
    nodes s' = fst (recalculateLayout (nodes s) 0 0) /\
    map eraseLayout (nodes s') = map eraseLayout (nodes s) /\
    uuidCalls s' = S (uuidCalls s) /\
    newLabel s' = [] /\ modalOpen s' = false /\
    clipboard s' = clipboard s.
Proof.
  intros u s T HT Hb Hmiss s'.
  assert (Ht : truthy (trim (newLabel s)) = true).
  { destruct (truthy (trim (newLabel s))) eqn:E; [reflexivity|].
    exfalso. apply Hb. now apply trim_blank. }
  assert (En : nodes s' = fst (recalculateLayout (nodes s) 0 0)).
  { subst s'. unfold handleModalSubmit. rewrite HT, Ht. cbn [negb nodes setModalOpen setNewLabel setNodes].
    now rewrite updateTree_absent. }
  split; [exact En|]. split.
  - rewrite En. apply eraseLayout_recalculateLayout.
  - subst s'. unfold handleModalSubmit. rewrite HT, Ht. repeat split.
Qed.

Lemma handleModalSubmit_missing_target_witness :
  contextNode modalOnDeletedC = Some (box rootWithACB 2) /\
  ~ blank (newLabel modalOnDeletedC) /\
  ~ In (id (box rootWithACB 2)) (ids (nodes modalOnDeletedC)) /\
  map eraseLayout (nodes (handleModalSubmit letterUuid modalOnDeletedC))
  = map eraseLayout (nodes modalOnDeletedC).
Proof.
  assert (HT : contextNode modalOnDeletedC = Some (box rootWithACB 2))
    by (vm_compute; reflexivity).
  assert (Hb : ~ blank (newLabel modalOnDeletedC)).
  { intros Hb. vm_compute in Hb. inversion Hb as [|c l Hc Hl]. discriminate Hc. }
  assert (Hm : ~ In (id (box rootWithACB 2)) (ids (nodes modalOnDeletedC))).
  { vm_compute. intros [H|[H|[H|[]]]]; discriminate H. }
  pose proof (@handleModalSubmit_missing_target letterUuid modalOnDeletedC
                (box rootWithACB 2) HT Hb Hm) as H.
  cbv zeta in H. destruct H as [_ [H2 _]].
  split; [exact HT|]. split; [exact Hb|]. split; [exact Hm|exact H2].
Defined.

(** X16.  [handleDelete] without a target node ([contextNode] is [null], so the
    filter compares every id with [undefined]) removes nothing: the
    forest is laid out again and the menu closes. *)
Theorem handleDelete_without_target :
  forall (s : State),
    contextNode s = None ->
    nodes (handleDelete s) = fst (recalculateLayout (nodes s) 0 0) /\
    map eraseLayout (nodes (handleDelete s)) = map eraseLayout (nodes s) /\
    clipboard (handleDelete s) = clipboard s /\
    contextMenu (handleDelete s) = None.
Proof.
  intros s H.
  assert (En : nodes (handleDelete s) = fst (recalculateLayout (nodes s) 0 0)).
  { unfold handleDelete, deleteFrom. rewrite H. cbn [option_map].
    now rewrite pruneFrom_None. }
  repeat split.
  - exact En.
  - rewrite En. apply eraseLayout_recalculateLayout.
Qed.

Lemma handleDelete_without_target_witness :
  contextNode initialState = None /\
  nodes (handleDelete initialState) = nodes initialState.
Proof.
  split; [reflexivity|].
  destruct (handleDelete_without_target initialState eq_refl) as [H _].
  rewrite H. vm_compute. reflexivity.
Defined.

(** ** The variant [src/unnamed/part_000] *)

(** X17.  In the variant, cut and paste does not move the node: the node is
    appended under the target first and [removeFrom] then removes every
    node with its id, the appended one included.  The result is the
    forest with the cut node deleted, laid out again. *)
Theorem Part000_cut_paste_deletes :
  forall (uuidv4 : nat -> string) (s : State) (T N : NodeItem),
    contextNode s = Some T ->
    clipboard s = Some (mkClipboard cut N) ->
    id T <> id N ->
    let s2 := Part000.handlePaste uuidv4 s in
    nodes s2
    = fst (Part000.recalculateLayout (pruneFrom (Some (id N)) (nodes s)) 0 0) /\
    ~ In (id N) (ids (nodes s2)) /\
    clipboard s2 = None.
Proof.
  intros u s T N HT Hcb Hid s2.
  assert (E : nodes s2
              = fst (Part000.recalculateLayout
                       (pruneFrom (Some (id N)) (nodes s)) 0 0)).
  { subst s2. unfold Part000.handlePaste. rewrite HT, Hcb. cbn [node mode].
    destruct (String.eqb_spec (id T) (id N)); [contradiction|].
    cbn [nodes handleCloseContextMenu setContextMenu setNodes].
    now rewrite pruneFrom_after_append. }
  split; [exact E|]. split.
  - rewrite E, ids_Part000_recalculateLayout. apply pruneFrom_no_id.
  - subst s2. unfold Part000.handlePaste. rewrite HT, Hcb. cbn [node mode].
    destruct (String.eqb_spec (id T) (id N)); [contradiction|reflexivity].
Qed.

Lemma Part000_cut_paste_deletes_witness :
  contextNode part000CutAMenuOnB = Some (box menuOnA 3) /\
  clipboard part000CutAMenuOnB = Some (mkClipboard cut (box menuOnA 1)) /\
  id (box menuOnA 3) <> id (box menuOnA 1) /\
  ids (nodes part000CutAMenuOnB) = ["root"; "a"; "c"; "b"] /\
  ids (nodes (Part000.handlePaste letterUuid part000CutAMenuOnB))
  = ["root"; "b"].
Proof.
  assert (HT : contextNode part000CutAMenuOnB = Some (box menuOnA 3))
    by (vm_compute; reflexivity).
  assert (Hcb : clipboard part000CutAMenuOnB
                = Some (mkClipboard cut (box menuOnA 1)))
    by (vm_compute; reflexivity).
  assert (Hid : id (box menuOnA 3) <> id (box menuOnA 1))
    by (vm_compute; discriminate).
  pose proof (@Part000_cut_paste_deletes letterUuid part000CutAMenuOnB
                (box menuOnA 3) (box menuOnA 1) HT Hcb Hid) as H.
  cbv zeta in H. destruct H as [H1 _].
  split; [exact HT|]. split; [exact Hcb|]. split; [exact Hid|].
  split; [vm_compute; reflexivity|].
  rewrite H1. vm_compute. reflexivity.
Defined.



(** ** Reachable states *)

(** X19.  Through the interface the root can neither be removed nor moved:
    every reachable forest is one tree whose root is ['root'], on column
    0 and row 0, and the clipboard never holds the root. *)
Theorem Reachable_root_on_top :
  forall (uuidv4 : nat -> string) (s : State),
    Reachable uuidv4 s ->
    (exists r, nodes s = [r] /\ id r = "root" /\ col r = 0 /\ row r = 0) /\
    (forall cb, clipboard s = Some cb -> id (node cb) <> "root").
Proof.
  intros u s H.
  destruct (root_invariant u s H) as [[r [E [Hid [Hc Hr]]]] Hcb].
  split; [|exact Hcb]. exists r. auto.
Qed.

Lemma Reachable_root_on_top_witness :
  Reachable letterUuid cutAMenuOnA /\
  (exists r, nodes cutAMenuOnA = [r] /\ id r = "root" /\ col r = 0 /\ row r = 0).
Proof.
  assert (H : Reachable letterUuid cutAMenuOnA).
  { unfold cutAMenuOnA, menuOnA, rootWithACB, rootWithAB, rootWithA.
    repeat apply Reachable_run. constructor. }
  split; [exact H|].
  exact (proj1 (Reachable_root_on_top letterUuid cutAMenuOnA H)).
Defined.

(** X20.  Every id of a reachable forest is ['root'] or an output of one of the
    calls to [uuidv4] made so far.  So, when [uuidv4] never repeats and
    never returns ['root'], the ids it will return from now on are not in
    the forest. *)
Theorem Reachable_ids_from_generator :
  forall (uuidv4 : nat -> string) (s : State),
    Reachable uuidv4 s ->
    (forall i, In i (ids (nodes s)) ->
               i = "root" \/ exists j, j < uuidCalls s /\ i = uuidv4 j) /\
    ((forall j k, uuidv4 j = uuidv4 k -> j = k) ->
     (forall k, uuidv4 k <> "root") ->
     forall k, uuidCalls s <= k -> ~ In (uuidv4 k) (ids (nodes s))).
Proof.
  intros u s H. destruct (idsGenerated_Reachable u s H) as [G _].
  split; [exact G|].
  intros Hinj Hroot k Hk Hin. destruct (G _ Hin) as [E|[j [Hj E]]].
  - exact (Hroot k E).
  - apply Hinj in E. lia.
Qed.

Lemma Reachable_ids_from_generator_witness :
  Reachable letterUuid cutAMenuOnA /\
  (forall i, In i (ids (nodes cutAMenuOnA)) ->
             i = "root" \/
             exists j, j < uuidCalls cutAMenuOnA /\ i = letterUuid j).
Proof.
  assert (H : Reachable letterUuid cutAMenuOnA).
  { unfold cutAMenuOnA, menuOnA, rootWithACB, rootWithAB, rootWithA.
    repeat apply Reachable_run. constructor. }
  split; [exact H|].
  exact (proj1 (Reachable_ids_from_generator letterUuid cutAMenuOnA H)).
Defined.

Lemma tallyUuid_injective : forall j k, tallyUuid j = tallyUuid k -> j = k.
Proof.
  unfold tallyUuid. intros j k E. injection E as E. revert k E.
  induction j as [|j IH]; intros [|k] E; simpl in E;
    try reflexivity; try discriminate.
  injection E as E. f_equal. now apply IH.
Qed.

Lemma tallyUuid_not_root : forall k, tallyUuid k <> "root".
Proof. intros k. unfold tallyUuid. discriminate. Qed.

(** X21.  Uniqueness of ids: when [uuidv4] never repeats and never returns
    ['root'], every forest that the interface can reach has pairwise
    distinct ids, and so has a subtree held on the clipboard in cut
    mode. *)
Theorem Reachable_unique_ids :
  forall (uuidv4 : nat -> string),
    (forall j k, uuidv4 j = uuidv4 k -> j = k) ->
    (forall k, uuidv4 k <> "root") ->
    forall s, Reachable uuidv4 s ->
      uniqueIds (nodes s) /\
      (forall cb, clipboard s = Some cb -> mode cb = cut ->
                  uniqueIds [node cb]).
Proof.
  intros u Hinj Hroot s H.
  destruct (uniqueState_Reachable u Hinj Hroot s H) as [Ha [_ Hc]].
  split; [exact Ha|]. intros cb E Hm. now destruct (Hc cb E Hm).
Qed.

Lemma Reachable_unique_ids_witness :
  (forall j k, tallyUuid j = tallyUuid k -> j = k) /\
  (forall k, tallyUuid k <> "root") /\
  Reachable tallyUuid tallyRun /\
  uniqueIds (nodes tallyRun).
Proof.
  assert (H : Reachable tallyUuid tallyRun).
  { unfold tallyRun. apply Reachable_run. constructor. }
  split; [exact tallyUuid_injective|]. split; [exact tallyUuid_not_root|].
  split; [exact H|].
  exact (proj1 (Reachable_unique_ids tallyUuid tallyUuid_injective
                  tallyUuid_not_root tallyRun H)).
Defined.

(** ** Connectors *)

Lemma find_by_id (l : list NodeItem) (p : NodeItem) :
  NoDup (map id l) -> In p l ->
  find (fun n => String.eqb (id n) (id p)) l = Some p.
Proof.
  induction l as [|x l IH]; simpl; intros Hnd Hp; [contradiction|].
  inversion Hnd as [|y l' Hx Hnd']; subst.
  destruct Hp as [->|Hp].
  - now rewrite String.eqb_refl.
  - destruct (String.eqb_spec (id x) (id p)) as [E|E]; [|now apply IH].
    exfalso. apply Hx. rewrite E. now apply in_map.
Qed.

Lemma find_absent (l : list NodeItem) (i : string) :
  ~ In i (map id l) -> find (fun n => String.eqb (id n) i) l = None.
Proof.
  induction l as [|x l IH]; simpl; intros H; [reflexivity|].
  destruct (String.eqb_spec (id x) i) as [E|E]; [exfalso; auto|].
  apply IH. auto.
Qed.

(** X22.  No connector is drawn for a node without [parentId] (the root), nor
    for a node whose [parentId] is the id of no node of the forest. *)
Theorem connector_missing_parent :
  forall (f : list NodeItem) (child : NodeItem),
    (parentId child = None \/
     exists i, parentId child = Some i /\ ~ In i (ids f)) ->
    connectorPoints (flattenTree f) child = None.
Proof.
  intros f c [H|[i [H Hi]]]; unfold connectorPoints; rewrite H.
  - reflexivity.
  - destruct (String.eqb i ""); [reflexivity|].
    now rewrite find_absent.
Qed.

Lemma connector_missing_parent_witness :
  connectorPoints (flattenTree (nodes rootWithACB)) (box rootWithACB 0) = None.
Proof.
  apply connector_missing_parent. left. vm_compute. reflexivity.
Defined.


(** X23.  In a forest with unique ids, the connector of a node runs from the
    node that its [parentId] names, wherever that node is: from the right
    edge of that node, 20 to the side, then to the row of the child and
    on to the child. *)
Theorem connector_follows_parentId :
  forall (f : list NodeItem) (p child : NodeItem),
    uniqueIds f -> In p (flattenTree f) ->
    parentId child = Some (id p) -> id p <> "" ->
    connectorPoints (flattenTree f) child
    = Some [(col p * 250 + 200, row p * 100 + 78);
            (col p * 250 + 220, row p * 100 + 78);
            (col p * 250 + 220, row child * 100 + 78);
            (col child * 250, row child * 100 + 78)].
Proof.
  intros f p c Hu Hp Hpar Hne. unfold connectorPoints. rewrite Hpar.
  destruct (String.eqb_spec (id p) "") as [E|E]; [contradiction|].
  rewrite (find_by_id _ p Hu Hp).
  unfold COLUMN_SPACING, ROW_SPACING, NODE_WIDTH, NODE_HEIGHT.
  change (60 / 2) with 30.
  replace (col p * 250 + 200 + 20) with (col p * 250 + 220) by lia.
  replace (row p * 100 + 30 + 48) with (row p * 100 + 78) by lia.
  replace (row c * 100 + 30 + 48) with (row c * 100 + 78) by lia.
  reflexivity.
Qed.

Lemma connector_follows_parentId_witness :
  uniqueIds (nodes rootWithACB) /\
  In (box rootWithACB 1) (flattenTree (nodes rootWithACB)) /\
  parentId (box rootWithACB 2) = Some (id (box rootWithACB 1)) /\
  id (box rootWithACB 1) <> "" /\
  connectorPoints (flattenTree (nodes rootWithACB)) (box rootWithACB 2)
  = Some [(450, 78); (470, 78); (470, 78); (500, 78)].
Proof.
  assert (Hu : uniqueIds (nodes rootWithACB))
    by (unfold uniqueIds; distinct_strings).
  assert (Hp : In (box rootWithACB 1) (flattenTree (nodes rootWithACB)))
    by (vm_compute; auto).
  assert (Hpar : parentId (box rootWithACB 2) = Some (id (box rootWithACB 1)))
    by (vm_compute; reflexivity).
  assert (Hne : id (box rootWithACB 1) <> "") by (vm_compute; discriminate).
  split; [exact Hu|]. split; [exact Hp|]. split; [exact Hpar|].
  split; [exact Hne|].
  rewrite (connector_follows_parentId _ _ _ Hu Hp Hpar Hne).
  vm_compute. reflexivity.
Defined.



(** X25.  The variant [part_000] renders the delete item without a
    [disabled] attribute, so its [handleDelete] runs on whatever node was
    right-clicked: in a forest with unique ids the target goes together
    with its whole subtree, no node with the target's id is left, and the
    clipboard is untouched. *)
Theorem Part000_handleDelete_cascades :
  forall (s : State) (T : NodeItem),
    contextNode s = Some T ->
    uniqueIds (nodes s) -> In T (flattenTree (nodes s)) ->
    clipboard (Part000.handleDelete s) = clipboard s /\
    ~ In (id T) (ids (nodes (Part000.handleDelete s))) /\
    exists pre post,
      ids (nodes s) = pre ++ id T :: ids (children T) ++ post /\
      ids (nodes (Part000.handleDelete s)) = pre ++ post.
Proof.
  intros s T HT Hu HIn.
  assert (E : ids (nodes (Part000.handleDelete s))
              = ids (pruneFrom (Some (id T)) (nodes s))).
  { unfold Part000.handleDelete, deleteFrom. rewrite HT. simpl.
    apply ids_Part000_recalculateLayout. }
  split; [reflexivity|]. split.
  - rewrite E. apply pruneFrom_no_id.
  - destruct (pruneFrom_ids (nodes s) T Hu HIn) as [pre [post [E1 E2]]].
    exists pre, post. rewrite E, E2. rewrite ids_single in E1.
    split; [exact E1|reflexivity].
Qed.

Lemma Part000_handleDelete_cascades_witness :
  contextNode menuOnA = Some (box menuOnA 1) /\
  children (box menuOnA 1) <> [] /\
  ~ In (id (box menuOnA 1)) (ids (nodes (Part000.handleDelete menuOnA))) /\
  exists pre post,
    ids (nodes menuOnA)
    = pre ++ id (box menuOnA 1) :: ids (children (box menuOnA 1)) ++ post /\
    ids (nodes (Part000.handleDelete menuOnA)) = pre ++ post.
Proof.
  assert (HT : contextNode menuOnA = Some (box menuOnA 1))
    by (vm_compute; reflexivity).
  assert (Hu : uniqueIds (nodes menuOnA)) by distinct_strings.
  assert (HIn : In (box menuOnA 1) (flattenTree (nodes menuOnA)))
    by (vm_compute; tauto).
  assert (Hch : children (box menuOnA 1) <> []) by (vm_compute; discriminate).
  split; [exact HT|]. split; [exact Hch|].
  exact (proj2 (@Part000_handleDelete_cascades menuOnA (box menuOnA 1)
                  HT Hu HIn)).
Defined.
